(** * suno-support: job lifecycle and progress reporting

    A shallow embedding of the job-management code of [server/main.py]
    (separation tasks) and [server/yue_service.py] (YuE generation jobs),
    and the properties of the job lifecycle checked against it.  It also
    covers the stems and the web paths of [server/main.py], the model cache
    and the segment search of [server/clap_service.py], and the peak
    segments and the key detection of [server/audio_analysis.py].

    Modelling conventions.
    - Python [str] values are Rocq strings and are read as ASCII text; the
      character predicates below agree with Python's on code points below
      128 and treat the other bytes as uncased symbols.
    - Python [int] is [Z]; the limit that recent Python versions put on the
      number of digits [int()] accepts is not modelled.  The one
      floating-point expression of the job code, [int((a / b) * 40)], is
      computed with the IEEE-754 binary64 operations of [SpecFloat] (round
      to nearest even).
    - A raised exception is a value [exn] carrying its class and its
      [str(e)] text.
    - A dict used as a record is a Rocq record whose optional keys are
      [option] fields; the job tables [tasks] and [jobs] are [gmap]s keyed
      by job id.
    - What libraries, subprocesses, the file system and the clock do is
      given by an environment record; threads interleave between
      statements, and a store into a dict is atomic.
    - Of the numerical code of the search and of the analysis the control
      flow is modelled: what the array operations return is given by the
      environment, a value rounded to some decimals is counted in units of
      the last of them, and times are kept as the sample or frame positions
      they are computed from. *)

From Stdlib Require Import ZArith List Ascii String Bool Lia.
From Stdlib Require Import DecimalString.
From Stdlib Require Import Floats.SpecFloat.
From Stdlib Require Import Sorting.Permutation Sorting.Sorted.
From stdpp Require Import gmap strings.

Local Open Scope Z_scope.

(** ** Python string primitives *)

Module PyStr.

Definition code (c : ascii) : N := N_of_ascii c.

Definition in_range (lo hi : N) (c : ascii) : bool :=
  ((lo <=? code c) && (code c <=? hi))%N.

(** [c.isdigit()] *)
Definition isdigit (c : ascii) : bool := in_range 48 57 c.

Definition isupper (c : ascii) : bool := in_range 65 90 c.

Definition islower (c : ascii) : bool := in_range 97 122 c.

(** [c.isalnum()] *)
Definition isalnum (c : ascii) : bool := isdigit c || isupper c || islower c.

(** [c.isspace()], also the class [\s] of [re]: TAB, LF, VT, FF, CR, the
    four separators FS, GS, RS, US and the space. *)
Definition isspace (c : ascii) : bool := in_range 9 13 c || in_range 28 32 c.

Definition lower_char (c : ascii) : ascii :=
  if isupper c then ascii_of_N (code c + 32) else c.

Definition upper_char (c : ascii) : ascii :=
  if islower c then ascii_of_N (code c - 32) else c.

Fixpoint map_chars (f : ascii -> ascii) (s : string) : string :=
  match s with
  | EmptyString => EmptyString
  | String c r => String (f c) (map_chars f r)
  end.

(** [s.lower()] and [s.upper()] *)
Definition lower (s : string) : string := map_chars lower_char s.

Definition upper (s : string) : string := map_chars upper_char s.

Definition is_empty (s : string) : bool :=
  match s with EmptyString => true | String _ _ => false end.

(** [s.startswith(p)] *)
Fixpoint startswith (s p : string) {struct p} : bool :=
  match p with
  | EmptyString => true
  | String a p' =>
      match s with
      | EmptyString => false
      | String b s' => if Ascii.eqb a b then startswith s' p' else false
      end
  end.

(** [sub in s] *)
Fixpoint contains (sub s : string) : bool :=
  if startswith s sub then true
  else match s with
       | EmptyString => false
       | String _ r => contains sub r
       end.

(** [s.endswith(p)] *)
Fixpoint endswith (s p : string) : bool :=
  if String.eqb s p then true
  else match s with
       | EmptyString => false
       | String _ r => endswith r p
       end.

(** [s.replace(a, b)] for one-character [a] and [b] *)
Definition replace_char (a b : ascii) (s : string) : string :=
  map_chars (fun c => if Ascii.eqb c a then b else c) s.

(** [cat.join([c for c in s if keep(c)])] with [cat] the empty string *)
Fixpoint filter_chars (keep : ascii -> bool) (s : string) : string :=
  match s with
  | EmptyString => EmptyString
  | String c r =>
      if keep c then String c (filter_chars keep r) else filter_chars keep r
  end.

(** [s.lstrip()], [s.rstrip()] and [s.strip()] *)
Fixpoint lstrip (s : string) : string :=
  match s with
  | EmptyString => EmptyString
  | String c r => if isspace c then lstrip r else s
  end.

Fixpoint rstrip (s : string) : string :=
  match s with
  | EmptyString => EmptyString
  | String c r =>
      let r' := rstrip r in
      if isspace c && is_empty r' then EmptyString else String c r'
  end.

Definition strip (s : string) : string := rstrip (lstrip s).

(** The longest prefix of [s] whose characters satisfy [p], and the rest. *)
Fixpoint span (p : ascii -> bool) (s : string) : string * string :=
  match s with
  | EmptyString => (EmptyString, EmptyString)
  | String c r =>
      if p c then let '(a, b) := span p r in (String c a, b)
      else (EmptyString, s)
  end.

(** [int(ds)] for a string of decimal digits *)
Definition digit_val (c : ascii) : Z := Z.of_N (code c) - 48.

Fixpoint int_of_digits_from (acc : Z) (ds : string) : Z :=
  match ds with
  | EmptyString => acc
  | String c r => int_of_digits_from (10 * acc + digit_val c) r
  end.

Definition int_of_digits (ds : string) : Z := int_of_digits_from 0 ds.

(** [str(n)] for an integer *)
Definition str_of_int (n : Z) : string := NilZero.string_of_int (Z.to_int n).

(** [sep.join(parts)] *)
Fixpoint join (sep : string) (parts : list string) : string :=
  match parts with
  | [] => EmptyString
  | [p] => p
  | p :: rest => p +:+ sep +:+ join sep rest
  end.

End PyStr.

(** ** The floating-point expression of the progress parser *)

Module PyFloat.

Definition prec : Z := 53.
Definition emax : Z := 1024.

(** The positive integer [n] as mantissa with exponent 0; it stands for the
    exact value of [n], which the operations round. *)
Definition of_pos_int (n : positive) : spec_float := S754_finite false n 0.

Definition forty : spec_float := binary_normalize prec emax 40 0 false.

(** [int(x)] for a float: truncation towards zero.  Infinities and NaN
    have no integer value ([OverflowError], [ValueError]). *)
Definition trunc (x : spec_float) : option Z :=
  match x with
  | S754_zero _ => Some 0
  | S754_finite s m e =>
      let a := match e with
               | Zneg k => Z.shiftr (Zpos m) (Zpos k)
               | _ => Z.shiftl (Zpos m) e
               end in
      Some (if s then - a else a)
  | S754_infinity _ => None
  | S754_nan => None
  end.

(** [a / b] for integers [a >= 0] and [b > 0]: the correctly rounded
    quotient, or [None] when it exceeds the binary64 range
    ([OverflowError]). *)
Definition true_div (a b : Z) : option spec_float :=
  match a, b with
  | Z0, Zpos _ => Some (S754_zero false)
  | Zpos pa, Zpos pb =>
      match SFdiv prec emax (of_pos_int pa) (of_pos_int pb) with
      | S754_infinity _ => None
      | q => Some q
      end
  | _, _ => None
  end.

Definition mul40 (x : spec_float) : spec_float := SFmul prec emax x forty.

End PyFloat.

(** ** Exceptions and results *)

Record exn := Exn { exn_class : string; exn_str : string }.

Inductive res (A : Type) : Type :=
| Ok (a : A)
| Raise (e : exn).

Arguments Ok {A} a.
Arguments Raise {A} e.

Definition res_bind {A B} (r : res A) (k : A -> res B) : res B :=
  match r with
  | Ok a => k a
  | Raise e => Raise e
  end.

(** The [status] strings written by the two services. *)
Inductive status := Queued | Pending | Processing | Completed | Failed | Cancelled.

Definition status_str (s : status) : string :=
  match s with
  | Queued => "queued"
  | Pending => "pending"
  | Processing => "processing"
  | Completed => "completed"
  | Failed => "failed"
  | Cancelled => "cancelled"
  end.

Definition status_eqb (a b : status) : bool :=
  String.eqb (status_str a) (status_str b).

(** The terminal states of the specification. *)
Definition terminal (s : status) : bool :=
  match s with
  | Completed | Failed | Cancelled => true
  | _ => false
  end.

(** ** [yue_service.py] *)

Module Yue.

Import PyStr.

(** An entry of the [jobs] table. *)
Record job := Job {
  id : string;
  status_of : status;
  progress : Z;
  logs : list string;
  output_files : list string;
  created_at : Z;
  error : option string
}.

Definition set_status (v : status) (j : job) : job :=
  Job (id j) v (progress j) (logs j) (output_files j) (created_at j) (error j).

Definition set_progress (v : Z) (j : job) : job :=
  Job (id j) (status_of j) v (logs j) (output_files j) (created_at j) (error j).

Definition append_log (l : string) (j : job) : job :=
  Job (id j) (status_of j) (progress j) (logs j ++ [l]) (output_files j)
      (created_at j) (error j).


Definition set_error (v : string) (j : job) : job :=
  Job (id j) (status_of j) (progress j) (logs j) (output_files j)
      (created_at j) (Some v).

(** The [options] dict; [None] is a missing key. *)
Record options := Options {
  vocal_type : option string;
  quality : option string;
  language : option string;
  stage2_model : option string;
  segments : option Z;
  max_new_tokens : option Z;
  title : option string
}.

(** [d.get(key, default)] *)
Definition get {A} (o : option A) (default : A) : A :=
  match o with Some v => v | None => default end.

(** The module constants, which depend on where the service is installed,
    and what the platform decides: whether [glob] compares names without
    regard to case (Windows), whether [os.rename] replaces an existing
    target (POSIX) or raises (Windows), and which files [os.rename] cannot
    move at all. *)
Record platform := Platform {
  sep : string;
  YUE_DIR : string;
  VENV_PYTHON : string;
  INFER_SCRIPT : string;
  OUTPUT_DIR : string;
  glob_ignores_case : bool;
  rename_replaces : bool;
  rename_denied : string -> bool
}.

Definition path_join (pf : platform) (a b : string) : string := a +:+ sep pf +:+ b.

(** *** Vocal style (lines 40-51 of [start_generation_job]) *)

Definition vocal_prefix (options_ : options) (genre_txt : string) : string :=
  let vocal_type := get (vocal_type options_) "female" in
  let genre_txt_lower := lower genre_txt in
  if String.eqb vocal_type "none" then
    if negb (contains "instrumental" genre_txt_lower)
    then "instrumental, " +:+ genre_txt else genre_txt
  else if String.eqb vocal_type "male" then
    if negb (contains "male vocals" genre_txt_lower)
    then "male vocals, " +:+ genre_txt else genre_txt
  else if String.eqb vocal_type "female" then
    if negb (contains "female vocals" genre_txt_lower)
    then "female vocals, " +:+ genre_txt else genre_txt
  else genre_txt.

(** *** Progress parsing (lines 200-222 of [_run_yue_process]) *)

(** The match of [(\d+)/(\d+)\s*\[] that starts at the head of [s].  Each
    greedy repetition is followed by a character outside its class, so the
    longest runs are the only candidates and backtracking finds nothing
    else. *)
Definition token_at (s : string) : option (string * string) :=
  let '(g1, r1) := span isdigit s in
  if is_empty g1 then None
  else match r1 with
       | String "/" r2 =>
           let '(g2, r3) := span isdigit r2 in
           if is_empty g2 then None
           else match snd (span isspace r3) with
                | String "[" _ => Some (g1, g2)
                | _ => None
                end
       | _ => None
       end.

(** [re.search(r'(\d+)/(\d+)\s*\[', line)]: the leftmost match. *)
Fixpoint token_search (line : string) : option (string * string) :=
  match line with
  | EmptyString => None
  | String _ r =>
      match token_at line with
      | Some g => Some g
      | None => token_search r
      end
  end.

(** The match of [(\d+)/(\d+)] that starts at the head of [s]. *)
Definition seg_at (s : string) : option (string * string) :=
  let '(g1, r1) := span isdigit s in
  if is_empty g1 then None
  else match r1 with
       | String "/" r2 =>
           let g2 := fst (span isdigit r2) in
           if is_empty g2 then None else Some (g1, g2)
       | _ => None
       end.

(** [re.search(r'(\d+)/(\d+)', line)] *)
Fixpoint seg_search (line : string) : option (string * string) :=
  match line with
  | EmptyString => None
  | String _ r =>
      match seg_at line with
      | Some g => Some g
      | None => seg_search r
      end
  end.

(** [int((a / b) * 40)] for the non-negative integers [a] and [b] *)
Definition scaled40 (a b : Z) : res Z :=
  if b =? 0 then Raise (Exn "ZeroDivisionError" "division by zero")
  else match PyFloat.true_div a b with
       | None =>
           Raise (Exn "OverflowError" "integer division result too large for a float")
       | Some q =>
           match PyFloat.trunc (PyFloat.mul40 q) with
           | Some n => Ok n
           | None =>
               Raise (Exn "OverflowError" "cannot convert float infinity to integer")
           end
       end.

(** The value the line makes the loop store in [job["progress"]]:
    [Ok None] when the line stores nothing. *)
Definition parse_progress (line : string) : res (option Z) :=
  match token_search line with
  | Some (g1, g2) =>
      let current := int_of_digits g1 in
      let total := int_of_digits g2 in
      if contains "50%|##### | 1/2" line
         || contains "100%|##########| 2/2" line
         || contains "/2 [" line
      then
        match seg_search line with
        | Some (s1, s2) =>
            let c_seg := int_of_digits s1 in
            let t_seg := int_of_digits s2 in
            res_bind (scaled40 c_seg t_seg) (fun n =>
            let progress := 50 + n in
            Ok (Some (Z.min progress 90)))
        | None => Ok None
        end
      else
        res_bind (scaled40 current total) (fun n =>
        let progress := 10 + n in
        Ok (Some (Z.min progress 50)))
  | None =>
      if contains "Starting stage 1" line then Ok (Some 10)
      else if contains "Starting stage 2" line then Ok (Some 50)
      else if contains "postprocessing" (lower line)
              || contains "vocoder" (lower line)
      then Ok (Some 90)
      else Ok None
  end.

(** *** The rename pass (lines 230-244 of [_run_yue_process]) *)

Definition title_char (c : ascii) : bool :=
  isalnum c || Ascii.eqb c "-" || Ascii.eqb c "_".

Definition sanitize_title (options_ : options) : string :=
  let title := replace_char " " "_" (get (title options_) "My Song") in
  rstrip (filter_chars title_char title).

(** A name matched by the pattern [*ext]: [glob] skips the names that
    start with a dot, and compares in lower case where the platform ignores
    case. *)
Definition glob_match (pf : platform) (ext name : string) : bool :=
  negb (startswith name ".")
  && endswith (if glob_ignores_case pf then lower name else name) ext.

(** [glob.glob(os.path.join(job_dir, "*" + ext))], as names inside
    [job_dir]. *)
Definition glob (pf : platform) (ext : string) (files : list string) : list string :=
  filter (fun name => Is_true (glob_match pf ext name)) files.

Definition mem (x : string) (files : list string) : bool :=
  existsb (String.eqb x) files.

(** [os.rename(src, dst)] inside a directory that holds [files]. *)
Definition os_rename (pf : platform) (src dst : string) (files : list string)
  : res (list string) :=
  if negb (mem src files) then
    Raise (Exn "FileNotFoundError" "No such file or directory")
  else if rename_denied pf src then
    Raise (Exn "PermissionError" "The process cannot access the file")
  else if mem dst files then
    if rename_replaces pf
    then Ok (filter (fun x => Is_true (negb (String.eqb x src))) files)
    else Raise (Exn "FileExistsError" "Cannot create a file when that file already exists")
  else Ok (map (fun x => if String.eqb x src then dst else x) files).

Fixpoint rename_loop (pf : platform) (title : string) (todo files : list string)
  : list string :=
  match todo with
  | [] => files
  | fname :: rest =>
      if negb (startswith fname title) then
        let new_name := title +:+ "_" +:+ fname in
        match os_rename pf fname new_name files with
        | Ok files' => rename_loop pf title rest files'
        | Raise _ => rename_loop pf title rest files
        end
      else rename_loop pf title rest files
  end.

Definition rename_pass (pf : platform) (options_ : options) (files : list string)
  : list string :=
  let title := sanitize_title options_ in
  let job_dir_files := glob pf ".mp3" files ++ glob pf ".wav" files in
  rename_loop pf title job_dir_files files.

(** *** The runner monad

    The runner thread works on its job record and on the files of its
    output directory.  Every store into the record is atomic and visible to
    the pollers, so a run yields the list of the stores it made, each with
    the record before and after it.  [get_job_status] writes only
    [output_files], which the runner never touches. *)

Record world := World { w_job : job; w_files : list string }.

Definition M (A : Type) : Type := world -> res A * world * list (job * job).

Definition ret {A} (a : A) : M A := fun w => (Ok a, w, []).

Definition bind {A B} (m : M A) (k : A -> M B) : M B := fun w =>
  match m w with
  | (Ok a, w1, t1) => let '(r, w2, t2) := k a w1 in (r, w2, t1 ++ t2)
  | (Raise e, w1, t1) => (Raise e, w1, t1)
  end.

(** The outcome of a call into a library or the operating system. *)
Definition lift {A} (r : res A) : M A := fun w => (r, w, []).

(** [job[key] = v] and [job["logs"].append(l)] *)
Definition store (f : job -> job) : M unit := fun w =>
  (Ok tt, World (f (w_job w)) (w_files w), [(w_job w, f (w_job w))]).

(** [try: body except Exception as e: handler(e)] *)
Definition try_except {A} (body : M A) (handler : exn -> M A) : M A := fun w =>
  match body w with
  | (Ok a, w1, t1) => (Ok a, w1, t1)
  | (Raise e, w1, t1) => let '(r, w2, t2) := handler e w1 in (r, w2, t1 ++ t2)
  end.

Declare Scope run_scope.
Delimit Scope run_scope with run.
Notation "x <- m ;; k" := (bind m (fun x => k))
  (at level 100, m at next level, k at level 200, right associativity) : run_scope.
Notation "m ;; k" := (bind m (fun _ => k))
  (at level 100, k at level 200, right associativity) : run_scope.

Fixpoint for_each {A} (body : A -> M unit) (l : list A) : M unit :=
  match l with
  | [] => ret tt
  | x :: rest => (body x ;; for_each body rest)%run
  end.

(** What the surroundings of one run do. *)
Record run_env := RunEnv {
  environ_PATH : option string;
  snapshot_download : string -> string -> res string;
  popen : list string -> res unit;
  stdout : list string;
  returncode : Z;
  produced : list string
}.

(** [process.wait()]: the process has exited and left [produced] in the
    output directory. *)
Definition process_wait (env : run_env) : M Z := fun w =>
  (Ok (returncode env), World (w_job w) (produced env), []).

Definition rename_files (pf : platform) (options_ : options) : M unit := fun w =>
  (Ok tt, World (w_job w) (rename_pass pf options_ (w_files w)), []).

Definition revision_of (quality : string) : string :=
  if String.eqb quality "best" then "8.0bpw-h8"
  else if String.eqb quality "balanced" then "6.0bpw-h6"
  else "4.25bpw-h6".

(** The body of the loop over [process.stdout]. *)
Definition handle_line (raw : string) : M unit :=
  let line := strip raw in
  if is_empty line then ret tt
  else
    (store (append_log line) ;;
     p <- lift (parse_progress line) ;;
     match p with
     | Some v => store (set_progress v)
     | None => ret tt
     end)%run.

Definition run_body (pf : platform) (env : run_env)
  (job_dir genre_file lyrics_file : string) (options_ : options) : M unit :=
  (_ <- lift (match environ_PATH env with
              | Some v => Ok v
              | None => Raise (Exn "KeyError" "'PATH'")
              end) ;;
   let quality := get (quality options_) "fast" in
   let language := get (language options_) "en" in
   let repo_id :=
     if String.eqb language "ja"
     then "bartowski/YuE-s1-7B-anneal-jp-kr-cot-exl2"
     else "Doctor-Shotgun/YuE-s1-7B-anneal-en-cot-exl2" in
   let revision := revision_of quality in
   store (append_log ("Using " +:+ upper language +:+ " focus model: "
                      +:+ repo_id +:+ " (" +:+ revision +:+ ")")) ;;
   store (append_log ("Downloading Stage 1 model (" +:+ revision
                      +:+ ")... This may take several minutes on first run.")) ;;
   store (set_progress 2) ;;
   stage1_model_path <- lift (snapshot_download env repo_id revision) ;;
   store (append_log ("Stage 1 model ready: " +:+ stage1_model_path)) ;;
   store (set_progress 5) ;;
   let stage2_repo_id :=
     get (stage2_model options_) "Doctor-Shotgun/YuE-s2-1B-general-exl2" in
   let stage2_revision := "8.0bpw-h8" in
   store (append_log ("Downloading Stage 2 model (" +:+ stage2_revision +:+ ")...")) ;;
   stage2_model_path <- lift (snapshot_download env stage2_repo_id stage2_revision) ;;
   store (append_log ("Stage 2 model ready: " +:+ stage2_model_path)) ;;
   store (set_progress 8) ;;
   let segments := get (segments options_) 2 in
   let max_new_tokens := get (max_new_tokens options_) 3000 in
   let cmd :=
     [ VENV_PYTHON pf; INFER_SCRIPT pf;
       "--stage1_use_exl2";
       "--stage1_model"; stage1_model_path;
       "--stage1_cache_mode"; "Q4";
       "--stage2_use_exl2";
       "--stage2_model"; stage2_model_path;
       "--stage2_cache_mode"; "Q4";
       "--stage2_cache_size"; "16384";
       "--genre_txt"; genre_file;
       "--lyrics_txt"; lyrics_file;
       "--output_dir"; job_dir;
       "--run_n_segments"; str_of_int segments;
       "--max_new_tokens"; str_of_int max_new_tokens;
       "--repetition_penalty"; "1.1";
       "--cuda_idx"; "0" ] in
   store (append_log ("Command: " +:+ join " " cmd)) ;;
   lift (popen env cmd) ;;
   for_each handle_line (stdout env) ;;
   returncode <- process_wait env ;;
   if returncode =? 0 then
     store (set_status Completed) ;;
     store (set_progress 100) ;;
     rename_files pf options_ ;;
     store (append_log "Generation completed successfully.")
   else
     store (set_status Failed) ;;
     store (set_error ("Process exited with code " +:+ str_of_int returncode)) ;;
     store (append_log ("FAILED: Process exited with code " +:+ str_of_int returncode))
  )%run.

Definition run_handler (e : exn) : M unit :=
  (store (set_status Failed) ;;
   store (set_error (exn_str e)) ;;
   store (append_log ("EXCEPTION: " +:+ exn_str e)))%run.

Definition _run_yue_process (pf : platform) (env : run_env)
  (job_dir genre_file lyrics_file : string) (options_ : options) : M unit :=
  (store (set_status Processing) ;;
   try_except (run_body pf env job_dir genre_file lyrics_file options_)
              run_handler)%run.

(** *** Submission and polling *)

Record submit_env := SubmitEnv {
  uuid4 : string;
  time_now : Z;
  makedirs : res unit;
  write_genre : res unit;
  write_lyrics : res unit
}.

Definition no_options : options := Options None None None None None None None.

(** The record stored by [start_generation_job] (lines 63-71). *)
Definition new_job (job_id : string) (now : Z) : job :=
  Job job_id Pending 0 [] [] now None.

(** [start_generation_job]: the new table and the returned id, once the
    runner thread is started; the text written to [genre.txt] comes with
    them. *)
Definition start_generation_job (se : submit_env) (genre_txt lyrics_txt : string)
  (options_ : option options) (jobs : gmap string job)
  : res (gmap string job * string * string) :=
  let options_ := get options_ no_options in
  let job_id := uuid4 se in
  res_bind (makedirs se) (fun _ =>
  let genre_txt := vocal_prefix options_ genre_txt in
  res_bind (write_genre se) (fun _ =>
  res_bind (write_lyrics se) (fun _ =>
  Ok (<[job_id := new_job job_id (time_now se)]> jobs, job_id, genre_txt)))).


(** The stores of a whole run of the job created at [now], in order. *)
Definition run_trace (pf : platform) (env : run_env)
  (job_dir genre_file lyrics_file : string) (options_ : options)
  (job_id : string) (now : Z) : list (job * job) :=
  snd (_run_yue_process pf env job_dir genre_file lyrics_file options_
         (World (new_job job_id now) [])).

Definition run_final (pf : platform) (env : run_env)
  (job_dir genre_file lyrics_file : string) (options_ : options)
  (job_id : string) (now : Z) : res unit * world :=
  fst (_run_yue_process pf env job_dir genre_file lyrics_file options_
         (World (new_job job_id now) [])).

End Yue.

(** ** [main.py]: separation tasks *)

Module Sep.

Import PyStr.

(** The [result] dict of a finished separation. *)
Record result_t := Result {
  vocals_url : string;
  instrumental_url : string;
  vocals_path : string;
  instrumental_path : string;
  result_original_path : string
}.

(** An entry of the [tasks] table.  The keys [result] and [error] are
    absent until they are stored. *)
Record task := Task {
  status_of : status;
  progress : Z;
  filename : string;
  original_path : string;
  result : option result_t;
  error : option string
}.

Definition set_status (v : status) (t : task) : task :=
  Task v (progress t) (filename t) (original_path t) (result t) (error t).

Definition set_progress (v : Z) (t : task) : task :=
  Task (status_of t) v (filename t) (original_path t) (result t) (error t).

Definition set_result (v : result_t) (t : task) : task :=
  Task (status_of t) (progress t) (filename t) (original_path t) (Some v) (error t).

Definition set_error (v : string) (t : task) : task :=
  Task (status_of t) (progress t) (filename t) (original_path t) (result t) (Some v).

Record platform := Platform {
  sep : string;
  UPLOAD_DIR : string;
  SEPARATION_DIR : string
}.

(** *** [separate_audio] and the two task endpoints *)

(** [s.split(c)] *)
Fixpoint split_on (c : ascii) (s : string) : list string :=
  match s with
  | EmptyString => [EmptyString]
  | String a r =>
      if Ascii.eqb a c then EmptyString :: split_on c r
      else match split_on c r with
           | p :: ps => String a p :: ps
           | [] => [String a EmptyString]
           end
  end.

(** [Path(p).name]: the last component that is neither empty nor a dot. *)
Definition path_name (p : string) : string :=
  List.last (filter (fun x => Is_true (negb (is_empty x || String.eqb x ".")))
                    (split_on "/" p))
            EmptyString.

(** The part of [s] from its last dot on. *)
Fixpoint from_last_dot (s : string) : option string :=
  match s with
  | EmptyString => None
  | String c r =>
      match from_last_dot r with
      | Some t => Some t
      | None => if Ascii.eqb c "." then Some s else None
      end
  end.

(** [Path(p).suffix]: the last dot must be neither the first nor the last
    character of the name. *)
Definition path_suffix (p : string) : string :=
  match path_name p with
  | EmptyString => EmptyString
  | String _ r =>
      match from_last_dot r with
      | Some t => if String.eqb t "." then EmptyString else t
      | None => EmptyString
      end
  end.

Record upload_env := UploadEnv {
  uuid4 : string;
  copyfileobj : res unit
}.

(** The record stored by [separate_audio] (lines 226-231). *)
Definition new_task (task_id ext file_filename : string) : task :=
  Task Queued 0 file_filename ("/uploads/" +:+ task_id +:+ ext) None None.

(** [separate_audio]: the new table and the [task_id] of the response, once
    the runner thread is started; a failure is answered with status 500. *)
Definition separate_audio (ue : upload_env) (file_filename : string)
  (tasks : gmap string task) : res (gmap string task * string) :=
  let task_id := uuid4 ue in
  let ext := if is_empty (path_suffix file_filename) then ".mp3"
             else path_suffix file_filename in
  match copyfileobj ue with
  | Raise e => Raise (Exn "HTTPException" (exn_str e))
  | Ok _ => Ok (<[task_id := new_task task_id ext file_filename]> tasks, task_id)
  end.

(** [get_task_status]: the record, or the 404 answer. *)
Definition get_task_status (task_id : string) (tasks : gmap string task)
  : res task :=
  match tasks !! task_id with
  | Some t => Ok t
  | None => Raise (Exn "HTTPException" "Task not found")
  end.

(** [cancel_task] *)
Definition cancel_task (task_id : string) (tasks : gmap string task)
  : res (gmap string task) :=
  match tasks !! task_id with
  | Some _ => Ok (alter (set_status Cancelled) task_id tasks)
  | None => Raise (Exn "HTTPException" "Task not found")
  end.

(** *** [run_separation_task] and its ticker thread

    The runner thread, the ticker thread it starts and the request handlers
    interleave statement by statement; every store into the task record is
    atomic.  A program point is named after the line of [main.py] that the
    thread executes next. *)

Inductive pc :=
| L75 | L76 | L82 | L84 | L88 | L94 | L99 | L104 | L106 | L110 | L132
| L138 (r : res (list string))
| L139 (r : res (list string))
| L142 (output_files : list string)
| L153 (output_files : list string)
| L200 | L201
| L207 (e : exn)
| L208 (e : exn)
| Return.

Inductive ticker :=
| NotStarted
| T114 (current : Z)
| T115 (current : Z)
| T118 (current : Z)
| T123 (current : Z)
| T124 (current : Z)
| Finished.

Record state := State {
  tasks : gmap string task;
  at_ : pc;
  tick : ticker;
  stop_progress : bool
}.

(** What the libraries and the file system do during one run.  Lines
    153-190 read and rename the output files and touch the task record only
    by raising; [finalize] is their outcome, with the existence of
    [vocals.wav] and [instrumental.wav] at line 195. *)
Record run_env := RunEnv {
  mkdir : res unit;
  import_separator : res unit;
  new_separator : res unit;
  load_model : res unit;
  separate : res (list string);
  finalize : res (bool * bool)
}.

Inductive event :=
| Run
| Tick
| Cancel (id : string).

Definition is_import_error (e : exn) : bool :=
  String.eqb (exn_class e) "ImportError"
  || String.eqb (exn_class e) "ModuleNotFoundError".

Definition missing_separator : exn :=
  Exn "ImportError"
      "audio-separator library not found. Please run 'pip install audio-separator[gpu]'".

(** Both branches of lines 183-190 yield the stored [original_path], which
    is [/uploads/] followed by a file name. *)
Definition make_result (pf : platform) (task_id : string) (t : task)
  (exists_ : bool * bool) : result_t :=
  let output_dir := SEPARATION_DIR pf +:+ sep pf +:+ task_id in
  Result ("/outputs/separated/" +:+ task_id +:+ "/vocals.wav")
         ("/outputs/separated/" +:+ task_id +:+ "/instrumental.wav")
         (if fst exists_ then output_dir +:+ sep pf +:+ "vocals.wav" else EmptyString)
         (if snd exists_ then output_dir +:+ sep pf +:+ "instrumental.wav"
          else EmptyString)
         (original_path t).

Definition goto (p : pc) (s : state) : state :=
  State (tasks s) p (tick s) (stop_progress s).

Definition store_at (task_id : string) (f : task -> task) (p : pc) (s : state) : state :=
  State (alter f task_id (tasks s)) p (tick s) (stop_progress s).

Definition call {A} (r : res A) (p : pc) (s : state) : state :=
  match r with
  | Ok _ => goto p s
  | Raise e => goto (L207 e) s
  end.

Definition status_is (task_id : string) (v : status) (s : state) : bool :=
  match tasks s !! task_id with
  | Some t => status_eqb (status_of t) v
  | None => false
  end.

(** One statement of the runner thread. *)
Definition run_step (pf : platform) (env : run_env) (task_id : string)
  (s : state) : option state :=
  match at_ s with
  | L75 => Some (store_at task_id (set_status Processing) L76 s)
  | L76 => Some (store_at task_id (set_progress 5) L82 s)
  | L82 => Some (call (mkdir env) L84 s)
  | L84 => Some (store_at task_id (set_progress 10) L88 s)
  | L88 =>
      Some (match import_separator env with
            | Ok _ => goto L94 s
            | Raise e =>
                if is_import_error e then goto (L207 missing_separator) s
                else goto (L207 e) s
            end)
  | L94 => Some (call (new_separator env) L99 s)
  | L99 => Some (store_at task_id (set_progress 20) L104 s)
  | L104 => Some (call (load_model env) L106 s)
  | L106 => Some (store_at task_id (set_progress 1) L110 s)
  | L110 => Some (State (tasks s) L132 (T114 1) false)
  | L132 => Some (goto (L138 (separate env)) s)
  | L138 r => Some (State (tasks s) (L139 r) (tick s) true)
  | L139 r =>
      match tick s with
      | Finished =>
          Some (match r with
                | Ok output_files => goto (L142 output_files) s
                | Raise e => goto (L207 e) s
                end)
      | _ => None
      end
  | L142 output_files =>
      Some (if status_is task_id Cancelled s then goto Return s
            else goto (L153 output_files) s)
  | L153 _ =>
      Some (match finalize env with
            | Ok ex => store_at task_id (fun t => set_result (make_result pf task_id t ex) t)
                             L200 s
            | Raise e => goto (L207 e) s
            end)
  | L200 => Some (store_at task_id (set_status Completed) L201 s)
  | L201 => Some (store_at task_id (set_progress 100) Return s)
  | L207 e => Some (store_at task_id (set_status Failed) (L208 e) s)
  | L208 e => Some (store_at task_id (set_error (exn_str e)) Return s)
  | Return => None
  end.

(** One statement of [simulate_progress]. *)
Definition tick_step (task_id : string) (s : state) : option state :=
  let next t := State (tasks s) (at_ s) t (stop_progress s) in
  match tick s with
  | NotStarted => None
  | T114 current =>
      Some (if stop_progress s then next Finished else next (T115 current))
  | T115 current =>
      Some (if stop_progress s then next Finished else next (T118 current))
  | T118 current =>
      Some (if current <? 95 then next (T123 (current + 1)) else next (T123 current))
  | T123 current =>
      Some (if status_is task_id Processing s && negb (stop_progress s)
            then next (T124 current) else next (T114 current))
  | T124 current =>
      Some (State (alter (set_progress current) task_id (tasks s))
                  (at_ s) (T114 current) (stop_progress s))
  | Finished => None
  end.

Definition step (pf : platform) (env : run_env) (task_id : string)
  (ev : event) (s : state) : option state :=
  match ev with
  | Run => run_step pf env task_id s
  | Tick => tick_step task_id s
  | Cancel id =>
      match cancel_task id (tasks s) with
      | Ok tasks' => Some (State tasks' (at_ s) (tick s) (stop_progress s))
      | Raise _ => None
      end
  end.

Fixpoint exec (pf : platform) (env : run_env) (task_id : string)
  (evs : list event) (s : state) : option state :=
  match evs with
  | [] => Some s
  | ev :: rest =>
      match step pf env task_id ev s with
      | Some s' => exec pf env task_id rest s'
      | None => None
      end
  end.

(** The state in which [separate_audio] leaves the system: the record is in
    the table and the runner thread is about to execute line 75. *)
Definition submitted (tasks0 : gmap string task) (task_id ext file_filename : string)
  : state :=
  State (<[task_id := new_task task_id ext file_filename]> tasks0) L75 NotStarted false.

(** What a poll of [task_id] returns in state [s]. *)
Definition poll (task_id : string) (s : state) : option task :=
  tasks s !! task_id.

End Sep.

(** ** [main.py]: the stems of a separation and the paths of the analysis
    endpoints *)

Module Web.

Import PyStr.

(** *** Lines 150-161 of [run_separation_task]: which output file is taken
    for which stem *)

(** One round of the loop over [output_files]. *)
Definition pick (acc : option string * option string) (fname : string)
  : option string * option string :=
  if contains "Vocals" fname then (Some fname, snd acc)
  else if contains "Instrumental" fname then (fst acc, Some fname)
  else acc.

(** The names behind [vocals_path] and [instrumental_path] after the
    loop. *)
Definition identify_stems (output_files : list string)
  : option string * option string :=
  fold_left pick output_files (None, None).

(** *** [analyze_audio] and [clap_search]: from a web path to a file *)

(** [s.replace(old, new)] for a non-empty [old]: the occurrences of [old]
    are found from the left and do not overlap; [skip] characters of an
    occurrence are still to be passed over. *)
Fixpoint replace_from (skip : nat) (old new s : string) : string :=
  match s with
  | EmptyString => EmptyString
  | String c r =>
      match skip with
      | S k => replace_from k old new r
      | O =>
          if startswith s old
          then new +:+ replace_from (Nat.pred (String.length old)) old new r
          else String c (replace_from 0 old new r)
      end
  end.

Definition replace (old new s : string) : string := replace_from 0 old new s.

(** The two directories that the server serves. *)
Inductive root := UPLOAD_DIR | OUTPUT_DIR.

(** A [Path] (POSIX flavour): the components below one of the two
    directories, or the path written [text] and the components below
    it. *)
Inductive fs_path :=
| Under (r : root) (components : list string)
| Other (text : string) (components : list string).

(** The components of a relative path: empty ones and single dots are
    dropped, double dots are kept. *)
Definition parts (rel : string) : list string :=
  filter (fun x => Is_true (negb (is_empty x || String.eqb x ".")))
         (Sep.split_on "/" rel).

(** [base / rel]: an absolute [rel] replaces [base]. *)
Definition div (base : fs_path) (rel : string) : fs_path :=
  if startswith rel "/" then Other rel []
  else match base with
       | Under r cs => Under r (cs ++ parts rel)
       | Other t cs => Other t (cs ++ parts rel)
       end.

(** [SEPARATION_DIR = OUTPUT_DIR / "separated"] *)
Definition SEPARATION_DIR : fs_path := div (Under OUTPUT_DIR []) "separated".

(** Line 220: the extension kept from the name of the uploaded file. *)
Definition upload_ext (file_filename : string) : string :=
  if is_empty (Sep.path_suffix file_filename) then ".mp3"
  else Sep.path_suffix file_filename.

(** Line 221: where [separate_audio] writes the upload. *)
Definition input_path (task_id ext : string) : fs_path :=
  div (Under UPLOAD_DIR []) (task_id +:+ ext).

(** Lines 83 and 164-165: where the runner leaves the two stems. *)
Definition final_vocals_path (task_id : string) : fs_path :=
  div (div SEPARATION_DIR task_id) "vocals.wav".

Definition final_instrumental_path (task_id : string) : fs_path :=
  div (div SEPARATION_DIR task_id) "instrumental.wav".

(** Lines 271-278 and 311-318: the file that a web path stands for. *)
Definition resolve (web_path : string) : fs_path :=
  if startswith web_path "/uploads/"
  then div (Under UPLOAD_DIR []) (replace "/uploads/" EmptyString web_path)
  else if startswith web_path "/outputs/"
  then div (Under OUTPUT_DIR []) (replace "/outputs/" EmptyString web_path)
  else Other web_path [].

(** The answer of an endpoint: the payload, or the status and detail of
    the [HTTPException]. *)
Inductive answer (A : Type) :=
| Served (a : A)
| Refused (status_code : Z) (detail : string).
Arguments Served {A} a.
Arguments Refused {A} status_code detail.

(** The file system and the analysis service as an endpoint sees them: a
    service returns its payload or, with [success] false, its [error]. *)
Record service_env (A : Type) := ServiceEnv {
  exists_ : fs_path -> bool;
  str_of_path : fs_path -> string;
  service : fs_path -> A + string
}.
Arguments exists_ {A} s.
Arguments str_of_path {A} s.
Arguments service {A} s.

(** [analyze_audio], and [clap_search] with its own service. *)
Definition analyze_audio {A} (env : service_env A) (web_path : string) : answer A :=
  let fs_path := resolve web_path in
  if negb (exists_ env fs_path)
  then Refused 404 ("File not found: " +:+ str_of_path env fs_path)
  else match service env fs_path with
       | inl result => Served result
       | inr e => Refused 500 e
       end.

End Web.

(** ** Python list primitives *)

Module PyList.

(** [len(range(0, stop, step))] for a step that is not zero *)
Definition range_len (stop step : Z) : nat :=
  if 0 <? step then Z.to_nat ((stop + step - 1) / step)
  else Z.to_nat ((stop + step + 1) / step).

(** [range(0, stop, step)] *)
Definition range (stop step : Z) : res (list Z) :=
  if step =? 0 then Raise (Exn "ValueError" "range() arg 3 must not be zero")
  else Ok (map (fun i => Z.of_nat i * step) (seq 0 (range_len stop step))).

(** [l[:k]]: a negative [k] counts from the end. *)
Definition prefix {A} (k : Z) (l : list A) : list A :=
  if 0 <=? k then firstn (Z.to_nat k) l
  else firstn (length l - Z.to_nat (- k)) l.

(** [l.sort(key=key, reverse=True)] for keys that are numbers: the sort is
    stable, so among equal keys the order of [l] is kept. *)
Fixpoint insert_desc {A} (key : A -> Z) (x : A) (l : list A) : list A :=
  match l with
  | [] => [x]
  | y :: r => if key x <? key y then y :: insert_desc key x r else x :: l
  end.

Definition sort_desc {A} (key : A -> Z) (l : list A) : list A :=
  fold_right (insert_desc key) [] l.

(** [enumerate(l)] with the index counted from 1 *)
Definition ranked {A} (l : list A) : list (Z * A) :=
  imap (fun i x => (Z.of_nat i + 1, x)) l.

End PyList.

(** ** [clap_service.py]: the lazily loaded model and the search *)

Module Clap.

(** *** [get_clap_model]

    The two globals of the module.  The endpoints are coroutines that call
    into the service without awaiting, so the calls of [get_clap_model]
    follow one another. *)
Record globals (model : Type) := Globals {
  _clap_model : option model;
  _model_loading : bool
}.
Arguments Globals {model} _ _.
Arguments _clap_model {model} g.
Arguments _model_loading {model} g.

(** What lines 30-33 do when they are reached: the import or the
    constructor raises; the constructor returns a model and [load_ckpt]
    raises; or both succeed. *)
Inductive attempt (model : Type) :=
| NotBuilt (e : exn)
| NotLoaded (m : model) (e : exn)
| Loaded (m : model).
Arguments NotBuilt {model} e.
Arguments NotLoaded {model} m e.
Arguments Loaded {model} m.

Definition get_clap_model {model} (a : attempt model) (g : globals model)
  : option model * globals model :=
  match _clap_model g with
  | Some m => (Some m, g)
  | None =>
      if _model_loading g then (None, g)
      else match a with
           | NotBuilt _ => (None, Globals None false)
           | NotLoaded m _ => (None, Globals (Some m) false)
           | Loaded m => (Some m, Globals (Some m) true)
           end
  end.

(** The module as it is imported. *)
Definition imported {model} : globals model := Globals None false.

(** Calls that follow one another, each with what its attempt to load would
    do, and their answers. *)
Fixpoint calls {model} (attempts : list (attempt model)) (g : globals model)
  : list (option model) * globals model :=
  match attempts with
  | [] => ([], g)
  | a :: rest =>
      let '(r, g1) := get_clap_model a g in
      let '(rs, g2) := calls rest g1 in
      (r :: rs, g2)
  end.

(** *** [search_by_text]

    Times are kept as sample positions: [start] and [end] of a segment are
    its two positions divided by the sample rate.  A score is the rounded
    similarity counted in thousandths (a similarity that is not a number is
    not modelled), so that the bounds 0.3, 0.2 and 0.1 of
    [_score_to_label] are 300, 200 and 100. *)

(** The four labels, as the UTF-8 bytes of their text. *)
Definition _score_to_label (score : Z) : string :=
  if 300 <=? score then "非常に高いマッチ"
  else if 200 <=? score then "高いマッチ"
  else if 100 <=? score then "中程度のマッチ"
  else "低いマッチ".

(** An entry of [results] before and after lines 123-125. *)
Record scored := Scored { start : Z; end_ : Z; score : Z }.

Record hit := Hit { entry : scored; rank : Z; label : string }.

(** What the libraries do for one search: the number of samples that
    [librosa.load] returns, the embedding of the query, and the rounded
    similarity of the segment between two sample positions. *)
Record search_env := SearchEnv {
  load : res Z;
  text_embedding : res unit;
  similarity : Z -> Z -> res Z
}.

(** The answer: [error] with [success] false, or [results] with [success]
    true; the answer without segments has no [duration]. *)
Inductive response :=
| Unsuccessful (error : string)
| Successful (results : list hit) (with_duration : bool).

(** Lines 81-91. *)
Definition segments_of (n window_samples hop_samples : Z) : res (list (Z * Z)) :=
  res_bind (PyList.range (n - window_samples) hop_samples) (fun starts =>
  Ok (map (fun start_sample => (start_sample, start_sample + window_samples)) starts)).

(** Lines 100-116. *)
Fixpoint score_all (env : search_env) (segments : list (Z * Z)) : res (list scored) :=
  match segments with
  | [] => Ok []
  | (s, e) :: rest =>
      res_bind (similarity env s e) (fun v =>
      res_bind (score_all env rest) (fun results =>
      Ok (Scored s e v :: results)))
  end.

(** [search_by_text], with [window_samples] and [hop_samples] the values of
    lines 78 and 79. *)
Definition search_by_text {model} (m : option model) (env : search_env)
  (window_samples hop_samples top_k : Z) : response :=
  match m with
  | None => Unsuccessful "CLAP model not available"
  | Some _ =>
      match
        res_bind (load env) (fun n =>
        res_bind (segments_of n window_samples hop_samples) (fun segments =>
        match segments with
        | [] => Ok (Successful [] false)
        | _ :: _ =>
            res_bind (text_embedding env) (fun _ =>
            res_bind (score_all env segments) (fun results =>
            let results := PyList.sort_desc score results in
            let top_results := PyList.prefix top_k results in
            Ok (Successful (map (fun ir => Hit (snd ir) (fst ir)
                                          (_score_to_label (score (snd ir))))
                           (PyList.ranked top_results))
                      true)))
        end))
      with
      | Ok answer => answer
      | Raise e => Unsuccessful (exn_str e)
      end
  end.

End Clap.

(** ** [audio_analysis.py]: the peak segments *)

Module Analysis.

(** A region of frames: the frames from [first] up to, not including,
    [upto]; its end time is the time of the frame [end_at].  The [start]
    and [end] of the segment are the times of [first] and [end_at]. *)
Record region := Region { first : nat; end_at : nat; upto : nat }.

(** What the array operations give: the frames at or above the threshold
    (lines 137-146, which raise on an empty array), whether the time from
    one frame to another reaches [min_duration], and the rounded mean
    intensity of the frames of a region, counted in hundredths. *)
Record peaks_env := PeaksEnv {
  above_threshold : res (list bool);
  long_enough : nat -> nat -> bool;
  intensity : nat -> nat -> Z
}.

(** Lines 165-172 and 178-185: the region is kept when it lasts long
    enough. *)
Definition close (env : peaks_env) (start_idx end_idx upto_ : nat)
  (segments : list region) : list region :=
  if long_enough env start_idx end_idx
  then segments ++ [Region start_idx end_idx upto_]
  else segments.

(** The loop of lines 153-172 from frame [i] on. *)
Fixpoint scan (env : peaks_env) (i : nat) (above_threshold : list bool)
  (in_segment : bool) (start_idx : nat) (segments : list region)
  : bool * nat * list region :=
  match above_threshold with
  | [] => (in_segment, start_idx, segments)
  | above :: rest =>
      if above && negb in_segment
      then scan env (S i) rest true i segments
      else if negb above && in_segment
      then scan env (S i) rest false start_idx (close env start_idx i i segments)
      else scan env (S i) rest in_segment start_idx segments
  end.

(** Lines 149-185: the regions found, in the order of the frames. *)
Definition regions (env : peaks_env) (above_threshold : list bool) : list region :=
  let '(in_segment, start_idx, segments) := scan env 0 above_threshold false 0 [] in
  if in_segment
  then close env start_idx (length above_threshold - 1) (length above_threshold) segments
  else segments.

(** [_detect_peak_segments]: an exception gives no segments. *)
Definition _detect_peak_segments (env : peaks_env) (max_segments : Z) : list region :=
  match above_threshold env with
  | Raise _ => []
  | Ok above =>
      PyList.prefix max_segments
        (PyList.sort_desc (fun r => intensity env (first r) (upto r))
                          (regions env above))
  end.

(** *** [_detect_key]

    The correlations are numbers of numpy; [gt a b] is their [a > b]. *)

Definition key_names : list string :=
  ["C"; "C#"; "D"; "D#"; "E"; "F"; "F#"; "G"; "G#"; "A"; "A#"; "B"].

(** One round of the loop of lines 97-109, with the name of the key and
    the two correlations of the round. *)
Definition key_round {V} (gt : V -> V -> bool) (st : V * string)
  (round : string * (V * V)) : V * string :=
  let '(name, (major_corr, minor_corr)) := round in
  let st := if gt major_corr (fst st) then (major_corr, name +:+ " major") else st in
  if gt minor_corr (fst st) then (minor_corr, name +:+ " minor") else st.

(** [_detect_key]: [corr] holds the correlations with the major and the
    minor profile for each of the twelve rotations, unless an array
    operation raises. *)
Definition _detect_key {V} (gt : V -> V -> bool) (minus_one : V)
  (corr : res (list (V * V))) : string :=
  match corr with
  | Raise _ => "Unknown"
  | Ok cs => snd (fold_left (key_round gt) (combine key_names cs)
                            (minus_one, "C major"))
  end.

End Analysis.

(** ** Notions used in the statements *)

Module Notions.

Import PyStr.

(** [m] occurs in [s]. *)
Definition substring (m s : string) : Prop :=
  exists pre post, s = pre +:+ m +:+ post.

(** The marker that goes with a vocal type; other vocal types have none. *)
Definition vocal_marker (vocal_type : string) : option string :=
  if String.eqb vocal_type "none" then Some "instrumental"
  else if String.eqb vocal_type "male" then Some "male vocals"
  else if String.eqb vocal_type "female" then Some "female vocals"
  else None.



(** Floats that are not negative numbers. *)
Definition not_negative (x : spec_float) : Prop :=
  match x with
  | S754_finite true _ _ => False
  | _ => True
  end.

(** Every character of [s] satisfies [p]. *)
Definition all_chars (p : ascii -> bool) (s : string) : Prop :=
  forall c, In c (list_ascii_of_string s) -> p c = true.



(** A triple for the runner monad: from a record that satisfies [P], every
    store of [m] is a step allowed by [T], a normal end satisfies [Q] and
    an exceptional end [E]. *)
Definition hoare {A} (P : Yue.job -> Prop) (m : Yue.M A)
  (T : Yue.job -> Yue.job -> Prop) (Q : A -> Yue.job -> Prop)
  (E : exn -> Yue.job -> Prop) : Prop :=
  forall w, P (Yue.w_job w) ->
    Forall (fun ab => T (fst ab) (snd ab)) (snd (m w))
    /\ match fst (fst (m w)) with
       | Ok a => Q a (Yue.w_job (snd (fst (m w))))
       | Raise e => E e (Yue.w_job (snd (fst (m w))))
       end.

(** What every store of a generation run respects. *)
Definition yue_step (a b : Yue.job) : Prop :=
  0 <= Yue.progress b <= 100
  /\ (Yue.status_of b = Yue.status_of a
      \/ (Yue.status_of a = Pending /\ Yue.status_of b = Processing)
      \/ (Yue.status_of a = Processing
          /\ (Yue.status_of b = Completed \/ Yue.status_of b = Failed)))
  /\ (Yue.error b <> None -> Yue.status_of b = Failed)
  /\ (Yue.progress b = 100 -> Yue.progress a <> 100 ->
      Yue.status_of a = Completed /\ b = Yue.set_progress 100 a)
  /\ (exists l, Yue.logs b = Yue.logs a ++ l).

(** The record of a generation job while its process is being prepared or
    read. *)
Definition yue_running (j : Yue.job) : Prop :=
  Yue.status_of j = Processing /\ 0 <= Yue.progress j <= 90 /\ Yue.error j = None.

(** The exceptions that the surroundings make a generation run raise. *)
Definition raised_in_run (env : Yue.run_env) (e : exn) : Prop :=
  (Yue.environ_PATH env = None /\ e = Exn "KeyError" "'PATH'")
  \/ (exists repo rev, Yue.snapshot_download env repo rev = Raise e)
  \/ (exists cmd, Yue.popen env cmd = Raise e)
  \/ (exists raw, raw ∈ Yue.stdout env /\ Yue.parse_progress (strip raw) = Raise e).

(** The normal end of the body: completed with progress 100, or failed
    with the exit code of the process in the message. *)
Definition body_outcome (env : Yue.run_env) (j : Yue.job) : Prop :=
  (Yue.status_of j = Completed /\ Yue.progress j = 100 /\ Yue.error j = None
   /\ Yue.returncode env = 0)
  \/ (Yue.status_of j = Failed /\ Yue.returncode env <> 0
      /\ Yue.error j = Some ("Process exited with code " +:+ str_of_int (Yue.returncode env))).

(** The record at the end of a generation run. *)
Definition yue_outcome (env : Yue.run_env) (j : Yue.job) : Prop :=
  (Yue.status_of j = Completed /\ Yue.progress j = 100 /\ Yue.error j = None
   /\ Yue.returncode env = 0)
  \/ (Yue.status_of j = Failed /\ Yue.returncode env <> 0
      /\ Yue.error j
         = Some ("Process exited with code " +:+ str_of_int (Yue.returncode env)))
  \/ (Yue.status_of j = Failed
      /\ exists e, raised_in_run env e /\ Yue.error j = Some (exn_str e)).

(** The job record as [start_generation_job] stores it. *)
Definition fresh_job (j : Yue.job) : Prop :=
  Yue.status_of j = Pending /\ Yue.progress j = 0 /\ Yue.error j = None.

(** *** Separation runs *)

(** The counter of the ticker thread while it is inside its loop. *)
Definition counter (tk : Sep.ticker) : option Z :=
  match tk with
  | Sep.T114 c | Sep.T115 c | Sep.T118 c | Sep.T123 c | Sep.T124 c => Some c
  | Sep.NotStarted | Sep.Finished => None
  end.

(** The counter of the ticker stays in 1..95 and is never behind the
    stored progress. *)
Definition current_ok (tk : Sep.ticker) (p : Z) : Prop :=
  match counter tk with
  | Some c => 1 <= c <= 95 /\ p <= c
  | None => True
  end.

(** Where the ticker thread and the stop event are, for each program point
    of the runner. *)
Definition threads_ok (pc : Sep.pc) (tk : Sep.ticker) (stop : bool) : Prop :=
  match pc with
  | Sep.L75 | Sep.L76 | Sep.L82 | Sep.L84 | Sep.L88 | Sep.L94 | Sep.L99
  | Sep.L104 | Sep.L106 | Sep.L110 => tk = Sep.NotStarted /\ stop = false
  | Sep.L132 | Sep.L138 _ => stop = false /\ counter tk <> None
  | Sep.L139 _ => stop = true /\ tk <> Sep.NotStarted
  | Sep.L142 _ | Sep.L153 _ | Sep.L200 | Sep.L201 =>
      stop = true /\ tk = Sep.Finished
  | Sep.L207 _ | Sep.L208 _ | Sep.Return =>
      (tk = Sep.NotStarted /\ stop = false) \/ (tk = Sep.Finished /\ stop = true)
  end.

(** A task record with status [a] or [b], progress in [lo..hi], and the
    keys [result] and [error] present as told. *)
Definition shaped (a b : status) (lo hi : Z) (has_result has_error : bool)
  (t : Sep.task) : Prop :=
  (Sep.status_of t = a \/ Sep.status_of t = b)
  /\ lo <= Sep.progress t <= hi
  /\ (if has_result then Sep.result t <> None else Sep.result t = None)
  /\ (if has_error then Sep.error t <> None else Sep.error t = None).

(** The task record at each program point of the runner. *)
Definition task_ok (pc : Sep.pc) (t : Sep.task) : Prop :=
  match pc with
  | Sep.L75 => shaped Queued Cancelled 0 0 false false t
  | Sep.L76 => shaped Processing Cancelled 0 0 false false t
  | Sep.L82 | Sep.L84 => shaped Processing Cancelled 5 5 false false t
  | Sep.L88 | Sep.L94 | Sep.L99 => shaped Processing Cancelled 10 10 false false t
  | Sep.L104 | Sep.L106 => shaped Processing Cancelled 20 20 false false t
  | Sep.L110 => shaped Processing Cancelled 1 1 false false t
  | Sep.L132 | Sep.L138 _ | Sep.L139 _ | Sep.L142 _ | Sep.L153 _ =>
      shaped Processing Cancelled 1 95 false false t
  | Sep.L207 _ => shaped Processing Cancelled 0 95 false false t
  | Sep.L200 => shaped Processing Cancelled 1 95 true false t
  | Sep.L201 => shaped Completed Cancelled 1 95 true false t
  | Sep.L208 _ => shaped Failed Cancelled 0 95 false false t
  | Sep.Return =>
      shaped Completed Cancelled 100 100 true false t
      \/ shaped Failed Cancelled 0 95 false true t
      \/ shaped Cancelled Cancelled 1 95 false false t
  end.

(** The invariant of a separation run of task [task_id]. *)
Definition sep_inv (task_id : string) (s : Sep.state) : Prop :=
  exists t, Sep.tasks s !! task_id = Some t
            /\ threads_ok (Sep.at_ s) (Sep.tick s) (Sep.stop_progress s)
            /\ current_ok (Sep.tick s) (Sep.progress t)
            /\ task_ok (Sep.at_ s) t.

(** The runner is past the store of line 106. *)
Definition past_reset (pc : Sep.pc) : bool :=
  match pc with
  | Sep.L75 | Sep.L76 | Sep.L82 | Sep.L84 | Sep.L88 | Sep.L94 | Sep.L99
  | Sep.L104 | Sep.L106 => false
  | _ => true
  end.

(** The status steps of the specification, with the initial status of
    either service. *)
Definition allowed (a b : status) : Prop :=
  a = b
  \/ ((a = Queued \/ a = Pending) /\ b = Processing)
  \/ (a = Processing /\ (b = Completed \/ b = Failed)).

Definition is_cancel (task_id : string) (ev : Sep.event) : bool :=
  match ev with
  | Sep.Cancel id => String.eqb id task_id
  | _ => false
  end.

(** No request cancels [task_id] in [evs]. *)
Definition cancel_free (task_id : string) (evs : list Sep.event) : Prop :=
  forall ev, ev ∈ evs -> is_cancel task_id ev = false.

(** The status at each program point when nothing cancels the task. *)
Definition status_at (pc : Sep.pc) (st : status) : Prop :=
  match pc with
  | Sep.L75 => st = Queued
  | Sep.L201 => st = Completed
  | Sep.L208 _ => st = Failed
  | Sep.Return => st = Completed \/ st = Failed
  | _ => st = Processing
  end.

(** What one statement of the runner does to the task record. *)
Definition run_effect (pf : Sep.platform) (env : Sep.run_env) (task_id : string)
  (p : Sep.pc) (t t' : Sep.task) : Prop :=
  match p with
  | Sep.L75 => t' = Sep.set_status Processing t
  | Sep.L76 => t' = Sep.set_progress 5 t
  | Sep.L84 => t' = Sep.set_progress 10 t
  | Sep.L99 => t' = Sep.set_progress 20 t
  | Sep.L106 => t' = Sep.set_progress 1 t
  | Sep.L153 _ =>
      match Sep.finalize env with
      | Ok ex => t' = Sep.set_result (Sep.make_result pf task_id t ex) t
      | Raise _ => t' = t
      end
  | Sep.L200 => t' = Sep.set_status Completed t
  | Sep.L201 => t' = Sep.set_progress 100 t
  | Sep.L207 _ => t' = Sep.set_status Failed t
  | Sep.L208 e => t' = Sep.set_error (exn_str e) t
  | _ => t' = t
  end.

(** What one step does to the record of [task_id]. *)
Definition effect (pf : Sep.platform) (env : Sep.run_env) (task_id : string)
  (ev : Sep.event) (s : Sep.state) (t t' : Sep.task) : Prop :=
  match ev with
  | Sep.Run => run_effect pf env task_id (Sep.at_ s) t t'
  | Sep.Tick =>
      match Sep.tick s with
      | Sep.T124 c => t' = Sep.set_progress c t
      | _ => t' = t
      end
  | Sep.Cancel id =>
      t' = if String.eqb id task_id then Sep.set_status Cancelled t else t
  end.

(** The runner is past the join of the ticker thread: at the check of line
    142, at the stores of the result and of the terminal status and
    progress, in the handler, or done. *)
Definition after_join (p : Sep.pc) : bool :=
  match p with
  | Sep.L142 _ | Sep.L153 _ | Sep.L200 | Sep.L201
  | Sep.L207 _ | Sep.L208 _ | Sep.Return => true
  | _ => false
  end.


(** *** Sample runs *)

Definition demo_pf : Sep.platform :=
  Sep.Platform "/" "/srv/uploads" "/srv/outputs/separated".

(** Surroundings in which every call succeeds. *)
Definition demo_env : Sep.run_env :=
  Sep.RunEnv (Ok tt) (Ok tt) (Ok tt) (Ok tt)
             (Ok ["song_(Vocals).wav"; "song_(Instrumental).wav"])
             (Ok (true, true)).

(** Surroundings in which the separator fails on an assertion that has no
    message. *)
Definition failing_env : Sep.run_env :=
  Sep.RunEnv (Ok tt) (Ok tt) (Ok tt) (Ok tt)
             (Raise (Exn "AssertionError" EmptyString))
             (Ok (true, true)).

Definition demo_start : Sep.state := Sep.submitted ∅ "t1" ".mp3" "song.mp3".

(** The runner up to the start of the ticker, two rounds of the ticker, the
    separation call and the stop event, the end of the ticker, and the
    runner to its end. *)
Definition demo_run : list Sep.event :=
  repeat Sep.Run 10 ++ repeat Sep.Tick 12 ++ repeat Sep.Run 2
  ++ repeat Sep.Tick 3 ++ repeat Sep.Run 5.

(** The record of ["t1"] after the events [evs] of a sample run. *)
Definition demo_poll (env : Sep.run_env) (evs : list Sep.event) : option Sep.task :=
  match Sep.exec demo_pf env "t1" evs demo_start with
  | Some s => Sep.poll "t1" s
  | None => None
  end.




(** Surroundings of a sample submission of a generation job. *)
Definition demo_submit : Yue.submit_env :=
  Yue.SubmitEnv "j1" 0 (Ok tt) (Ok tt) (Ok tt).

(** *** Tables, paths and stems *)

(** A character of the text of a UUID. *)
Definition uuid_char (c : ascii) : bool :=
  isdigit c || in_range 97 102 c || Ascii.eqb c "-".

(** [s] is written with the characters of the text of a UUID. *)
Definition uuid_text (s : string) : Prop := all_chars uuid_char s.

(** Neither a dot nor a slash. *)
Definition ext_char (c : ascii) : bool :=
  negb (Ascii.eqb c "." || Ascii.eqb c "/").

(** The record that an event is addressed to. *)
Definition target (task_id : string) (ev : Sep.event) : string :=
  match ev with
  | Sep.Cancel id => id
  | _ => task_id
  end.

(** Every call that the runner makes succeeds. *)
Definition all_succeed (env : Sep.run_env) : Prop :=
  Sep.mkdir env = Ok tt /\ Sep.import_separator env = Ok tt
  /\ Sep.new_separator env = Ok tt /\ Sep.load_model env = Ok tt
  /\ (exists files, Sep.separate env = Ok files)
  /\ (exists ex, Sep.finalize env = Ok ex).

(** The runner is outside the handler, and holds the outcome of the
    separation call once it has made it. *)
Definition on_track (env : Sep.run_env) (p : Sep.pc) : Prop :=
  match p with
  | Sep.L207 _ | Sep.L208 _ => False
  | Sep.L138 r | Sep.L139 r => r = Sep.separate env
  | _ => True
  end.

(** The record keeps the stored web path of the upload, and a stored
    result is the one built from the outcome of the output check. *)
Definition result_built (pf : Sep.platform) (env : Sep.run_env)
  (task_id ext file_filename : string) (t : Sep.task) : Prop :=
  Sep.original_path t = "/uploads/" +:+ task_id +:+ ext
  /\ forall r, Sep.result t = Some r ->
       exists ex, Sep.finalize env = Ok ex
         /\ r = Sep.make_result pf task_id (Sep.new_task task_id ext file_filename) ex.

(** The name contains the word. *)
Definition has_word (word fname : string) : Prop := contains word fname = true.

(** *** The stores of a generation run *)

(** The stores [tr] lead from the record [j] to the record [j']: each
    starts from the record that the one before it left. *)
Fixpoint linked (j : Yue.job) (tr : list (Yue.job * Yue.job)) (j' : Yue.job) : Prop :=
  match tr with
  | [] => j' = j
  | ab :: rest => fst ab = j /\ linked (snd ab) rest j'
  end.

(** The stores of [m] are linked, from the record it starts with to the
    record it ends with. *)
Definition chained {A} (m : Yue.M A) : Prop :=
  forall w, linked (Yue.w_job w) (snd (m w)) (Yue.w_job (snd (fst (m w)))).

(** The logs of [b] begin with the logs of [a]. *)
Definition extends (a b : Yue.job) : Prop :=
  exists l, Yue.logs b = Yue.logs a ++ l.





(** Surroundings of a sample generation run: two lines of output, one of
    them blank, and the exit code 0. *)
Definition demo_yue_pf : Yue.platform :=
  Yue.Platform "/" "/srv/yue" "/srv/yue/venv/python" "/srv/yue/infer.py"
               "/srv/outputs" false true (fun _ => false).

Definition demo_yue_env : Yue.run_env :=
  Yue.RunEnv (Some "/usr/bin") (fun repo _ => Ok ("/models/" +:+ repo)) (fun _ => Ok tt)
             ["Starting stage 1 "; "   "] 0 ["song.mp3"].

(** *** The search *)

(** The keys go down along the list. *)
Definition descending {A} (key : A -> Z) (l : list A) : Prop :=
  StronglySorted (fun a b => key b <= key a) l.

(** Surroundings of a sample search: ten seconds of audio at 48 kHz, and a
    similarity that grows with the position. *)
Definition demo_search_env : Clap.search_env :=
  Clap.SearchEnv (Ok 480000) (Ok tt) (fun s _ => Ok (s / 1000)).

(** *** Peak segments *)

(** The frames from [a] up to, not including, [b] are a run of frames at
    or above the threshold that cannot be made longer. *)
Definition run_above (above : list bool) (a b : nat) : Prop :=
  (a < b <= length above)%nat
  /\ (forall k, (a <= k < b)%nat -> above !! k = Some true)
  /\ (a = 0%nat \/ above !! (a - 1)%nat = Some false)
  /\ (b = length above \/ above !! b = Some false).

(** The frame whose time ends a run: the frame after the run, or the last
    frame when the run reaches the end. *)
Definition end_frame (above : list bool) (b : nat) : nat :=
  if Nat.eqb b (length above) then (b - 1)%nat else b.

(** A region as the loop finds it. *)
Definition peak (env : Analysis.peaks_env) (above : list bool) (r : Analysis.region)
  : Prop :=
  run_above above (Analysis.first r) (Analysis.upto r)
  /\ Analysis.end_at r = end_frame above (Analysis.upto r)
  /\ Analysis.long_enough env (Analysis.first r) (Analysis.end_at r) = true.

(** A run of the frames read so far that has ended. *)
Definition closed_peak (env : Analysis.peaks_env) (pre : list bool)
  (r : Analysis.region) : Prop :=
  (Analysis.first r < Analysis.upto r)%nat
  /\ (forall k, (Analysis.first r <= k < Analysis.upto r)%nat -> pre !! k = Some true)
  /\ (Analysis.first r = 0%nat \/ pre !! (Analysis.first r - 1)%nat = Some false)
  /\ pre !! Analysis.upto r = Some false
  /\ Analysis.end_at r = Analysis.upto r
  /\ Analysis.long_enough env (Analysis.first r) (Analysis.end_at r) = true.

(** The regions follow one another without touching. *)
Definition apart (l : list Analysis.region) : Prop :=
  StronglySorted (fun r r' => (Analysis.upto r < Analysis.first r')%nat) l.

(** The state of the loop after the frames [pre]. *)
Definition scan_inv (env : Analysis.peaks_env) (pre : list bool)
  (in_segment : bool) (start_idx : nat) (segments : list Analysis.region) : Prop :=
  (if in_segment
   then (start_idx < length pre)%nat
        /\ (forall k, (start_idx <= k < length pre)%nat -> pre !! k = Some true)
        /\ (start_idx = 0%nat \/ pre !! (start_idx - 1)%nat = Some false)
   else pre = [] \/ pre !! (length pre - 1)%nat = Some false)
  /\ (forall r, r ∈ segments <-> closed_peak env pre r)
  /\ apart segments
  /\ (forall r, r ∈ segments ->
        (Analysis.upto r < length pre)%nat
        /\ (in_segment = true -> (Analysis.upto r < start_idx)%nat)).

(** Sample frames: one run of three frames in the middle, one at the
    end. *)
Definition demo_peaks : Analysis.peaks_env :=
  Analysis.PeaksEnv (Ok [false; true; true; true; false; true; true])
                    (fun _ _ => true)
                    (fun a _ => Z.of_nat a).

(** *** Key detection *)

(** The comparison of numbers: a strict order in which two numbers that
    are not comparable are equal.  It fails as soon as one of the numbers
    is not a number. *)
Definition strict_order {V} (gt : V -> V -> bool) : Prop :=
  (forall a, gt a a = false)
  /\ (forall a b c, gt a b = true -> gt b c = true -> gt a c = true)
  /\ (forall a b c, gt a b = true -> gt a c = true \/ gt c b = true).

(** The candidates in the order in which the loop looks at them: for each
    rotation the major key, then the minor key. *)
Definition candidates {V} (cs : list (V * V)) : list (V * string) :=
  flat_map (fun round : string * (V * V) =>
              [(fst (snd round), fst round +:+ " major");
               (snd (snd round), fst round +:+ " minor")])
           (combine Analysis.key_names cs).

(** The loop over the candidates, one comparison at a time. *)
Definition better {V} (gt : V -> V -> bool) (st c : V * string) : V * string :=
  if gt (fst c) (fst st) then c else st.

(** What the loop holds after the candidates [pre]: the start value while
    no candidate was above it, and else the first of the best
    candidates. *)
Definition best_so_far {V} (gt : V -> V -> bool) (start : V * string)
  (pre : list (V * string)) (st : V * string) : Prop :=
  (st = start /\ forall c, c ∈ pre -> gt (fst c) (fst start) = false)
  \/ (exists i : nat,
        pre !! i = Some st /\ gt (fst st) (fst start) = true
        /\ (forall c, c ∈ pre -> gt (fst c) (fst st) = false)
        /\ (forall (j : nat) c, (j < i)%nat -> pre !! j = Some c ->
              gt (fst st) (fst c) = true)).

End Notions.

(** * Properties *)

(** ** Strings *)

Module StrFacts.

Import PyStr Notions.

Lemma app_nil_l (s : string) : EmptyString +:+ s = s.
Proof. reflexivity. Qed.

Lemma app_cons (c : ascii) (a b : string) : String c a +:+ b = String c (a +:+ b).
Proof. reflexivity. Qed.

Lemma append_nil_r (s : string) : s +:+ EmptyString = s.
Proof.
  induction s as [|c r IH]; [reflexivity | now rewrite app_cons, IH].
Qed.

Lemma append_assoc (a b c : string) : (a +:+ b) +:+ c = a +:+ b +:+ c.
Proof.
  induction a as [|x a IH]; [reflexivity | now rewrite !app_cons, IH].
Qed.

Lemma startswith_spec (p s : string) :
  startswith s p = true <-> exists r, s = p +:+ r.
Proof.
  revert s. induction p as [|a p IH]; intros s; cbn [startswith].
  - split; [intros _; now exists s | intros _; reflexivity].
  - destruct s as [|b s].
    + split; [discriminate | intros [r Hr]; discriminate].
    + destruct (Ascii.eqb_spec a b) as [->|Hne].
      * rewrite IH. split; intros [r Hr]; exists r.
        -- now rewrite app_cons, Hr.
        -- rewrite app_cons in Hr. now injection Hr.
      * split; [discriminate |].
        intros [r Hr]; rewrite app_cons in Hr; injection Hr; congruence.
Qed.

Lemma startswith_app (t r : string) : startswith (t +:+ r) t = true.
Proof. apply startswith_spec. now exists r. Qed.

Lemma contains_here (m s : string) : startswith s m = true -> substring m s.
Proof.
  intros E. apply startswith_spec in E as [r Hr]. now exists EmptyString, r.
Qed.

Lemma contains_spec (m s : string) : contains m s = true <-> substring m s.
Proof.
  induction s as [|c s IH]; cbn [contains].
  - destruct (startswith EmptyString m) eqn:E.
    + split; [intros _; now apply contains_here | reflexivity].
    + split; [discriminate |].
      intros (pre & post & H). destruct pre; [|discriminate].
      rewrite app_nil_l in H. rewrite H, startswith_app in E. discriminate.
  - destruct (startswith (String c s) m) eqn:E.
    + split; [intros _; now apply contains_here | reflexivity].
    + rewrite IH. split.
      * intros (pre & post & H). exists (String c pre), post.
        now rewrite app_cons, H.
      * intros (pre & post & H). destruct pre as [|x pre].
        -- rewrite app_nil_l in H. rewrite H, startswith_app in E. discriminate.
        -- rewrite app_cons in H. injection H as _ H. now exists pre, post.
Qed.

Lemma contains_false (m s : string) : contains m s = false <-> ~ substring m s.
Proof.
  rewrite <- contains_spec. destruct (contains m s); split; congruence.
Qed.

Lemma map_chars_app (f : ascii -> ascii) (a b : string) :
  map_chars f (a +:+ b) = map_chars f a +:+ map_chars f b.
Proof.
  induction a as [|c a IH]; [reflexivity |].
  rewrite app_cons. cbn [map_chars]. now rewrite app_cons, IH.
Qed.

Lemma lower_app (a b : string) : lower (a +:+ b) = lower a +:+ lower b.
Proof. apply map_chars_app. Qed.

End StrFacts.

(** ** Vocal style *)

Module VocalFacts.

Import PyStr Notions StrFacts Yue.

Lemma marker_cases (vt marker : string) :
  vocal_marker vt = Some marker ->
  (vt = "none" /\ marker = "instrumental")
  \/ (vt = "male" /\ marker = "male vocals")
  \/ (vt = "female" /\ marker = "female vocals").
Proof.
  unfold vocal_marker.
  destruct (String.eqb_spec vt "none") as [->|_]; [intros [= <-]; auto |].
  destruct (String.eqb_spec vt "male") as [->|_]; [intros [= <-]; auto |].
  destruct (String.eqb_spec vt "female") as [->|_]; [intros [= <-]; auto |].
  discriminate.
Qed.

Lemma vocal_prefix_default (o : options) (genre_txt : string) :
  vocal_type o = None ->
  vocal_prefix o genre_txt
  = vocal_prefix (Options (Some "female") (quality o) (language o)
                          (stage2_model o) (segments o) (max_new_tokens o)
                          (title o)) genre_txt.
Proof. intros Hn. unfold vocal_prefix. cbn [vocal_type]. now rewrite Hn. Qed.

Lemma vocal_prefix_cases (o : options) (genre_txt marker : string) :
  vocal_marker (get (vocal_type o) "female") = Some marker ->
  vocal_prefix o genre_txt
  = if contains marker (lower genre_txt) then genre_txt
    else marker +:+ ", " +:+ genre_txt.
Proof.
  intros Hm. apply marker_cases in Hm. unfold vocal_prefix.
  destruct Hm as [[-> ->]|[[-> ->]|[-> ->]]]; cbn [String.eqb Ascii.eqb Bool.eqb].
  all: destruct (contains _ (lower genre_txt)); reflexivity.
Qed.

Lemma marker_lower (vt marker : string) :
  vocal_marker vt = Some marker -> lower (marker +:+ ", ") = marker +:+ ", ".
Proof.
  intros Hm. apply marker_cases in Hm.
  destruct Hm as [[_ ->]|[[_ ->]|[_ ->]]]; reflexivity.
Qed.

(** C9.  With the vocal type of the options (female when the key is
    missing) and its marker: a genre text that already contains the marker,
    compared in lower case, is kept as it is; any other genre text gets the
    marker and a comma in front; either way the marker occurs in the
    result, and a missing vocal type behaves as female. *)
Theorem vocal_prefix_marker (o : options) (genre_txt marker : string) :
  vocal_marker (get (vocal_type o) "female") = Some marker ->
  (substring marker (lower genre_txt) -> vocal_prefix o genre_txt = genre_txt)
  /\ (~ substring marker (lower genre_txt) ->
      vocal_prefix o genre_txt = marker +:+ ", " +:+ genre_txt)
  /\ substring marker (lower (vocal_prefix o genre_txt))
  /\ (vocal_type o = None ->
      vocal_prefix o genre_txt
      = vocal_prefix (Options (Some "female") (quality o) (language o)
                              (stage2_model o) (segments o) (max_new_tokens o)
                              (title o)) genre_txt).
Proof.
  intros Hm.
  split; [|split; [|split; [|apply vocal_prefix_default]]].
  - intros H. rewrite (vocal_prefix_cases _ _ _ Hm).
    apply contains_spec in H. now rewrite H.
  - intros H. rewrite (vocal_prefix_cases _ _ _ Hm).
    apply contains_false in H. now rewrite H.
  - rewrite (vocal_prefix_cases _ _ _ Hm).
    destruct (contains marker (lower genre_txt)) eqn:E.
    + now apply contains_spec.
    + rewrite <- append_assoc, lower_app, (marker_lower _ _ Hm), append_assoc.
      exists EmptyString. eexists. rewrite app_nil_l. reflexivity.
Qed.

Lemma vocal_prefix_marker_witness :
  vocal_prefix (Options (Some "male") None None None None None None) "Pop, Female Vocals"
  = "Pop, Female Vocals"
  /\ vocal_prefix no_options "rock" = "female vocals, rock".
Proof.
  split.
  - apply (proj1 (vocal_prefix_marker
                    (Options (Some "male") None None None None None None)
                    "Pop, Female Vocals" "male vocals" eq_refl)).
    apply contains_spec. reflexivity.
  - apply (proj1 (proj2 (vocal_prefix_marker no_options "rock" "female vocals"
                           eq_refl))).
    apply contains_false. reflexivity.
Defined.

End VocalFacts.

(** ** The rename pass *)

Module RenameFacts.

Import PyStr Notions StrFacts Yue.























End RenameFacts.

Module RenameClaim.

Import PyStr Notions StrFacts Yue RenameFacts.





End RenameClaim.

(** ** The progress parser *)

Module ParseFacts.

Import PyStr Notions StrFacts Yue.

Lemma forty_value : PyFloat.forty = S754_finite false 5629499534213120 (-47).
Proof. reflexivity. Qed.

Lemma round_aux_not_negative (mx ex : Z) (lx : location) :
  not_negative (binary_round_aux PyFloat.prec PyFloat.emax false mx ex lx).
Proof.
  unfold binary_round_aux.
  destruct (shr_fexp _ _ mx ex lx) as [mrs' e'].
  destruct (shr_fexp _ _ _ e' loc_Exact) as [mrs'' e''].
  destruct (shr_m mrs''); cbn; trivial.
  destruct (Z.leb _ _); cbn; trivial.
Qed.

Lemma true_div_not_negative (a b : Z) (q : spec_float) :
  PyFloat.true_div a b = Some q -> not_negative q.
Proof.
  unfold PyFloat.true_div. destruct a as [|pa|pa], b as [|pb|pb]; try discriminate.
  - intros [= <-]. exact I.
  - unfold SFdiv, PyFloat.of_pos_int.
    destruct (SFdiv_core_binary _ _ _ _ _ _) as [[mz ez] lz].
    pose proof (round_aux_not_negative mz ez lz) as H. cbn [xorb].
    destruct (binary_round_aux _ _ false mz ez lz); try discriminate;
      intros [= <-]; exact H.
Qed.

Lemma mul40_not_negative (q : spec_float) :
  not_negative q -> not_negative (PyFloat.mul40 q).
Proof.
  unfold PyFloat.mul40. rewrite forty_value.
  destruct q as [s|s| |s m e]; cbn [SFmul]; trivial.
  destruct s; [intros [] | intros _]. apply round_aux_not_negative.
Qed.

Lemma trunc_not_negative (x : spec_float) (n : Z) :
  not_negative x -> PyFloat.trunc x = Some n -> 0 <= n.
Proof.
  destruct x as [s|s| |s m e]; cbn; try discriminate.
  - intros _ [= <-]. lia.
  - destruct s; [intros [] | intros _ [= <-]].
    destruct e.
    + rewrite Z.shiftl_0_r. lia.
    + apply Z.shiftl_nonneg. lia.
    + apply Z.shiftr_nonneg. lia.
Qed.

(** [int((a / b) * 40)] is never negative. *)
Lemma scaled40_not_negative (a b n : Z) : scaled40 a b = Ok n -> 0 <= n.
Proof.
  unfold scaled40. destruct (b =? 0); [discriminate |].
  destruct (PyFloat.true_div a b) as [q|] eqn:Hq; [|discriminate].
  destruct (PyFloat.trunc (PyFloat.mul40 q)) as [m|] eqn:Hm; [|discriminate].
  intros [= <-]. eapply trunc_not_negative; [|eassumption].
  apply mul40_not_negative. eapply true_div_not_negative; eassumption.
Qed.

Lemma scaled40_zero_total (a : Z) :
  scaled40 a 0 = Raise (Exn "ZeroDivisionError" "division by zero").
Proof. reflexivity. Qed.

(** *** The searches *)











(** The stored value lies between the first and the last milestone. *)
Lemma parse_progress_range (line : string) (v : Z) :
  parse_progress line = Ok (Some v) -> 10 <= v <= 90.
Proof.
  unfold parse_progress.
  destruct (token_search line) as [[g1 g2]|].
  - destruct (_ || _ || _).
    + destruct (seg_search line) as [[s1 s2]|]; [|discriminate].
      destruct (scaled40 _ _) as [n|e] eqn:Hn; cbn [res_bind]; [|discriminate].
      apply scaled40_not_negative in Hn. intros [= <-]. lia.
    + destruct (scaled40 _ _) as [n|e] eqn:Hn; cbn [res_bind]; [|discriminate].
      apply scaled40_not_negative in Hn. intros [= <-]. lia.
  - repeat (destruct (contains _ _); cbn [orb]; try (intros [= <-]; lia)).
    all: discriminate.
Qed.

End ParseFacts.

Module ParseClaim.

Import PyStr Notions StrFacts Yue ParseFacts.





End ParseClaim.

(** ** Generation runs *)

Module RunFacts.

Import PyStr Notions StrFacts Yue ParseFacts.

Section Rules.

Context {A B : Type}.
Variable T : job -> job -> Prop.

Lemma hoare_ret (P : job -> Prop) (a : A) (Q : A -> job -> Prop)
  (E : exn -> job -> Prop) :
  (forall j, P j -> Q a j) -> hoare P (ret a) T Q E.
Proof. intros H w Hw. cbn. auto. Qed.

Lemma hoare_bind (P : job -> Prop) (m : M A) (k : A -> M B)
  (Q1 : A -> job -> Prop) (Q : B -> job -> Prop) (E : exn -> job -> Prop) :
  hoare P m T Q1 E -> (forall a, hoare (Q1 a) (k a) T Q E) ->
  hoare P (bind m k) T Q E.
Proof.
  intros Hm Hk w Hw. specialize (Hm w Hw). unfold bind.
  destruct (m w) as [[[a|e] w1] t1]; cbn in Hm |- *; [|exact Hm].
  destruct Hm as [Ht1 Hq]. specialize (Hk a w1 Hq).
  destruct (k a w1) as [[r w2] t2]; cbn in Hk |- *.
  destruct Hk as [Ht2 Hr]. split; [|exact Hr].
  apply Forall_app. auto.
Qed.

Lemma hoare_lift (P : job -> Prop) (r : res A) (Q : A -> job -> Prop)
  (E : exn -> job -> Prop) :
  (forall j, P j -> match r with Ok a => Q a j | Raise e => E e j end) ->
  hoare P (lift r) T Q E.
Proof. intros H w Hw. split; [constructor | exact (H _ Hw)]. Qed.

Lemma hoare_try (P : job -> Prop) (body : M A) (handler : exn -> M A)
  (Q : A -> job -> Prop) (E1 E : exn -> job -> Prop) :
  hoare P body T Q E1 -> (forall e, hoare (E1 e) (handler e) T Q E) ->
  hoare P (try_except body handler) T Q E.
Proof.
  intros Hb Hh w Hw. specialize (Hb w Hw). unfold try_except.
  destruct (body w) as [[[a|e] w1] t1]; cbn in Hb |- *; [exact Hb |].
  destruct Hb as [Ht1 He]. specialize (Hh e w1 He).
  destruct (handler e w1) as [[r w2] t2]; cbn in Hh |- *.
  destruct Hh as [Ht2 Hr]. split; [|exact Hr].
  apply Forall_app. auto.
Qed.

Lemma hoare_weaken (P P' : job -> Prop) (m : M A) (Q Q' : A -> job -> Prop)
  (E E' : exn -> job -> Prop) :
  hoare P' m T Q' E' ->
  (forall j, P j -> P' j) -> (forall a j, Q' a j -> Q a j) ->
  (forall e j, E' e j -> E e j) ->
  hoare P m T Q E.
Proof.
  intros H HP HQ HE w Hw. destruct (H w (HP _ Hw)) as [Ht Hr].
  split; [exact Ht |]. destruct (fst (fst (m w))); auto.
Qed.

End Rules.

Section Steps.

Context {B : Type}.
Variable T : job -> job -> Prop.

Lemma hoare_store (P : job -> Prop) (f : job -> job) (Q : unit -> job -> Prop)
  (E : exn -> job -> Prop) :
  (forall j, P j -> T j (f j) /\ Q tt (f j)) -> hoare P (store f) T Q E.
Proof.
  intros H w Hw. destruct (H _ Hw) as [Ht Hq]. cbn. split; [|exact Hq].
  constructor; [exact Ht | constructor].
Qed.

(** A store that keeps the invariant, followed by the rest. *)
Lemma hoare_store_then (P P' : job -> Prop) (f : job -> job) (k : unit -> M B)
  (Q : B -> job -> Prop) (E : exn -> job -> Prop) :
  (forall j, P j -> T j (f j) /\ P' (f j)) ->
  hoare P' (k tt) T Q E ->
  hoare P (bind (store f) k) T Q E.
Proof.
  intros Hf Hk. apply hoare_bind with (Q1 := fun _ => P').
  - now apply hoare_store.
  - intros []. exact Hk.
Qed.

(** A call, followed by the rest. *)
Lemma hoare_call_then {A} (P : job -> Prop) (r : res A) (k : A -> M B)
  (Q : B -> job -> Prop) (E : exn -> job -> Prop) :
  (forall e, r = Raise e -> forall j, P j -> E e j) ->
  (forall a, r = Ok a -> hoare P (k a) T Q E) ->
  hoare P (bind (lift r) k) T Q E.
Proof.
  intros He Hk w Hw. destruct r as [a|e].
  - specialize (Hk a eq_refl w Hw). unfold bind, lift.
    destruct (k a w) as [[r w2] t2]. exact Hk.
  - split; [constructor | exact (He e eq_refl _ Hw)].
Qed.

(** A step that leaves the record alone, followed by the rest. *)
Lemma hoare_quiet_then {A} (P : job -> Prop) (m : M A) (a : A) (k : A -> M B)
  (Q : B -> job -> Prop) (E : exn -> job -> Prop) :
  (forall w, exists w', m w = (Ok a, w', []) /\ w_job w' = w_job w) ->
  hoare P (k a) T Q E ->
  hoare P (bind m k) T Q E.
Proof.
  intros Hm Hk w Hw. destruct (Hm w) as (w' & Hmw & Hj).
  unfold bind. rewrite Hmw. rewrite <- Hj in Hw. specialize (Hk w' Hw).
  destruct (k a w') as [[r w2] t2]. exact Hk.
Qed.

(** A loop whose body keeps the invariant. *)
Lemma hoare_for_each {A} (I : job -> Prop) (body : A -> M unit) (l : list A)
  (E : exn -> job -> Prop) :
  (forall x, x ∈ l -> hoare I (body x) T (fun _ => I) E) ->
  hoare I (for_each body l) T (fun _ => I) E.
Proof.
  induction l as [|x l IH]; intros H; cbn [for_each].
  - apply hoare_ret. auto.
  - apply hoare_bind with (Q1 := fun _ => I).
    + apply H. now apply elem_of_cons; left.
    + intros _. apply IH. intros y Hy. apply H. now apply elem_of_cons; right.
Qed.

End Steps.

(** *** The stores of [_run_yue_process] *)

Ltac step_tac :=
  unfold yue_step; cbn;
  repeat match goal with
         | |- _ /\ _ => split
         | |- _ -> _ => intro
         end;
  subst; auto; try lia; try congruence;
  try (eexists; symmetry; apply app_nil_r).

Lemma step_append_log (l : string) (j : job) :
  0 <= progress j <= 100 -> (error j <> None -> status_of j = Failed) ->
  yue_step j (append_log l j).
Proof. step_tac. now exists [l]. Qed.

Lemma step_set_progress (v : Z) (j : job) :
  0 <= v <= 100 -> (v = 100 -> status_of j = Completed) ->
  (error j <> None -> status_of j = Failed) ->
  yue_step j (set_progress v j).
Proof. step_tac. Qed.

Lemma step_set_status (v : status) (j : job) :
  0 <= progress j <= 100 ->
  (status_of j = Pending /\ v = Processing)
  \/ (status_of j = Processing /\ (v = Completed \/ v = Failed)) ->
  (error j <> None -> v = Failed) ->
  yue_step j (set_status v j).
Proof. step_tac. Qed.

Lemma step_set_error (m : string) (j : job) :
  0 <= progress j <= 100 -> status_of j = Failed -> yue_step j (set_error m j).
Proof. step_tac. Qed.

Lemma running_log (l : string) (j : job) :
  yue_running j -> yue_step j (append_log l j) /\ yue_running (append_log l j).
Proof.
  intros (Hs & Hp & He). split; [|now repeat split].
  apply step_append_log; [lia | congruence].
Qed.

Lemma running_progress (v : Z) (j : job) :
  0 <= v <= 90 -> yue_running j ->
  yue_step j (set_progress v j) /\ yue_running (set_progress v j).
Proof.
  intros Hv (Hs & Hp & He). split; [|now repeat split].
  apply step_set_progress; [lia | lia | congruence].
Qed.

(** One output line: the record stays in the running phase, and an
    exception is one of the parser's. *)
Lemma handle_line_hoare (env : run_env) (raw : string) :
  raw ∈ stdout env ->
  hoare yue_running (handle_line raw) yue_step (fun _ => yue_running)
        (fun e j => yue_running j /\ raised_in_run env e).
Proof.
  intros Hin. unfold handle_line.
  destruct (is_empty (strip raw)); [apply hoare_ret; auto |].
  eapply hoare_store_then; [intros j Hj; now apply running_log |].
  apply hoare_bind with (Q1 := fun p j => yue_running j
                                 /\ parse_progress (strip raw) = Ok p).
  - apply hoare_lift. intros j Hj.
    destruct (parse_progress (strip raw)) as [p|e] eqn:Hp; [auto |].
    split; [assumption |]. right. right. right. eauto.
  - intros [v|].
    + apply hoare_store. intros j [Hj Hp]. apply running_progress; [|assumption].
      apply parse_progress_range in Hp. lia.
    + apply hoare_ret. now intros j [Hj _].
Qed.

Lemma process_wait_quiet (env : run_env) (w : world) :
  exists w', process_wait env w = (Ok (returncode env), w', []) /\ w_job w' = w_job w.
Proof. eexists. split; reflexivity. Qed.

Lemma rename_files_quiet (pf : platform) (o : options) (w : world) :
  exists w', rename_files pf o w = (Ok tt, w', []) /\ w_job w' = w_job w.
Proof. eexists. split; reflexivity. Qed.

Lemma run_body_hoare (pf : platform) (env : run_env)
  (job_dir genre_file lyrics_file : string) (o : options) :
  hoare yue_running (run_body pf env job_dir genre_file lyrics_file o) yue_step
        (fun _ => body_outcome env)
        (fun e j => yue_running j /\ raised_in_run env e).
Proof.
  unfold run_body.
  apply hoare_call_then.
  { intros e He j Hj. split; [assumption |]. left.
    destruct (environ_PATH env); [discriminate |]. now injection He as <-. }
  intros _ _. cbv beta zeta.
  eapply hoare_store_then; [intros j Hj; now apply running_log |].
  eapply hoare_store_then; [intros j Hj; now apply running_log |].
  eapply hoare_store_then; [intros j Hj; apply running_progress; [lia | assumption] |].
  apply hoare_call_then.
  { intros e He j Hj. split; [assumption |]. right. left. eauto. }
  intros stage1_model_path _.
  eapply hoare_store_then; [intros j Hj; now apply running_log |].
  eapply hoare_store_then; [intros j Hj; apply running_progress; [lia | assumption] |].
  eapply hoare_store_then; [intros j Hj; now apply running_log |].
  apply hoare_call_then.
  { intros e He j Hj. split; [assumption |]. right. left. eauto. }
  intros stage2_model_path _.
  eapply hoare_store_then; [intros j Hj; now apply running_log |].
  eapply hoare_store_then; [intros j Hj; apply running_progress; [lia | assumption] |].
  eapply hoare_store_then; [intros j Hj; now apply running_log |].
  apply hoare_call_then.
  { intros e He j Hj. split; [assumption |]. right. right. left. eauto. }
  intros _ _.
  apply hoare_bind with (Q1 := fun _ => yue_running).
  { apply hoare_for_each. intros raw Hraw. now apply handle_line_hoare. }
  intros _.
  eapply hoare_quiet_then; [apply process_wait_quiet |].
  destruct (returncode env =? 0) eqn:Hrc.
  - apply Z.eqb_eq in Hrc.
    eapply hoare_store_then with
      (P' := fun j => status_of j = Completed /\ 0 <= progress j <= 90
                      /\ error j = None).
    { intros j (Hs & Hp & He). split; [|now repeat split].
      apply step_set_status; [lia | auto | congruence]. }
    eapply hoare_store_then with
      (P' := fun j => status_of j = Completed /\ progress j = 100 /\ error j = None).
    { intros j (Hs & Hp & He). split; [|now repeat split].
      apply step_set_progress; [lia | auto | congruence]. }
    eapply hoare_quiet_then; [apply rename_files_quiet |].
    apply hoare_store. intros j (Hs & Hp & He). split.
    + apply step_append_log; [lia | congruence].
    + left. now repeat split.
  - apply Z.eqb_neq in Hrc.
    eapply hoare_store_then with
      (P' := fun j => status_of j = Failed /\ 0 <= progress j <= 90).
    { intros j (Hs & Hp & He). split; [|now repeat split].
      apply step_set_status; [lia | auto | congruence]. }
    eapply hoare_store_then with
      (P' := fun j => status_of j = Failed /\ 0 <= progress j <= 90
                      /\ error j = Some ("Process exited with code "
                                          +:+ str_of_int (returncode env))).
    { intros j (Hs & Hp). split; [|now repeat split].
      apply step_set_error; [lia | assumption]. }
    apply hoare_store. intros j (Hs & Hp & He). split.
    + apply step_append_log; [lia | auto].
    + right. now repeat split.
Qed.

Lemma hoare_pure {A} (R : Prop) (P : job -> Prop) (m : M A)
  (T : job -> job -> Prop) (Q : A -> job -> Prop) (E : exn -> job -> Prop) :
  (R -> hoare P m T Q E) -> hoare (fun j => P j /\ R) m T Q E.
Proof. intros H w [Hp Hr]. exact (H Hr w Hp). Qed.

Lemma run_handler_hoare (env : run_env) (e : exn) :
  raised_in_run env e ->
  hoare yue_running (run_handler e) yue_step
        (fun _ => yue_outcome env) (fun _ _ => False).
Proof.
  intros Hraised. unfold run_handler.
  eapply hoare_store_then with
    (P' := fun j => status_of j = Failed /\ 0 <= progress j <= 90).
  { intros j (Hs & Hp & He). split; [|now repeat split].
    apply step_set_status; [lia | auto | congruence]. }
  eapply hoare_store_then with
    (P' := fun j => status_of j = Failed /\ 0 <= progress j <= 90
                    /\ error j = Some (exn_str e)).
  { intros j (Hs & Hp). split; [|now repeat split].
    apply step_set_error; [lia | assumption]. }
  apply hoare_store. intros j (Hs & Hp & He). split.
  + apply step_append_log; [lia | auto].
  + right. right. split; [assumption |]. now exists e.
Qed.

Lemma run_hoare (pf : platform) (env : run_env)
  (job_dir genre_file lyrics_file : string) (o : options) :
  hoare fresh_job (_run_yue_process pf env job_dir genre_file lyrics_file o)
        yue_step (fun _ => yue_outcome env) (fun _ _ => False).
Proof.
  unfold _run_yue_process.
  eapply hoare_store_then with (P' := yue_running).
  { intros j (Hs & Hp & He). split; [|repeat split; cbn; auto; lia].
    apply step_set_status; [lia | auto | congruence]. }
  eapply hoare_try.
  - eapply hoare_weaken; [apply run_body_hoare | auto | | intros e j H; exact H].
    intros _ j [H|H]; [now left | now right; left].
  - intros e. apply hoare_pure. apply run_handler_hoare.
Qed.

Lemma new_job_fresh (job_id : string) (now : Z) : fresh_job (new_job job_id now).
Proof. now repeat split. Qed.

(** Every store of a run is an allowed step. *)
Lemma run_trace_steps (pf : platform) (env : run_env)
  (job_dir genre_file lyrics_file : string) (o : options) (job_id : string) (now : Z)
  (a b : job) :
  (a, b) ∈ run_trace pf env job_dir genre_file lyrics_file o job_id now ->
  yue_step a b.
Proof.
  intros Hin.
  destruct (run_hoare pf env job_dir genre_file lyrics_file o
              (World (new_job job_id now) []) (new_job_fresh _ _)) as [Ht _].
  rewrite Forall_forall in Ht. apply (Ht (a, b)). exact Hin.
Qed.


End RunFacts.

(** ** Separation runs *)

Module SepFacts.

Import PyStr Notions Sep.

Lemma status_eqb_spec (a b : status) : status_eqb a b = true <-> a = b.
Proof. destruct a, b; cbn; split; congruence. Qed.

Lemma status_is_spec (task_id : string) (v : status) (s : state) (t : task) :
  tasks s !! task_id = Some t ->
  status_is task_id v s = true <-> status_of t = v.
Proof. intros H. unfold status_is. rewrite H. apply status_eqb_spec. Qed.

Ltac shape_tac :=
  unfold shaped in *; cbn in *;
  repeat match goal with
         | H : _ /\ _ |- _ => destruct H
         end;
  repeat split; auto; try lia; try congruence; try tauto.

Lemma cancel_lookup (id task_id : string) (tbl tbl' : gmap string task) (t : task) :
  cancel_task id tbl = Ok tbl' -> tbl !! task_id = Some t ->
  tbl' !! task_id = Some (if String.eqb id task_id then set_status Cancelled t else t).
Proof.
  unfold cancel_task. destruct (tbl !! id) eqn:E; [|discriminate].
  intros [= <-] Ht. destruct (String.eqb_spec id task_id) as [->|Hne].
  - now rewrite lookup_alter_eq, Ht.
  - now rewrite lookup_alter_ne.
Qed.

Lemma shaped_cancel (lo hi : Z) (st : status) (r e : bool) (t : task) :
  shaped st Cancelled lo hi r e t -> shaped st Cancelled lo hi r e (set_status Cancelled t).
Proof. intros H. shape_tac. Qed.

Lemma task_ok_cancel (p : pc) (t : task) :
  task_ok p t -> task_ok p (set_status Cancelled t).
Proof.
  destruct p; cbn [task_ok]; try apply shaped_cancel.
  intros [H|[H|H]]; [left | right; left | right; right];
    now apply shaped_cancel.
Qed.

Ltac inv_tac :=
  unfold current_ok, shaped in *; cbn in *;
  repeat match goal with
         | H : _ /\ _ |- _ => destruct H
         | H : exists _, _ |- _ => destruct H
         end;
  subst; cbn in *;
  repeat split; intros;
  repeat match goal with
         | H : _ \/ _ |- _ => destruct H
         | H : _ /\ _ |- _ => destruct H
         end;
  subst; cbn in *; try discriminate; try assumption;
  try lia; try congruence; eauto 8;
  try (intros ->; cbn in *; congruence);
  try solve [left; repeat split; auto; try lia; congruence
            | right; left; repeat split; auto; try lia; congruence
            | right; right; repeat split; auto; try lia; congruence].

(** The runner's statements keep the invariant. *)
Lemma run_step_inv (pf : platform) (env : run_env) (task_id : string) (s s' : state) :
  sep_inv task_id s -> run_step pf env task_id s = Some s' -> sep_inv task_id s'.
Proof.
  intros (t & Ht & Hth & Hcur & Htask).
  destruct s as [tbl p tk stop]. cbn in Ht, Hth, Hcur, Htask.
  unfold run_step. cbn [at_ tick].
  destruct p; unfold call, store_at, goto, status_is;
    cbn [tasks at_ tick stop_progress]; rewrite ?Ht.
  all: repeat match goal with
              | |- context [match ?x with _ => _ end] =>
                  match x with
                  | status_eqb _ _ => destruct x eqn:Hst
                  | _ => destruct x eqn:?
                  end
              end.
  all: try discriminate.
  all: intros [= <-]; unfold sep_inv; cbn [tasks at_ tick stop_progress];
    rewrite ?lookup_alter_eq, Ht; eexists; (split; [reflexivity |]).
  all: try (apply status_eqb_spec in Hst).
  all: cbn [threads_ok task_ok] in *; inv_tac.
Qed.

(** The ticker's statements keep the invariant. *)
Lemma tick_step_inv (task_id : string) (s s' : state) :
  sep_inv task_id s -> tick_step task_id s = Some s' -> sep_inv task_id s'.
Proof.
  intros (t & Ht & Hth & Hcur & Htask).
  destruct s as [tbl p tk stop]. cbn in Ht, Hth, Hcur, Htask.
  unfold tick_step, status_is. cbn [tasks at_ tick stop_progress]. rewrite ?Ht.
  destruct tk; try discriminate.
  all: repeat match goal with
              | |- context [match ?x with _ => _ end] => destruct x eqn:?
              | |- context [if ?x then _ else _] => destruct x eqn:?
              end.
  all: intros [= <-]; unfold sep_inv; cbn [tasks at_ tick stop_progress];
    rewrite ?lookup_alter_eq, Ht; eexists; (split; [reflexivity |]).
  all: destruct p; cbn [threads_ok task_ok] in *; inv_tac.
Qed.

(** A cancel request keeps the invariant. *)
Lemma cancel_inv (task_id id : string) (s : state) (tbl' : gmap string task) :
  sep_inv task_id s -> cancel_task id (tasks s) = Ok tbl' ->
  sep_inv task_id (State tbl' (at_ s) (tick s) (stop_progress s)).
Proof.
  intros (t & Ht & Hth & Hcur & Htask) Hc.
  pose proof (cancel_lookup id task_id _ _ _ Hc Ht) as Hl.
  unfold sep_inv. cbn [tasks at_ tick stop_progress]. rewrite Hl.
  destruct (String.eqb id task_id); eexists; (split; [reflexivity |]); auto.
  repeat split; auto. now apply task_ok_cancel.
Qed.

Lemma step_inv (pf : platform) (env : run_env) (task_id : string)
  (ev : event) (s s' : state) :
  sep_inv task_id s -> step pf env task_id ev s = Some s' -> sep_inv task_id s'.
Proof.
  intros Hinv. destruct ev as [| |id]; cbn [step].
  - now apply run_step_inv.
  - now apply tick_step_inv.
  - destruct (cancel_task id (tasks s)) as [tbl'|e] eqn:Hc; [|discriminate].
    intros [= <-]. now apply cancel_inv with id.
Qed.

Lemma exec_inv (pf : platform) (env : run_env) (task_id : string)
  (evs : list event) (s s' : state) :
  sep_inv task_id s -> exec pf env task_id evs s = Some s' -> sep_inv task_id s'.
Proof.
  revert s. induction evs as [|ev evs IH]; intros s Hinv; cbn [exec].
  - now intros [= <-].
  - destruct (step pf env task_id ev s) as [s1|] eqn:Hs; [|discriminate].
    apply IH. eapply step_inv; eassumption.
Qed.

Lemma submitted_inv (tasks0 : gmap string task) (task_id ext file_filename : string) :
  sep_inv task_id (submitted tasks0 task_id ext file_filename).
Proof.
  unfold sep_inv, submitted. cbn [tasks at_ tick stop_progress].
  rewrite lookup_insert_eq. eexists. split; [reflexivity |].
  cbn. unfold current_ok, shaped. cbn. repeat split; auto; lia.
Qed.

(** Every state of a run satisfies the invariant. *)
Lemma reachable_inv (pf : platform) (env : run_env) (tasks0 : gmap string task)
  (task_id ext file_filename : string) (evs : list event) (s : state) :
  exec pf env task_id evs (submitted tasks0 task_id ext file_filename) = Some s ->
  sep_inv task_id s.
Proof. apply exec_inv, submitted_inv. Qed.

Lemma exec_app (pf : platform) (env : run_env) (task_id : string)
  (evs1 evs2 : list event) (s : state) :
  exec pf env task_id (evs1 ++ evs2) s
  = match exec pf env task_id evs1 s with
    | Some s1 => exec pf env task_id evs2 s1
    | None => None
    end.
Proof.
  revert s. induction evs1 as [|ev evs1 IH]; intros s; cbn; [reflexivity |].
  destruct (step pf env task_id ev s); [apply IH | reflexivity].
Qed.

(** How a step changes the record of the task. *)
Lemma step_effect (pf : platform) (env : run_env) (task_id : string)
  (ev : event) (s s' : state) (t : task) :
  tasks s !! task_id = Some t -> step pf env task_id ev s = Some s' ->
  exists t', tasks s' !! task_id = Some t' /\ effect pf env task_id ev s t t'.
Proof.
  intros Ht. destruct s as [tbl p tk stop]. cbn in Ht.
  destruct ev as [| |id]; cbn [step effect at_ tick].
  - unfold run_step. cbn [at_ tick].
    destruct p; unfold call, store_at, goto, status_is;
      cbn [tasks at_ tick stop_progress run_effect]; rewrite ?Ht.
    all: repeat match goal with
                | |- context [match ?x with _ => _ end] => destruct x eqn:?
                end.
    all: try discriminate.
    all: intros [= <-]; cbn [tasks]; rewrite ?lookup_alter_eq, Ht;
      eexists; split; reflexivity.
  - unfold tick_step, status_is. cbn [tasks at_ tick stop_progress]. rewrite ?Ht.
    destruct tk; try discriminate.
    all: repeat match goal with
                | |- context [if ?x then _ else _] => destruct x eqn:?
                end.
    all: intros [= <-]; cbn [tasks]; rewrite ?lookup_alter_eq, ?Ht;
      eexists; split; reflexivity.
  - cbn [tasks]. destruct (cancel_task id tbl) as [tbl'|e] eqn:Hc; [|discriminate].
    intros [= <-]. cbn [tasks]. rewrite (cancel_lookup id task_id _ _ _ Hc Ht).
    eexists; split; reflexivity.
Qed.

(** Past the join no ticker statement is left, and the runner stays past
    the join. *)
Lemma after_join_quiet (task_id : string) (s : state) :
  sep_inv task_id s -> after_join (at_ s) = true ->
  (tick s = NotStarted \/ tick s = Finished)
  /\ (tick s = Finished -> stop_progress s = true)
  /\ tick_step task_id s = None.
Proof.
  intros (t & _ & Hth & _ & _) Hp. destruct s as [tbl p tk stop].
  cbn in *. unfold tick_step. cbn [tick].
  destruct p; try discriminate; cbn [threads_ok] in Hth.
  all: repeat match goal with
              | H : _ /\ _ |- _ => destruct H
              | H : _ \/ _ |- _ => destruct H
              end; subst; repeat split; auto; discriminate.
Qed.



Ltac effect_tac :=
  cbn in *; unfold current_ok, shaped in *; cbn in *;
  repeat match goal with
         | H : _ /\ _ |- _ => destruct H
         | H : exists _, _ |- _ => destruct H
         | H : match ?x with _ => _ end |- _ => destruct x eqn:?
         end;
  subst; cbn in *; auto; try lia; try congruence.

(** A step lowers the progress only at the store of line 106. *)
Lemma step_progress (pf : platform) (env : run_env) (task_id : string)
  (ev : event) (s s' : state) (t t' : task) :
  sep_inv task_id s -> step pf env task_id ev s = Some s' ->
  tasks s !! task_id = Some t -> tasks s' !! task_id = Some t' ->
  progress t <= progress t' \/ (ev = Run /\ at_ s = L106).
Proof.
  intros (t0 & Ht0 & Hth & Hcur & Htask) Hstep Ht Ht'.
  rewrite Ht in Ht0. injection Ht0 as <-.
  destruct (step_effect _ _ _ _ _ _ _ Ht Hstep) as (t1 & Ht1 & He).
  rewrite Ht' in Ht1. injection Ht1 as <-.
  destruct s as [tbl p tk stop]. destruct ev as [| |id]; cbn [effect at_ tick] in He.
  - destruct p; cbn [run_effect task_ok] in *; try (right; split; reflexivity);
      left; effect_tac; repeat match goal with H : _ \/ _ |- _ => destruct H end;
      effect_tac.
  - left. destruct tk; effect_tac.
  - left. destruct (String.eqb id task_id); subst; cbn; lia.
Qed.

(** The value 100 is stored by line 201 only. *)
Lemma step_to_100 (pf : platform) (env : run_env) (task_id : string)
  (ev : event) (s s' : state) (t t' : task) :
  sep_inv task_id s -> step pf env task_id ev s = Some s' ->
  tasks s !! task_id = Some t -> tasks s' !! task_id = Some t' ->
  progress t' = 100 -> progress t <> 100 -> ev = Run /\ at_ s = L201.
Proof.
  intros (t0 & Ht0 & Hth & Hcur & Htask) Hstep Ht Ht' H100 Hne.
  rewrite Ht in Ht0. injection Ht0 as <-.
  destruct (step_effect _ _ _ _ _ _ _ Ht Hstep) as (t1 & Ht1 & He).
  rewrite Ht' in Ht1. injection Ht1 as <-.
  destruct s as [tbl p tk stop]. destruct ev as [| |id]; cbn [effect at_ tick] in He.
  - destruct p; cbn [run_effect task_ok] in *; try (split; reflexivity);
      exfalso; effect_tac.
  - exfalso. destruct tk; effect_tac.
  - exfalso. destruct (String.eqb id task_id); subst; cbn in *; lia.
Qed.

Lemma past_reset_step (pf : platform) (env : run_env) (task_id : string)
  (ev : event) (s s' : state) :
  past_reset (at_ s) = true -> step pf env task_id ev s = Some s' ->
  past_reset (at_ s') = true.
Proof.
  intros Hp. destruct s as [tbl p tk stop]. cbn in Hp.
  destruct ev as [| |id]; cbn [step].
  - unfold run_step. cbn [at_ tick].
    destruct p; try discriminate; unfold call, store_at, goto;
      cbn [tasks at_ tick stop_progress].
    all: repeat match goal with
                | |- context [match ?x with _ => _ end] => destruct x eqn:?
                | |- context [if ?x then _ else _] => destruct x eqn:?
                end.
    all: try discriminate.
    all: intros [= <-]; reflexivity.
  - unfold tick_step. cbn [tick tasks at_ stop_progress].
    destruct tk; try discriminate.
    all: repeat match goal with
                | |- context [if ?x then _ else _] => destruct x eqn:?
                end.
    all: intros [= <-]; exact Hp.
  - cbn [tasks]. destruct (cancel_task id tbl); [|discriminate].
    intros [= <-]. exact Hp.
Qed.

Lemma inv_lookup (task_id : string) (s : state) :
  sep_inv task_id s -> exists t, tasks s !! task_id = Some t.
Proof. intros (t & Ht & _). eauto. Qed.

(** Past the reset of line 106 the progress never goes down. *)
Lemma exec_progress (pf : platform) (env : run_env) (task_id : string)
  (evs : list event) (s s' : state) (t t' : task) :
  sep_inv task_id s -> past_reset (at_ s) = true ->
  exec pf env task_id evs s = Some s' ->
  tasks s !! task_id = Some t -> tasks s' !! task_id = Some t' ->
  progress t <= progress t'.
Proof.
  revert s t. induction evs as [|ev evs IH]; intros s t Hinv Hp; cbn [exec].
  - intros [= <-] Ht Ht'. rewrite Ht in Ht'. injection Ht' as <-. lia.
  - destruct (step pf env task_id ev s) as [s1|] eqn:Hs; [|discriminate].
    intros Hrun Ht Ht'.
    pose proof (step_inv _ _ _ _ _ _ Hinv Hs) as Hinv1.
    destruct (inv_lookup _ _ Hinv1) as [t1 Ht1].
    pose proof (IH s1 t1 Hinv1 (past_reset_step _ _ _ _ _ _ Hp Hs) Hrun Ht1 Ht').
    destruct (step_progress _ _ _ _ _ _ _ _ Hinv Hs Ht Ht1) as [H1|[_ H1]]; [lia |].
    rewrite H1 in Hp. discriminate.
Qed.

(** Once the runner has returned only cancel requests are served, and
    they leave progress, result and error as they are. *)
Lemma exec_after_return (pf : platform) (env : run_env) (task_id : string)
  (evs : list event) (s s' : state) (t t' : task) :
  sep_inv task_id s -> at_ s = Return ->
  exec pf env task_id evs s = Some s' ->
  tasks s !! task_id = Some t -> tasks s' !! task_id = Some t' ->
  at_ s' = Return /\ progress t' = progress t /\ result t' = result t
  /\ error t' = error t
  /\ (status_of t' = status_of t \/ status_of t' = Cancelled).
Proof.
  revert s t. induction evs as [|ev evs IH]; intros s t Hinv Hp; cbn [exec].
  - intros [= <-] Ht Ht'. rewrite Ht in Ht'. injection Ht' as <-.
    repeat split; auto.
  - destruct (step pf env task_id ev s) as [s1|] eqn:Hs; [|discriminate].
    intros Hrun Ht Ht'.
    pose proof (step_inv _ _ _ _ _ _ Hinv Hs) as Hinv1.
    destruct (step_effect _ _ _ _ _ _ _ Ht Hs) as (t1 & Ht1 & He).
    assert (at_ s1 = Return /\ t1 = if is_cancel task_id ev
                                    then set_status Cancelled t else t) as [Hp1 E].
    { destruct ev as [| |id]; cbn [step] in Hs.
      - unfold run_step in Hs. rewrite Hp in Hs. discriminate.
      - assert (after_join (at_ s) = true) as Haj by now rewrite Hp.
        destruct (after_join_quiet _ _ Hinv Haj) as (_ & _ & Hq). congruence.
      - destruct (cancel_task id (tasks s)); [|discriminate].
        injection Hs as <-. split; [exact Hp | exact He]. }
    destruct (IH s1 t1 Hinv1 Hp1 Hrun Ht1 Ht') as (H1 & H2 & H3 & H4 & H5).
    subst t1. destruct (is_cancel task_id ev); cbn in *; repeat split; auto.
    destruct H5; auto.
Qed.

(** When nothing cancels the task, a step keeps the status that goes with
    the program point, and changes it as the state machine allows. *)
Lemma status_at_step (pf : platform) (env : run_env) (task_id : string)
  (ev : event) (s s' : state) (t : task) :
  tasks s !! task_id = Some t -> status_at (at_ s) (status_of t) ->
  is_cancel task_id ev = false -> step pf env task_id ev s = Some s' ->
  exists t', tasks s' !! task_id = Some t'
             /\ status_at (at_ s') (status_of t')
             /\ allowed (status_of t) (status_of t').
Proof.
  intros Ht Hst Hnc. destruct s as [tbl p tk stop]. cbn in Ht, Hst.
  destruct ev as [| |id]; cbn [step].
  - unfold run_step. cbn [at_ tick].
    destruct p; unfold call, store_at, goto, status_is;
      cbn [tasks at_ tick stop_progress]; rewrite ?Ht.
    all: repeat match goal with
                | |- context [match ?x with _ => _ end] =>
                    match x with
                    | status_eqb _ _ => destruct x eqn:Heq
                    | _ => destruct x eqn:?
                    end
                end.
    all: try discriminate.
    all: intros [= <-]; cbn [tasks at_]; rewrite ?lookup_alter_eq, Ht;
      eexists; (split; [reflexivity |]).
    all: try (apply status_eqb_spec in Heq).
    all: cbn [status_at] in *; unfold allowed; cbn; split; auto; try congruence.
    all: try (rewrite Hst; auto).
    all: destruct Hst as [-> | ->]; auto.
  - unfold tick_step, status_is. cbn [tasks at_ tick stop_progress]. rewrite ?Ht.
    destruct tk; try discriminate.
    all: repeat match goal with
                | |- context [if ?x then _ else _] => destruct x eqn:?
                end.
    all: intros [= <-]; cbn [tasks at_]; rewrite ?lookup_alter_eq, ?Ht;
      eexists; (split; [reflexivity |]); split; [exact Hst | now left].
  - cbn [tasks]. destruct (cancel_task id tbl) as [tbl'|e] eqn:Hc; [|discriminate].
    intros [= <-]. cbn [tasks at_]. rewrite (cancel_lookup id task_id _ _ _ Hc Ht).
    cbn in Hnc. rewrite Hnc. eexists. split; [reflexivity |].
    split; [exact Hst | now left].
Qed.

Lemma cancel_free_cons (task_id : string) (ev : event) (evs : list event) :
  cancel_free task_id (ev :: evs) ->
  is_cancel task_id ev = false /\ cancel_free task_id evs.
Proof.
  intros H. split; [apply H; now apply elem_of_cons; left |].
  intros e He. apply H. now apply elem_of_cons; right.
Qed.

Lemma exec_status_at (pf : platform) (env : run_env) (task_id : string)
  (evs : list event) (s s' : state) (t : task) :
  tasks s !! task_id = Some t -> status_at (at_ s) (status_of t) ->
  cancel_free task_id evs -> exec pf env task_id evs s = Some s' ->
  exists t', tasks s' !! task_id = Some t' /\ status_at (at_ s') (status_of t').
Proof.
  revert s t. induction evs as [|ev evs IH]; intros s t Ht Hst Hcf; cbn [exec].
  - intros [= <-]. eauto.
  - destruct (step pf env task_id ev s) as [s1|] eqn:Hs; [|discriminate].
    apply cancel_free_cons in Hcf as [Hev Hcf].
    destruct (status_at_step _ _ _ _ _ _ _ Ht Hst Hev Hs) as (t1 & Ht1 & Hst1 & _).
    now apply IH with t1.
Qed.

Lemma submitted_status_at (pf : platform) (env : run_env) (tasks0 : gmap string task)
  (task_id ext file_filename : string) (evs : list event) (s : state) :
  cancel_free task_id evs ->
  exec pf env task_id evs (submitted tasks0 task_id ext file_filename) = Some s ->
  exists t, tasks s !! task_id = Some t /\ status_at (at_ s) (status_of t).
Proof.
  intros Hcf. apply exec_status_at with (t := new_task task_id ext file_filename);
    [|reflexivity | exact Hcf].
  unfold submitted. cbn [tasks]. apply lookup_insert_eq.
Qed.

Lemma cancel_free_check (task_id : string) (evs : list event) :
  forallb (fun ev => negb (is_cancel task_id ev)) evs = true ->
  cancel_free task_id evs.
Proof.
  intros H ev Hin. rewrite forallb_forall in H.
  apply list_elem_of_In, H in Hin. now apply negb_true_iff in Hin.
Qed.

(** What a step does to the status. *)
Lemma step_status (pf : platform) (env : run_env) (task_id : string)
  (ev : event) (s s' : state) (t t' : task) :
  step pf env task_id ev s = Some s' ->
  tasks s !! task_id = Some t -> tasks s' !! task_id = Some t' ->
  status_of t' = status_of t
  \/ (ev = Run /\ at_ s = L75 /\ status_of t' = Processing)
  \/ (ev = Run /\ at_ s = L200 /\ status_of t' = Completed)
  \/ (ev = Run /\ (exists e, at_ s = L207 e) /\ status_of t' = Failed)
  \/ (ev = Cancel task_id /\ status_of t' = Cancelled).
Proof.
  intros Hstep Ht Ht'.
  destruct (step_effect _ _ _ _ _ _ _ Ht Hstep) as (t1 & Ht1 & He).
  rewrite Ht' in Ht1. injection Ht1 as <-.
  destruct s as [tbl p tk stop]. destruct ev as [| |id]; cbn [effect at_ tick] in He.
  - destruct p; cbn [run_effect] in He;
      try (destruct (finalize env)); subst; cbn; eauto 10.
  - destruct tk; subst; cbn; auto.
  - destruct (String.eqb_spec id task_id); subst; cbn; auto 10.
Qed.





End SepFacts.

(** ** Status, result and error *)

Module StatusClaims.

Import PyStr Notions Sep SepFacts.

(** C2, as stated, fails: in the sample run that starts with a cancel
    request the status is cancelled, then processing after line 75, then
    completed at the end of the run, and cancelled again after a second
    request. *)
Lemma status_machine_counterexample :
  option_map status_of (demo_poll demo_env [Cancel "t1"]) = Some Cancelled
  /\ option_map status_of (demo_poll demo_env [Cancel "t1"; Run]) = Some Processing
  /\ option_map status_of (demo_poll demo_env (Cancel "t1" :: demo_run))
     = Some Completed
  /\ option_map status_of (demo_poll demo_env (Cancel "t1" :: demo_run ++ [Cancel "t1"]))
     = Some Cancelled.
Proof. repeat split; vm_compute; reflexivity. Qed.

(** C2, amended.  In a separation run the runner stores processing at line
    75, completed at line 200 and failed at line 207, and a cancel request
    stores cancelled whatever the status is; no other step changes the
    status.  When no request cancels the task, the status is the one that
    goes with the program point -- queued, then processing, then completed
    or failed -- every step follows the state machine, and a terminal
    status is never changed.  When the status is cancelled at the check of
    line 142, the runner returns without a store and the task stays
    cancelled, without a result.  Every store of a generation run follows
    the state machine from pending. *)
Theorem status_machine_amended (pf : platform) (env : run_env)
  (tasks0 : gmap string task) (task_id ext file_filename : string)
  (evs : list event) (s : state) :
  exec pf env task_id evs (submitted tasks0 task_id ext file_filename) = Some s ->
  (forall ev s' t t', step pf env task_id ev s = Some s' ->
     poll task_id s = Some t -> poll task_id s' = Some t' ->
     status_of t' = status_of t
     \/ (ev = Run /\ at_ s = L75 /\ status_of t' = Processing)
     \/ (ev = Run /\ at_ s = L200 /\ status_of t' = Completed)
     \/ (ev = Run /\ (exists e, at_ s = L207 e) /\ status_of t' = Failed)
     \/ (ev = Cancel task_id /\ status_of t' = Cancelled))
  /\ (cancel_free task_id evs ->
      exists t, poll task_id s = Some t
                /\ status_at (at_ s) (status_of t)
                /\ forall ev s' t', is_cancel task_id ev = false ->
                     step pf env task_id ev s = Some s' ->
                     poll task_id s' = Some t' ->
                     allowed (status_of t) (status_of t')
                     /\ (terminal (status_of t) = true ->
                         status_of t' = status_of t))
  /\ (forall output_files t, at_ s = L142 output_files ->
        poll task_id s = Some t -> status_of t = Cancelled ->
        exists s1, step pf env task_id Run s = Some s1
                   /\ at_ s1 = Return /\ tasks s1 = tasks s
                   /\ forall evs' s2 t2, exec pf env task_id evs' s1 = Some s2 ->
                        poll task_id s2 = Some t2 ->
                        status_of t2 = Cancelled /\ result t2 = None)
  /\ (forall ypf yenv job_dir genre_file lyrics_file o job_id now a b,
        (a, b) ∈ Yue.run_trace ypf yenv job_dir genre_file lyrics_file o job_id now ->
        allowed (Yue.status_of a) (Yue.status_of b)).
Proof.
  intros Hrun. pose proof (reachable_inv _ _ _ _ _ _ _ _ Hrun) as Hinv.
  split; [|split; [|split]].
  - intros ev s' t t' Hs Ht Ht'. eapply step_status; eassumption.
  - intros Hcf.
    destruct (submitted_status_at _ _ _ _ _ _ _ _ Hcf Hrun) as (t & Ht & Hst).
    exists t. split; [exact Ht | split; [exact Hst |]].
    intros ev s' t' Hev Hs Ht'.
    destruct (status_at_step _ _ _ _ _ _ _ Ht Hst Hev Hs) as (t1 & Ht1 & _ & Hal).
    unfold poll in Ht'. rewrite Ht' in Ht1. injection Ht1 as <-.
    split; [exact Hal |]. intros Hterm.
    destruct Hal as [H|[[[H|H] _]|[H _]]]; [congruence | | |];
      rewrite H in Hterm; discriminate.
  - intros output_files t Hp Ht Hst.
    assert (step pf env task_id Run s = Some (goto Return s)) as Hs.
    { cbn [step]. unfold run_step. rewrite Hp.
      apply (status_is_spec _ Cancelled _ _ Ht) in Hst. now rewrite Hst. }
    exists (goto Return s). split; [exact Hs | split; [reflexivity |]].
    split; [reflexivity |].
    intros evs' s2 t2 He Ht2.
    pose proof (step_inv _ _ _ _ _ _ Hinv Hs) as Hinv1.
    destruct (exec_after_return _ _ _ _ _ _ t t2 Hinv1 eq_refl He Ht Ht2)
      as (_ & _ & Hr & _ & Hst2).
    split; [destruct Hst2; congruence |].
    rewrite Hr. destruct Hinv as (t0 & Ht0 & _ & _ & Htask).
    unfold poll in Ht. rewrite Ht in Ht0. injection Ht0 as <-.
    rewrite Hp in Htask. cbn in Htask. unfold shaped in Htask. tauto.
  - intros ypf yenv job_dir genre_file lyrics_file o job_id now a b Hin.
    apply RunFacts.run_trace_steps in Hin. destruct Hin as (_ & H & _).
    unfold allowed. destruct H as [H|[[H1 H2]|[H1 H2]]]; auto.
Qed.

Lemma status_machine_amended_witness :
  exists s t, exec demo_pf demo_env "t1" demo_run demo_start = Some s
              /\ poll "t1" s = Some t
              /\ status_at (at_ s) (status_of t).
Proof.
  destruct (exec demo_pf demo_env "t1" demo_run demo_start) as [s|] eqn:Hrun;
    [|vm_compute in Hrun; discriminate Hrun].
  destruct (proj1 (proj2 (status_machine_amended demo_pf demo_env ∅ "t1" ".mp3"
                            "song.mp3" demo_run s Hrun))
              (cancel_free_check "t1" demo_run eq_refl)) as (t & Ht & Hst & _).
  exists s, t. split; [reflexivity | split; assumption].
Defined.

(** C3, as stated, fails: in the sample run a poll between lines 192 and
    200 shows the status processing with the result stored; after a cancel
    request that follows the run the status is cancelled with the result
    still stored; and in the run whose separator fails a poll between
    lines 207 and 208 shows the status failed with no error stored. *)
Lemma result_error_counterexample :
  (exists t, demo_poll demo_env (firstn 30 demo_run) = Some t
             /\ status_of t = Processing /\ result t <> None)
  /\ (exists t, demo_poll demo_env (demo_run ++ [Cancel "t1"]) = Some t
                /\ status_of t = Cancelled /\ result t <> None)
  /\ (exists t, demo_poll failing_env (repeat Run 12 ++ [Tick; Run; Run]) = Some t
                /\ status_of t = Failed /\ error t = None).
Proof.
  split; [|split]; eexists; (split; [vm_compute; reflexivity |]);
    split; [reflexivity | discriminate | reflexivity | discriminate
           | reflexivity | reflexivity].
Qed.

(** C3, amended.  At every poll of a separation task: result and error are
    never both stored; the status completed comes with a result and no
    error; an error is stored only after the runner has returned, with the
    status failed, or cancelled by a later request; the status queued
    comes with neither; a result comes with the status processing (between
    lines 192 and 200), completed, or cancelled by a request; the status
    failed comes without a result.  When no request cancels the task, an
    error comes with the status failed and a result with the status
    processing or completed.  In a generation run an error is stored only
    with the status failed. *)
Theorem result_error_amended (pf : platform) (env : run_env)
  (tasks0 : gmap string task) (task_id ext file_filename : string)
  (evs : list event) (s : state) :
  exec pf env task_id evs (submitted tasks0 task_id ext file_filename) = Some s ->
  (exists t, poll task_id s = Some t
     /\ (result t <> None -> error t = None)
     /\ (status_of t = Completed -> result t <> None /\ error t = None)
     /\ (error t <> None ->
         (status_of t = Failed \/ status_of t = Cancelled) /\ at_ s = Return)
     /\ (status_of t = Queued -> result t = None /\ error t = None)
     /\ (result t <> None ->
         status_of t = Processing \/ status_of t = Completed
         \/ status_of t = Cancelled)
     /\ (status_of t = Failed -> result t = None)
     /\ (cancel_free task_id evs ->
         (error t <> None -> status_of t = Failed)
         /\ (result t <> None ->
             status_of t = Completed \/ (status_of t = Processing /\ at_ s = L200))))
  /\ (forall ypf yenv job_dir genre_file lyrics_file o job_id now a b,
        (a, b) ∈ Yue.run_trace ypf yenv job_dir genre_file lyrics_file o job_id now ->
        Yue.error b <> None -> Yue.status_of b = Failed).
Proof.
  intros Hrun. pose proof (reachable_inv _ _ _ _ _ _ _ _ Hrun) as Hinv. split.
  - destruct Hinv as (t & Ht & _ & _ & Htask). exists t. split; [exact Ht |].
    assert (cancel_free task_id evs -> status_at (at_ s) (status_of t)) as Hcf.
    { intros Hcf.
      destruct (submitted_status_at _ _ _ _ _ _ _ _ Hcf Hrun) as (t1 & Ht1 & Hst).
      rewrite Ht in Ht1. now injection Ht1 as <-. }
    destruct (at_ s); cbn [task_ok status_at] in Htask, Hcf; unfold shaped in Htask.
    all: repeat match goal with
                | H : _ /\ _ |- _ => destruct H
                | H : _ \/ _ |- _ => destruct H
                end.
    all: repeat split; intros; try congruence; auto.
    all: try (match goal with
              | Hc : cancel_free _ _ -> _, H : cancel_free _ _ |- _ =>
                  specialize (Hc H); repeat destruct Hc as [Hc|Hc]
              end); try congruence; auto.
  - intros ypf yenv job_dir genre_file lyrics_file o job_id now a b Hin.
    apply RunFacts.run_trace_steps in Hin. apply Hin.
Qed.

Lemma result_error_amended_witness :
  exists s t, exec demo_pf demo_env "t1" demo_run demo_start = Some s
              /\ poll "t1" s = Some t
              /\ (status_of t = Completed -> result t <> None /\ error t = None).
Proof.
  destruct (exec demo_pf demo_env "t1" demo_run demo_start) as [s|] eqn:Hrun;
    [|vm_compute in Hrun; discriminate Hrun].
  destruct (proj1 (result_error_amended demo_pf demo_env ∅ "t1" ".mp3"
                     "song.mp3" demo_run s Hrun)) as (t & Ht & _ & H & _).
  exists s, t. split; [reflexivity | split; assumption].
Defined.

End StatusClaims.

Module TickerClaim.

Import PyStr Notions Sep SepFacts.



End TickerClaim.

(** ** Progress *)

Module ProgressClaims.

Import PyStr Notions Sep SepFacts.

(** C1, as stated, fails: in the sample run the poll after the eighth
    statement of the runner shows progress 20 and the poll after the ninth,
    the store of line 106, shows progress 1. *)
Lemma progress_monotone_counterexample :
  option_map progress (demo_poll demo_env (repeat Run 8)) = Some 20
  /\ option_map progress (demo_poll demo_env (repeat Run 8 ++ [Run])) = Some 1.
Proof. split; vm_compute; reflexivity. Qed.

(** C1, amended.  The progress of a separation task is between 0 and 100 at
    every poll; a step lowers it only when the runner executes the store of
    line 106; from any state past that store it is never smaller at a later
    poll than at an earlier one, the final store of 100 included; and once
    the runner has returned it no longer changes.  Every store of a
    generation run leaves the progress between 0 and 100. *)
Theorem progress_amended (pf : platform) (env : run_env)
  (tasks0 : gmap string task) (task_id ext file_filename : string)
  (evs : list event) (s : state) :
  exec pf env task_id evs (submitted tasks0 task_id ext file_filename) = Some s ->
  (exists t, poll task_id s = Some t /\ 0 <= progress t <= 100)
  /\ (forall ev s' t t', step pf env task_id ev s = Some s' ->
        poll task_id s = Some t -> poll task_id s' = Some t' ->
        progress t <= progress t' \/ (ev = Run /\ at_ s = L106))
  /\ (forall evs' s' t t', past_reset (at_ s) = true ->
        exec pf env task_id evs' s = Some s' ->
        poll task_id s = Some t -> poll task_id s' = Some t' ->
        progress t <= progress t')
  /\ (forall evs' s' t t', at_ s = Return ->
        exec pf env task_id evs' s = Some s' ->
        poll task_id s = Some t -> poll task_id s' = Some t' ->
        progress t' = progress t)
  /\ (forall ypf yenv job_dir genre_file lyrics_file o job_id now a b,
        (a, b) ∈ Yue.run_trace ypf yenv job_dir genre_file lyrics_file o job_id now ->
        0 <= Yue.progress b <= 100).
Proof.
  intros Hrun. pose proof (reachable_inv _ _ _ _ _ _ _ _ Hrun) as Hinv.
  split; [|split; [|split; [|split]]].
  - destruct Hinv as (t & Ht & _ & _ & Htask). exists t. split; [exact Ht |].
    destruct (at_ s); cbn [task_ok] in Htask; unfold shaped in Htask;
      repeat match goal with
             | H : _ /\ _ |- _ => destruct H
             | H : _ \/ _ |- _ => destruct H
             end; lia.
  - intros ev s' t t' Hs Ht Ht'. eapply step_progress; eassumption.
  - intros evs' s' t t' Hp He Ht Ht'. eapply exec_progress; eassumption.
  - intros evs' s' t t' Hp He Ht Ht'.
    now destruct (exec_after_return _ _ _ _ _ _ _ _ Hinv Hp He Ht Ht')
      as (_ & H & _).
  - intros ypf yenv job_dir genre_file lyrics_file o job_id now a b Hin.
    apply RunFacts.run_trace_steps in Hin. apply Hin.
Qed.

Lemma progress_amended_witness :
  exists s t, exec demo_pf demo_env "t1" (repeat Run 10 ++ repeat Tick 12) demo_start
              = Some s
              /\ poll "t1" s = Some t /\ 0 <= progress t <= 100.
Proof.
  destruct (exec demo_pf demo_env "t1" (repeat Run 10 ++ repeat Tick 12) demo_start)
    as [s|] eqn:Hrun; [|vm_compute in Hrun; discriminate Hrun].
  destruct (proj1 (progress_amended demo_pf demo_env ∅ "t1" ".mp3" "song.mp3"
                     (repeat Run 10 ++ repeat Tick 12) s Hrun)) as (t & Ht & Hp).
  exists s, t. split; [reflexivity | split; assumption].
Defined.

(** C7.  A parsed output line stores at most 90; in a generation run the
    only store that brings the progress to 100 is the one that follows the
    store of the status completed; in a separation run the only step that
    brings it to 100 is the runner's store of line 201; the counter that
    the ticker stores stays between 1 and 95 and grows by one a round until
    it is 95. *)
Theorem progress_100_only_on_completion (pf : platform) (env : run_env)
  (tasks0 : gmap string task) (task_id ext file_filename : string)
  (evs : list event) (s : state) :
  exec pf env task_id evs (submitted tasks0 task_id ext file_filename) = Some s ->
  (forall ev s' t t', step pf env task_id ev s = Some s' ->
     poll task_id s = Some t -> poll task_id s' = Some t' ->
     progress t' = 100 -> progress t <> 100 -> ev = Run /\ at_ s = L201)
  /\ (forall c, counter (tick s) = Some c -> 1 <= c <= 95)
  /\ (forall c s', tick s = T118 c -> step pf env task_id Tick s = Some s' ->
        tick s' = T123 (Z.min (c + 1) 95))
  /\ (forall c s' t', tick s = T124 c -> step pf env task_id Tick s = Some s' ->
        poll task_id s' = Some t' -> progress t' = c /\ c < 100)
  /\ (forall line v, Yue.parse_progress line = Ok (Some v) -> v <= 90)
  /\ (forall ypf yenv job_dir genre_file lyrics_file o job_id now a b,
        (a, b) ∈ Yue.run_trace ypf yenv job_dir genre_file lyrics_file o job_id now ->
        Yue.progress b = 100 -> Yue.progress a <> 100 ->
        Yue.status_of a = Completed /\ b = Yue.set_progress 100 a).
Proof.
  intros Hrun. pose proof (reachable_inv _ _ _ _ _ _ _ _ Hrun) as Hinv.
  assert (forall c, counter (tick s) = Some c -> 1 <= c <= 95) as Hc.
  { intros c Hc. destruct Hinv as (t & _ & _ & Hcur & _).
    unfold current_ok in Hcur. rewrite Hc in Hcur. tauto. }
  split; [|split; [exact Hc |split; [|split; [|split]]]].
  - intros ev s' t t' Hs Ht Ht'. eapply step_to_100; eassumption.
  - intros c s' Ht Hs. specialize (Hc c). rewrite Ht in Hc.
    specialize (Hc eq_refl). cbn [step] in Hs. unfold tick_step in Hs.
    rewrite Ht in Hs. destruct (Z.ltb_spec c 95); injection Hs as <-; cbn;
      f_equal; lia.
  - intros c s' t' Ht Hs Ht'. specialize (Hc c). rewrite Ht in Hc.
    specialize (Hc eq_refl). cbn [step] in Hs. unfold tick_step in Hs.
    rewrite Ht in Hs. injection Hs as <-. unfold poll in Ht'. cbn [tasks] in Ht'.
    rewrite lookup_alter_eq in Ht'. destruct Hinv as (t & Hl & _).
    rewrite Hl in Ht'. injection Ht' as <-. cbn. lia.
  - intros line v Hv. apply ParseFacts.parse_progress_range in Hv. lia.
  - intros ypf yenv job_dir genre_file lyrics_file o job_id now a b Hin.
    apply RunFacts.run_trace_steps in Hin. apply Hin.
Qed.

Lemma progress_100_only_on_completion_witness :
  exists s, exec demo_pf demo_env "t1" (repeat Run 10 ++ repeat Tick 2) demo_start
            = Some s
            /\ tick s = T118 1
            /\ forall s', step demo_pf demo_env "t1" Tick s = Some s' ->
                          tick s' = T123 2.
Proof.
  destruct (exec demo_pf demo_env "t1" (repeat Run 10 ++ repeat Tick 2) demo_start)
    as [s|] eqn:Hrun; [|vm_compute in Hrun; discriminate Hrun].
  pose proof (progress_100_only_on_completion demo_pf demo_env ∅ "t1" ".mp3"
                "song.mp3" (repeat Run 10 ++ repeat Tick 2) s Hrun)
    as (_ & _ & H & _).
  vm_compute in Hrun. injection Hrun as <-.
  eexists. split; [reflexivity | split; [reflexivity |]].
  intros s' Hs. exact (H 1 s' eq_refl Hs).
Defined.

End ProgressClaims.

(** ** Failures *)

Module FailureClaims.

Import PyStr Notions Sep SepFacts.




End FailureClaims.

(** ** Submission *)

Module SubmitClaims.

Import PyStr Notions.

(** C6, as stated, fails: the record that [start_generation_job] stores
    has the status pending, not queued. *)
Lemma submission_counterexample :
  exists jobs genre_txt,
    Yue.start_generation_job demo_submit "rock" "la la la" None ∅
    = Ok (jobs, "j1", genre_txt)
    /\ option_map Yue.status_of (jobs !! "j1") = Some Pending.
Proof. eexists _, _. split; [reflexivity |]. vm_compute. reflexivity. Qed.

(** C6, amended.  A submission whose file operations succeed stores, under
    the id that uuid4 returned, a record with progress 0 and neither result
    nor error -- with the status queued and no logs key for a separation
    task, with the status pending and empty logs for a generation job --
    and returns that id; the other records are untouched, the table grows
    by one when the id is new, and the separation run starts from that
    table at line 75. *)
Theorem submission_amended :
  (forall ue file_filename (tasks : gmap string Sep.task),
     Sep.copyfileobj ue = Ok tt ->
     exists tasks' ext t,
       Sep.separate_audio ue file_filename tasks = Ok (tasks', Sep.uuid4 ue)
       /\ tasks' !! Sep.uuid4 ue = Some t
       /\ Sep.status_of t = Queued /\ Sep.progress t = 0
       /\ Sep.result t = None /\ Sep.error t = None
       /\ Sep.filename t = file_filename
       /\ (forall id, id <> Sep.uuid4 ue -> tasks' !! id = tasks !! id)
       /\ (tasks !! Sep.uuid4 ue = None -> size tasks' = S (size tasks))
       /\ Sep.submitted tasks (Sep.uuid4 ue) ext file_filename
          = Sep.State tasks' Sep.L75 Sep.NotStarted false)
  /\ (forall se genre_txt lyrics_txt o (jobs : gmap string Yue.job),
        Yue.makedirs se = Ok tt -> Yue.write_genre se = Ok tt ->
        Yue.write_lyrics se = Ok tt ->
        exists jobs' written j,
          Yue.start_generation_job se genre_txt lyrics_txt o jobs
          = Ok (jobs', Yue.uuid4 se, written)
          /\ jobs' !! Yue.uuid4 se = Some j
          /\ Yue.id j = Yue.uuid4 se
          /\ Yue.status_of j = Pending /\ Yue.progress j = 0
          /\ Yue.logs j = [] /\ Yue.error j = None
          /\ (forall id, id <> Yue.uuid4 se -> jobs' !! id = jobs !! id)
          /\ (jobs !! Yue.uuid4 se = None -> size jobs' = S (size jobs))).
Proof.
  split.
  - intros ue file_filename tasks Hc. unfold Sep.separate_audio. rewrite Hc.
    eexists _, _, _. split; [reflexivity |].
    split; [apply lookup_insert_eq |]. cbn.
    repeat split.
    + intros id Hne. now apply lookup_insert_ne.
    + intros Hnew. now apply map_size_insert_None.
  - intros se genre_txt lyrics_txt o jobs H1 H2 H3.
    unfold Yue.start_generation_job. rewrite H1, H2, H3. cbn [res_bind].
    eexists _, _, _. split; [reflexivity |].
    split; [apply lookup_insert_eq |]. cbn.
    repeat split.
    + intros id Hne. now apply lookup_insert_ne.
    + intros Hnew. now apply map_size_insert_None.
Qed.

Lemma submission_amended_witness :
  exists tasks' ext t,
    Sep.separate_audio (Sep.UploadEnv "t1" (Ok tt)) "song.mp3" ∅ = Ok (tasks', "t1")
    /\ tasks' !! "t1" = Some t /\ Sep.status_of t = Queued /\ Sep.progress t = 0
    /\ Sep.submitted ∅ "t1" ext "song.mp3" = demo_start.
Proof.
  destruct (proj1 submission_amended (Sep.UploadEnv "t1" (Ok tt)) "song.mp3" ∅ eq_refl)
    as (tasks' & ext & t & H1 & H2 & H3 & H4 & _).
  exists tasks', ".mp3", t. repeat split; assumption || reflexivity.
Defined.

End SubmitClaims.

(** ** The task table under the endpoints and a run *)

Module TableFacts.

Import PyStr Notions Sep.

Lemma alter_known (f : task -> task) (id : string) (tbl : gmap string task) (t : task) :
  tbl !! id = Some t -> alter f id tbl = <[id := f t]> tbl.
Proof.
  intros H. apply map_eq. intros k. destruct (decide (id = k)) as [<-|Hne].
  - now rewrite lookup_alter_eq, lookup_insert_eq, H.
  - now rewrite lookup_alter_ne, lookup_insert_ne.
Qed.

(** X1.  A cancel request for a known id replaces the status of that
    record by cancelled and changes nothing else in the table; the next
    poll shows the cancelled record, and a second request changes nothing
    more.  For an unknown id both endpoints answer "Task not found". *)
Theorem cancel_task_answers (id : string) (tbl : gmap string task) :
  match cancel_task id tbl with
  | Ok tbl' =>
      exists t, tbl !! id = Some t
        /\ tbl' = <[id := set_status Cancelled t]> tbl
        /\ progress (set_status Cancelled t) = progress t
        /\ result (set_status Cancelled t) = result t
        /\ error (set_status Cancelled t) = error t
        /\ get_task_status id tbl' = Ok (set_status Cancelled t)
        /\ cancel_task id tbl' = Ok tbl'
  | Raise e =>
      tbl !! id = None /\ exn_str e = "Task not found"
      /\ get_task_status id tbl = Raise e
  end.
Proof.
  unfold cancel_task, get_task_status. destruct (tbl !! id) as [t|] eqn:Ht.
  - exists t. rewrite (alter_known _ _ _ _ Ht), lookup_insert_eq.
    repeat split.
    rewrite (alter_known _ id _ (set_status Cancelled t)) by apply lookup_insert_eq.
    now rewrite insert_insert_eq.
  - now repeat split.
Qed.

(** A step rewrites one record at most, the one its event is addressed
    to, and leaves the file name and the web path of the upload alone. *)
Lemma step_table (pf : platform) (env : run_env) (task_id : string)
  (ev : event) (s s' : state) :
  step pf env task_id ev s = Some s' ->
  tasks s' = tasks s
  \/ exists f, tasks s' = alter f (target task_id ev) (tasks s)
               /\ forall t, filename (f t) = filename t
                            /\ original_path (f t) = original_path t.
Proof.
  destruct s as [tbl p tk stop]. destruct ev as [| |id]; cbn [step target].
  - unfold run_step. cbn [at_ tick].
    destruct p; unfold call, store_at, goto, status_is;
      cbn [tasks at_ tick stop_progress].
    all: repeat match goal with
                | |- context [match ?x with _ => _ end] => destruct x eqn:?
                end.
    all: try discriminate.
    all: intros [= <-]; cbn [tasks];
      first [ left; reflexivity
            | right; eexists; split; [reflexivity | intros ?; split; reflexivity] ].
  - unfold tick_step, status_is. cbn [tasks at_ tick stop_progress].
    destruct tk; try discriminate.
    all: repeat match goal with
                | |- context [if ?x then _ else _] => destruct x eqn:?
                end.
    all: intros [= <-]; cbn [tasks];
      first [ left; reflexivity
            | right; eexists; split; [reflexivity | intros ?; split; reflexivity] ].
  - cbn [tasks]. unfold cancel_task. destruct (tbl !! id); [|discriminate].
    intros [= <-]. cbn [tasks]. right. eexists. split; [reflexivity |].
    intros ?. split; reflexivity.
Qed.

Lemma exec_keeps (pf : platform) (env : run_env) (task_id : string)
  (I : state -> Prop) :
  (forall ev s s', I s -> step pf env task_id ev s = Some s' -> I s') ->
  forall evs s s', I s -> exec pf env task_id evs s = Some s' -> I s'.
Proof.
  intros Hstep. induction evs as [|ev evs IH]; intros s s' Hi; cbn [exec].
  - now intros [= <-].
  - destruct (step pf env task_id ev s) as [s1|] eqn:Hs; [|discriminate].
    apply IH. eapply Hstep; eassumption.
Qed.

Lemma step_other (pf : platform) (env : run_env) (task_id id : string)
  (ev : event) (s s' : state) :
  id <> task_id -> is_cancel id ev = false ->
  step pf env task_id ev s = Some s' -> tasks s' !! id = tasks s !! id.
Proof.
  intros Hne Hc Hs. destruct (step_table _ _ _ _ _ _ Hs) as [->|(f & -> & _)];
    [reflexivity |].
  apply lookup_alter_ne. destruct ev as [| |id']; cbn [target]; try congruence.
  cbn in Hc. apply String.eqb_neq in Hc. congruence.
Qed.

(** X2.  The run of one task writes its own record only: through any
    interleaving of the runner, its ticker and cancel requests, the record
    of another id changes only by a cancel request for that id. *)
Theorem other_tasks_untouched (pf : platform) (env : run_env) (task_id id : string)
  (evs : list event) (s s' : state) :
  id <> task_id -> cancel_free id evs ->
  exec pf env task_id evs s = Some s' ->
  tasks s' !! id = tasks s !! id.
Proof.
  intros Hne. revert s. induction evs as [|ev evs IH]; intros s Hcf; cbn [exec].
  - now intros [= <-].
  - destruct (step pf env task_id ev s) as [s1|] eqn:Hs; [|discriminate].
    intros Hrun. rewrite (IH s1); [| |assumption].
    + eapply step_other; [exact Hne | | exact Hs]. apply Hcf. now left.
    + intros e He. apply Hcf. now right.
Qed.

Lemma other_tasks_untouched_witness :
  exists s', exec demo_pf demo_env "t1" (demo_run ++ [Cancel "t1"])
               (submitted {["t2" := new_task "t2" ".wav" "b.wav"]} "t1" ".mp3" "song.mp3")
             = Some s'
             /\ tasks s' !! "t2" = Some (new_task "t2" ".wav" "b.wav").
Proof.
  destruct (exec demo_pf demo_env "t1" (demo_run ++ [Cancel "t1"])
              (submitted {["t2" := new_task "t2" ".wav" "b.wav"]} "t1" ".mp3" "song.mp3"))
    as [s'|] eqn:Hrun; [|vm_compute in Hrun; discriminate Hrun].
  exists s'. split; [reflexivity |].
  assert (Hne : "t2" <> "t1") by discriminate.
  assert (Hcf : cancel_free "t2" (demo_run ++ [Cancel "t1"])).
  { intros ev Hev. vm_compute in Hev.
    repeat (apply elem_of_cons in Hev as [->|Hev]; [reflexivity |]).
    now apply elem_of_nil in Hev. }
  rewrite (other_tasks_untouched demo_pf demo_env "t1" "t2" _ _ s' Hne Hcf Hrun).
  reflexivity.
Defined.

(** X3.  No step of a run adds or removes a record, and the file name and
    the web path of the upload that [separate_audio] stored in a record
    never change. *)
Theorem records_kept (pf : platform) (env : run_env) (task_id id : string)
  (evs : list event) (s s' : state) :
  exec pf env task_id evs s = Some s' ->
  match tasks s !! id with
  | Some t => exists t', tasks s' !! id = Some t'
                         /\ filename t' = filename t
                         /\ original_path t' = original_path t
  | None => tasks s' !! id = None
  end.
Proof.
  revert s. induction evs as [|ev evs IH]; intros s; cbn [exec].
  - intros [= <-]. destruct (tasks s !! id); eauto.
  - destruct (step pf env task_id ev s) as [s1|] eqn:Hs; [|discriminate].
    intros Hrun. specialize (IH s1 Hrun).
    destruct (step_table _ _ _ _ _ _ Hs) as [E|(f & E & Hf)]; rewrite E in IH.
    + exact IH.
    + destruct (decide (target task_id ev = id)) as [<-|Hne].
      * rewrite lookup_alter_eq in IH. destruct (tasks s !! _) as [t|]; cbn in IH.
        -- destruct IH as (t' & H1 & H2 & H3). exists t'.
           destruct (Hf t) as [F1 F2]. repeat split; congruence.
        -- exact IH.
      * now rewrite lookup_alter_ne in IH.
Qed.

Lemma records_kept_witness :
  exists s', exec demo_pf demo_env "t1" demo_run demo_start = Some s'
             /\ exists t', tasks s' !! "t1" = Some t' /\ filename t' = "song.mp3"
                           /\ original_path t' = "/uploads/t1.mp3".
Proof.
  destruct (exec demo_pf demo_env "t1" demo_run demo_start) as [s'|] eqn:Hrun;
    [|vm_compute in Hrun; discriminate Hrun].
  exists s'. split; [reflexivity |].
  exact (records_kept demo_pf demo_env "t1" "t1" demo_run demo_start s' Hrun).
Defined.

(** The record of the task keeps its web path, and a result is stored once,
    by line 192. *)
Lemma step_result (pf : platform) (env : run_env) (task_id ext file_filename : string)
  (ev : event) (s s' : state) (t t' : task) :
  tasks s !! task_id = Some t -> tasks s' !! task_id = Some t' ->
  step pf env task_id ev s = Some s' ->
  result_built pf env task_id ext file_filename t ->
  result_built pf env task_id ext file_filename t'.
Proof.
  intros Ht Ht' Hs [Ho Hr].
  destruct (SepFacts.step_effect _ _ _ _ _ _ _ Ht Hs) as (t1 & Ht1 & He).
  rewrite Ht' in Ht1. injection Ht1 as <-.
  assert (Hset : forall t0, original_path t0 = original_path t ->
                            result t0 = result t ->
                            result_built pf env task_id ext file_filename t0).
  { intros t0 E1 E2. split; [congruence |]. rewrite E2. exact Hr. }
  destruct ev as [| |id]; cbn [effect] in He.
  - destruct (at_ s); cbn [run_effect] in He; try (subst t'; now apply Hset).
    destruct (finalize env) as [ex|e] eqn:Hf; subst t'; [|now apply Hset].
    split; [exact Ho |]. cbn. intros r [= <-]. exists ex. split; [exact Hf |].
    unfold make_result. now rewrite Ho.
  - destruct (tick s); subst t'; now apply Hset.
  - destruct (String.eqb id task_id); subst t'; now apply Hset.
Qed.

Lemma exec_result (pf : platform) (env : run_env) (task_id ext file_filename : string)
  (evs : list event) (s s' : state) :
  (exists t, tasks s !! task_id = Some t
             /\ result_built pf env task_id ext file_filename t) ->
  exec pf env task_id evs s = Some s' ->
  exists t', tasks s' !! task_id = Some t'
             /\ result_built pf env task_id ext file_filename t'.
Proof.
  apply (exec_keeps pf env task_id
           (fun s => exists t, tasks s !! task_id = Some t
                               /\ result_built pf env task_id ext file_filename t)).
  intros ev s0 s1 (t & Ht & Hb) Hs.
  destruct (SepFacts.step_effect _ _ _ _ _ _ _ Ht Hs) as (t1 & Ht1 & _).
  exists t1. split; [exact Ht1 |].
  exact (step_result _ _ _ _ _ _ _ _ _ _ Ht Ht1 Hs Hb).
Qed.

Lemma submitted_result (pf : platform) (env : run_env) (tasks0 : gmap string task)
  (task_id ext file_filename : string) :
  exists t, tasks (submitted tasks0 task_id ext file_filename) !! task_id = Some t
            /\ error t = None
            /\ result_built pf env task_id ext file_filename t.
Proof.
  exists (new_task task_id ext file_filename). cbn [submitted tasks].
  rewrite lookup_insert_eq. repeat split. intros r. discriminate.
Qed.

(** X4.  Whenever a poll of a separation task shows a result, the result
    carries the two URLs [/outputs/separated/<task id>/vocals.wav] and
    [.../instrumental.wav] and the web path of the upload that the record
    has had since the submission; its two file paths are those of the
    output check of the run. *)
Theorem result_content (pf : platform) (env : run_env) (tasks0 : gmap string task)
  (task_id ext file_filename : string) (evs : list event) (s : state)
  (t : task) (r : result_t) :
  exec pf env task_id evs (submitted tasks0 task_id ext file_filename) = Some s ->
  poll task_id s = Some t -> result t = Some r ->
  vocals_url r = "/outputs/separated/" +:+ task_id +:+ "/vocals.wav"
  /\ instrumental_url r = "/outputs/separated/" +:+ task_id +:+ "/instrumental.wav"
  /\ result_original_path r = "/uploads/" +:+ task_id +:+ ext
  /\ original_path t = "/uploads/" +:+ task_id +:+ ext
  /\ exists ex, finalize env = Ok ex
       /\ r = make_result pf task_id (new_task task_id ext file_filename) ex.
Proof.
  intros Hrun Hp Hr.
  destruct (submitted_result pf env tasks0 task_id ext file_filename)
    as (t0 & Ht0 & _ & Hb0).
  destruct (exec_result pf env task_id ext file_filename evs _ s
              (ex_intro _ t0 (conj Ht0 Hb0)) Hrun) as (t' & Ht' & Ho & Hres).
  unfold poll in Hp. rewrite Hp in Ht'. injection Ht' as <-.
  destruct (Hres r Hr) as (ex & Hf & ->).
  repeat split; try assumption. exists ex. now split.
Qed.

Lemma result_content_witness :
  exists s t r,
    exec demo_pf demo_env "t1" demo_run demo_start = Some s
    /\ poll "t1" s = Some t /\ result t = Some r
    /\ vocals_url r = "/outputs/separated/t1/vocals.wav"
    /\ result_original_path r = "/uploads/t1.mp3".
Proof.
  destruct (exec demo_pf demo_env "t1" demo_run demo_start) as [s|] eqn:Hrun;
    [|vm_compute in Hrun; discriminate Hrun].
  destruct (poll "t1" s) as [t|] eqn:Hp;
    [|vm_compute in Hrun; injection Hrun as <-; vm_compute in Hp; discriminate Hp].
  destruct (result t) as [r|] eqn:Hr;
    [|vm_compute in Hrun; injection Hrun as <-; vm_compute in Hp;
      injection Hp as <-; vm_compute in Hr; discriminate Hr].
  pose proof (result_content demo_pf demo_env ∅ "t1" ".mp3" "song.mp3"
                demo_run s t r Hrun Hp Hr) as (H1 & _ & H3 & _).
  exists s, t, r. repeat split; assumption.
Defined.

Lemma step_on_track (pf : platform) (env : run_env) (task_id : string)
  (ev : event) (s s' : state) :
  all_succeed env -> on_track env (at_ s) ->
  step pf env task_id ev s = Some s' -> on_track env (at_ s').
Proof.
  intros (H1 & H2 & H3 & H4 & [files H5] & [ex H6]) Ht.
  destruct s as [tbl p tk stop]. cbn [at_] in Ht.
  destruct ev as [| |id]; cbn [step].
  - unfold run_step. cbn [at_ tick].
    destruct p; cbn [on_track] in Ht; try contradiction;
      unfold call, store_at, goto; cbn [tasks at_ tick stop_progress];
      rewrite ?H1, ?H2, ?H3, ?H4, ?H6; try subst r; rewrite ?H5.
    all: repeat match goal with
                | |- context [match ?x with _ => _ end] => destruct x eqn:?
                end.
    all: try discriminate.
    all: intros [= <-]; cbn [at_ on_track]; auto.
  - unfold tick_step. cbn [tick tasks at_ stop_progress].
    destruct tk; try discriminate.
    all: repeat match goal with
                | |- context [if ?x then _ else _] => destruct x eqn:?
                end.
    all: intros [= <-]; exact Ht.
  - cbn [tasks]. destruct (cancel_task id tbl); [|discriminate].
    intros [= <-]. exact Ht.
Qed.

Lemma step_no_error (pf : platform) (env : run_env) (task_id : string)
  (ev : event) (s : state) (t t' : task) :
  on_track env (at_ s) -> effect pf env task_id ev s t t' -> error t' = error t.
Proof.
  intros Ht He. destruct ev as [| |id]; cbn [effect] in He.
  - destruct (at_ s); cbn [run_effect on_track] in *; try contradiction;
      try (subst t'; reflexivity).
    destruct (finalize env); subst t'; reflexivity.
  - destruct (tick s); subst t'; reflexivity.
  - destruct (String.eqb id task_id); subst t'; reflexivity.
Qed.

(** X5.  A run in which every call succeeds and nothing cancels the task
    ends completed: once the runner has returned, the record has the
    status completed, progress 100, no error and the result of the output
    check. *)
Theorem clean_run_completes (pf : platform) (env : run_env) (tasks0 : gmap string task)
  (task_id ext file_filename : string) (evs : list event) (s : state) :
  all_succeed env -> cancel_free task_id evs ->
  exec pf env task_id evs (submitted tasks0 task_id ext file_filename) = Some s ->
  at_ s = Return ->
  exists t ex,
    poll task_id s = Some t
    /\ status_of t = Completed /\ progress t = 100 /\ error t = None
    /\ finalize env = Ok ex
    /\ result t = Some (make_result pf task_id (new_task task_id ext file_filename) ex).
Proof.
  intros Hall Hcf Hrun Hret.
  assert (Hi : on_track env (at_ s)
               /\ exists t, tasks s !! task_id = Some t /\ error t = None
                            /\ result_built pf env task_id ext file_filename t).
  { revert Hrun.
    apply (exec_keeps pf env task_id
             (fun s => on_track env (at_ s)
                       /\ exists t, tasks s !! task_id = Some t /\ error t = None
                                    /\ result_built pf env task_id ext file_filename t)).
    - intros ev s0 s1 (Ht & t & Hl & He & Hb) Hs. split.
      + eapply step_on_track; eassumption.
      + destruct (SepFacts.step_effect _ _ _ _ _ _ _ Hl Hs) as (t1 & Hl1 & Hef).
        exists t1. split; [exact Hl1 |]. split.
        * rewrite (step_no_error _ _ _ _ _ _ _ Ht Hef). exact He.
        * exact (step_result _ _ _ _ _ _ _ _ _ _ Hl Hl1 Hs Hb).
    - split; [exact I |]. apply submitted_result. }
  destruct Hi as (_ & t & Hl & He & _ & Hres).
  destruct (SepFacts.reachable_inv _ _ _ _ _ _ _ _ Hrun) as (t1 & Hl1 & _ & _ & Hok).
  rewrite Hl in Hl1. injection Hl1 as <-.
  destruct (SepFacts.submitted_status_at _ _ _ _ _ _ _ _ Hcf Hrun) as (t2 & Hl2 & Hst).
  rewrite Hl in Hl2. injection Hl2 as <-.
  rewrite Hret in Hok, Hst. cbn [task_ok status_at] in Hok, Hst.
  unfold shaped in Hok.
  destruct Hok as [(Hs & Hp & Hr & _)|[(_ & _ & _ & Herr)|(Hs & _)]].
  - destruct (result t) as [r|] eqn:Er; [|contradiction].
    destruct (Hres r eq_refl) as (ex & Hf & ->).
    exists t, ex. unfold poll. repeat split; try assumption; try lia.
    destruct Hs as [Hs|Hs]; [exact Hs |]. rewrite Hs in Hst. now destruct Hst.
  - contradiction.
  - exfalso. destruct Hs as [Hs|Hs]; rewrite Hs in Hst; now destruct Hst.
Qed.

Lemma clean_run_completes_witness :
  exists s t,
    exec demo_pf demo_env "t1" demo_run demo_start = Some s
    /\ poll "t1" s = Some t /\ status_of t = Completed /\ progress t = 100.
Proof.
  destruct (exec demo_pf demo_env "t1" demo_run demo_start) as [s|] eqn:Hrun;
    [|vm_compute in Hrun; discriminate Hrun].
  assert (Hall : all_succeed demo_env).
  { repeat split; eexists; reflexivity. }
  assert (Hcf : cancel_free "t1" demo_run).
  { intros ev Hev. vm_compute in Hev.
    repeat (apply elem_of_cons in Hev as [->|Hev]; [reflexivity |]).
    now apply elem_of_nil in Hev. }
  assert (Hret : at_ s = Return).
  { vm_compute in Hrun. now injection Hrun as <-. }
  destruct (clean_run_completes demo_pf demo_env ∅ "t1" ".mp3" "song.mp3"
              demo_run s Hall Hcf Hrun Hret) as (t & ex & Hp & Hs & Hpr & _).
  exists s, t. repeat split; assumption.
Defined.

End TableFacts.

(** ** File names, web paths and stems *)

Module PathFacts.

Import PyStr Notions StrFacts Sep Web.

Lemma split_on_chars (c : ascii) (s x : string) :
  x ∈ split_on c s -> forall a, In a (list_ascii_of_string x) -> a <> c.
Proof.
  revert x. induction s as [|b s IH]; cbn [split_on]; intros x Hx.
  - apply list_elem_of_singleton in Hx. subst x. intros a [].
  - destruct (Ascii.eqb_spec b c) as [->|Hbc].
    + apply elem_of_cons in Hx as [->|Hx]; [intros a [] | now apply IH].
    + destruct (split_on c s) as [|p ps].
      * apply list_elem_of_singleton in Hx. subst x. intros a [<-|[]]. exact Hbc.
      * apply elem_of_cons in Hx as [->|Hx].
        -- intros a [<-|Ha]; [exact Hbc |]. apply (IH p); [now left | exact Ha].
        -- apply IH. now right.
Qed.

Lemma split_on_cons (c : ascii) (s : string) : split_on c s <> [].
Proof.
  destruct s as [|b s]; cbn [split_on]; [discriminate |].
  destruct (Ascii.eqb b c); [discriminate |]. destruct (split_on c s); discriminate.
Qed.

Lemma split_on_app (c : ascii) (a b : string) :
  split_on c (a +:+ String c b) = split_on c a ++ split_on c b.
Proof.
  induction a as [|x a IH].
  - rewrite app_nil_l. cbn [split_on]. now rewrite Ascii.eqb_refl.
  - rewrite app_cons. cbn [split_on]. destruct (Ascii.eqb x c); rewrite IH.
    + reflexivity.
    + pose proof (split_on_cons c a). destruct (split_on c a); [contradiction | reflexivity].
Qed.

Lemma parts_app (a b : string) : parts (a +:+ String "/" b) = parts a ++ parts b.
Proof. unfold parts. rewrite split_on_app. apply filter_app. Qed.

Lemma last_or_default {A} (l : list A) (d : A) : List.last l d = d \/ In (List.last l d) l.
Proof.
  induction l as [|x l IH]; [now left |].
  destruct l as [|y l]; [right; now left |].
  destruct IH as [E|Hin]; [left; exact E | right; right; exact Hin].
Qed.

Lemma from_last_dot_none (s : string) :
  from_last_dot s = None -> forall a, In a (list_ascii_of_string s) -> a <> "."%char.
Proof.
  induction s as [|c s IH]; cbn [from_last_dot list_ascii_of_string]; [intros _ a [] |].
  destruct (from_last_dot s); [discriminate |].
  destruct (Ascii.eqb_spec c "."%char) as [->|Hc]; [discriminate |].
  intros _ a [<-|Ha]; [exact Hc | now apply IH].
Qed.

Lemma from_last_dot_spec (s t : string) :
  from_last_dot s = Some t ->
  (exists r, t = String "." r /\ forall a, In a (list_ascii_of_string r) -> a <> "."%char)
  /\ forall a, In a (list_ascii_of_string t) -> In a (list_ascii_of_string s).
Proof.
  revert t. induction s as [|c s IH]; cbn [from_last_dot]; [discriminate |].
  intros t. destruct (from_last_dot s) as [t'|] eqn:E.
  - intros [= <-]. destruct (IH t' eq_refl) as [H1 H2]. split; [exact H1 |].
    intros a Ha. right. now apply H2.
  - destruct (Ascii.eqb_spec c "."%char) as [->|Hc]; [|discriminate].
    intros [= <-]. split; [|auto]. exists s. split; [reflexivity |].
    now apply from_last_dot_none.
Qed.

Lemma path_name_chars (p : string) :
  forall a, In a (list_ascii_of_string (path_name p)) -> a <> "/"%char.
Proof.
  unfold path_name.
  destruct (last_or_default
              (filter (fun x => Is_true (negb (is_empty x || String.eqb x ".")))
                      (split_on "/" p)) EmptyString) as [E|Hin].
  - rewrite E. intros a [].
  - apply list_elem_of_In, list_elem_of_filter in Hin as [_ Hin].
    now apply split_on_chars with (s := p).
Qed.

(** The extension that [Path.suffix] finds is empty or a dot followed by
    at least one character, none of them a dot or a slash. *)
Lemma suffix_shape (p : string) :
  path_suffix p = EmptyString
  \/ exists r, path_suffix p = String "." r /\ r <> EmptyString /\ all_chars ext_char r.
Proof.
  unfold path_suffix. pose proof (path_name_chars p) as Hn.
  destruct (path_name p) as [|c n]; [now left |].
  destruct (from_last_dot n) as [t|] eqn:E; [|now left].
  destruct (from_last_dot_spec _ _ E) as [(r & -> & Hr) Hsub].
  destruct (String.eqb_spec (String "." r) ".") as [_|Hne]; [now left |].
  right. exists r. split; [reflexivity |]. split; [intros ->; now apply Hne |].
  intros a Ha. unfold ext_char.
  assert (a <> "."%char) by now apply Hr.
  assert (a <> "/"%char).
  { apply Hn. right. apply Hsub. now right. }
  destruct (Ascii.eqb_spec a "."%char), (Ascii.eqb_spec a "/"%char); cbn; congruence.
Qed.

Lemma upload_ext_shape (file_filename : string) :
  exists r, upload_ext file_filename = String "." r /\ r <> EmptyString
            /\ all_chars ext_char r.
Proof.
  unfold upload_ext.
  destruct (suffix_shape file_filename) as [E|(r & E & Hr)]; rewrite E; cbn [is_empty].
  - exists "mp3". split; [reflexivity |]. split; [discriminate |].
    intros a Ha. cbn in Ha. repeat destruct Ha as [<-|Ha]; try reflexivity. contradiction.
  - exists r. now split.
Qed.

(** X6.  Whatever name the client gives to the uploaded file, the web path
    stored in the new record is [/uploads/], the task id, a dot and a
    non-empty extension without dot or slash: nothing of the client's file
    name but its last extension reaches the path. *)
Theorem upload_path_shape (ue : upload_env) (file_filename : string)
  (tbl tbl' : gmap string task) (id : string) :
  separate_audio ue file_filename tbl = Ok (tbl', id) ->
  exists t r, tbl' !! id = Some t
    /\ original_path t = "/uploads/" +:+ id +:+ "." +:+ r
    /\ r <> EmptyString /\ all_chars ext_char r.
Proof.
  unfold separate_audio. destruct (copyfileobj ue); [|discriminate].
  intros [= <- <-]. destruct (upload_ext_shape file_filename) as (r & E & Hr).
  unfold upload_ext in E. eexists _, r. split; [apply lookup_insert_eq |].
  cbn [new_task original_path]. rewrite E. now split.
Qed.

Lemma upload_path_shape_witness :
  exists t r, <[ "t1" := new_task "t1" ".gz" "../../etc/x.tar.gz" ]> (∅ : gmap string task)
              !! "t1" = Some t
    /\ original_path t = "/uploads/" +:+ "t1" +:+ "." +:+ r
    /\ r <> EmptyString /\ all_chars ext_char r.
Proof.
  exact (upload_path_shape (UploadEnv "t1" (Ok tt)) "../../etc/x.tar.gz" ∅ _ "t1" eq_refl).
Defined.

Lemma replace_from_skip (p old new x : string) :
  replace_from (String.length p) old new (p +:+ x) = replace_from 0 old new x.
Proof.
  induction p as [|c p IH]; [now rewrite app_nil_l |].
  rewrite app_cons. cbn [String.length replace_from]. exact IH.
Qed.

Lemma replace_prefix (a : ascii) (o new x : string) :
  replace (String a o) new (String a o +:+ x) = new +:+ replace (String a o) new x.
Proof.
  unfold replace. rewrite app_cons. cbn [replace_from].
  rewrite <- app_cons, startswith_app.
  cbn [String.length Nat.pred]. now rewrite replace_from_skip.
Qed.

Lemma replace_none (old new s : string) :
  contains old s = false -> replace old new s = s.
Proof.
  unfold replace. induction s as [|c s IH]; [reflexivity |].
  cbn [contains replace_from].
  destruct (startswith (String c s) old); [discriminate |].
  intros H. now rewrite IH.
Qed.

(** An occurrence of a text that begins with a slash does not begin in a
    text without slash. *)
Lemma contains_skip (o x b : string) :
  (forall a, In a (list_ascii_of_string x) -> a <> "/"%char) ->
  contains (String "/" o) (x +:+ b) = contains (String "/" o) b.
Proof.
  induction x as [|c x IH]; intros Hx; [now rewrite app_nil_l |].
  rewrite app_cons.
  change (contains (String "/" o) (String c (x +:+ b)))
    with (if startswith (String c (x +:+ b)) (String "/" o) then true
          else contains (String "/" o) (x +:+ b)).
  cbn [startswith]. destruct (Ascii.eqb_spec "/" c) as [<-|_].
  - exfalso. apply (Hx "/"%char); [now left | reflexivity].
  - apply IH. intros a Ha. apply Hx. now right.
Qed.

Lemma uuid_char_spec (c : ascii) :
  uuid_char c = true -> c <> "/"%char /\ c <> "o"%char.
Proof. intros H. split; intros ->; discriminate H. Qed.

Lemma uuid_text_chars (s : string) :
  uuid_text s -> forall a, In a (list_ascii_of_string s) -> a <> "/"%char.
Proof. intros H a Ha. now apply uuid_char_spec, H. Qed.

Lemma ext_chars (r : string) :
  all_chars ext_char r -> forall a, In a (list_ascii_of_string r) -> a <> "/"%char.
Proof. intros H a Ha ->. now specialize (H _ Ha). Qed.

Lemma chars_app (a b : string) (c : ascii) :
  In c (list_ascii_of_string (a +:+ b)) ->
  In c (list_ascii_of_string a) \/ In c (list_ascii_of_string b).
Proof.
  induction a as [|x a IH]; [rewrite app_nil_l; now right |].
  rewrite app_cons. intros [<-|H]; [left; now left |].
  destruct (IH H); [left; now right | now right].
Qed.

Lemma startswith_cons (a b : ascii) (s p : string) :
  startswith (String b s) (String a p)
  = if Ascii.eqb a b then startswith s p else false.
Proof. reflexivity. Qed.

Lemma uuid_startswith (task_id tail : string) :
  uuid_text task_id -> startswith tail "/" = true ->
  startswith (task_id +:+ tail) "outputs/" = false.
Proof.
  intros Hu Ht. destruct task_id as [|c t].
  - rewrite app_nil_l. destruct tail as [|d tail]; [discriminate |].
    cbn [startswith] in *. now destruct (Ascii.eqb_spec "/" d) as [<-|].
  - rewrite app_cons. destruct (uuid_char_spec c (Hu c (or_introl eq_refl))) as [H1 H2].
    cbn [startswith]. destruct (Ascii.eqb_spec "o" c); congruence.
Qed.

Lemma no_slash_contains (o s : string) :
  (forall a, In a (list_ascii_of_string s) -> a <> "/"%char) ->
  contains (String "/" o) s = false.
Proof.
  intros H. rewrite <- (append_nil_r s). now rewrite contains_skip.
Qed.

(** The URL of a stem, without its [/outputs/], is left alone by the
    replacement, and its components are those of the path of the stem. *)
Lemma stem_url_resolves (task_id name : string) :
  uuid_text task_id ->
  contains "/outputs/" (String "/" name) = false ->
  (forall a, In a (list_ascii_of_string name) -> a <> "/"%char) ->
  resolve ("/outputs/separated/" +:+ task_id +:+ String "/" name)
  = div (div SEPARATION_DIR task_id) name.
Proof.
  intros Hu Hname Hn. unfold resolve.
  change ("/outputs/separated/" +:+ task_id +:+ String "/" name)
    with ("/outputs/" +:+ "separated" +:+ String "/" (task_id +:+ String "/" name)).
  assert (Hup : startswith ("/outputs/" +:+ "separated"
                            +:+ String "/" (task_id +:+ String "/" name))
                           "/uploads/" = false) by reflexivity.
  rewrite Hup, startswith_app, replace_prefix, app_nil_l.
  pose proof (uuid_startswith task_id (String "/" name) Hu eq_refl) as Hs2.
  rewrite replace_none.
  - unfold div at 1. 
    assert (Hrel : startswith ("separated" +:+ String "/" (task_id +:+ String "/" name))
                              "/" = false) by reflexivity.
    rewrite Hrel, parts_app, parts_app. cbn [app].
    assert (Htid : startswith task_id "/" = false).
    { destruct task_id as [|c t]; [reflexivity |]. cbn [startswith].
      destruct (uuid_char_spec c (Hu c (or_introl eq_refl))) as [H1 _].
      destruct (Ascii.eqb_spec "/" c); congruence. }
    assert (Hnm : startswith name "/" = false).
    { destruct name as [|c t]; [reflexivity |]. cbn [startswith].
      specialize (Hn c (or_introl eq_refl)).
      destruct (Ascii.eqb_spec "/" c); congruence. }
    unfold SEPARATION_DIR, div. rewrite Htid, Hnm.
    change (startswith "separated" "/") with false. cbn [app].
    now rewrite <- app_assoc.
  - rewrite (contains_skip "outputs/" "separated").
    + change (contains "/outputs/" (String "/" (task_id +:+ String "/" name)))
        with (if startswith (String "/" (task_id +:+ String "/" name)) "/outputs/"
              then true
              else contains "/outputs/" (task_id +:+ String "/" name)).
      rewrite (startswith_cons "/" "/" _ "outputs/").
      change (Ascii.eqb "/" "/") with true. cbn iota.
      rewrite Hs2. rewrite contains_skip; [exact Hname |].
      now apply uuid_text_chars.
    + intros a Ha. cbn in Ha. repeat destruct Ha as [<-|Ha]; try discriminate.
      contradiction.
Qed.

(** X7.  The paths that the server hands out lead back to the files it
    wrote.  For a task id written with the characters of a UUID, the web
    path stored at the submission resolves, through the conversion of the
    analysis endpoints, to the file the upload was written to, and the two
    URLs of a result resolve to the files the runner left the stems in; so
    [analyze_audio] called with the stored path runs its service on the
    uploaded file, or answers 404 when that file is gone. *)
Theorem stored_paths_resolve {A} (pf : Sep.platform) (env : service_env A)
  (task_id file_filename : string) (ex : bool * bool) :
  uuid_text task_id ->
  let t := new_task task_id (upload_ext file_filename) file_filename in
  let r := make_result pf task_id t ex in
  resolve (original_path t) = input_path task_id (upload_ext file_filename)
  /\ resolve (result_original_path r) = input_path task_id (upload_ext file_filename)
  /\ resolve (vocals_url r) = final_vocals_path task_id
  /\ resolve (instrumental_url r) = final_instrumental_path task_id
  /\ analyze_audio env (original_path t)
     = if exists_ env (input_path task_id (upload_ext file_filename))
       then match service env (input_path task_id (upload_ext file_filename)) with
            | inl result => Served result
            | inr e => Refused 500 e
            end
       else Refused 404 ("File not found: "
                         +:+ str_of_path env
                               (input_path task_id (upload_ext file_filename))).
Proof.
  intros Hu t r.
  assert (Hup : resolve (original_path t)
                = input_path task_id (upload_ext file_filename)).
  { cbn [t new_task original_path]. unfold resolve, input_path.
    rewrite startswith_app, replace_prefix, app_nil_l, replace_none; [reflexivity |].
    apply no_slash_contains. intros a Ha.
    destruct (chars_app _ _ _ Ha) as [H|H]; [now apply (uuid_text_chars task_id) |].
    destruct (upload_ext_shape file_filename) as (e & E & _ & He).
    rewrite E in H. destruct H as [<-|H]; [discriminate | now apply (ext_chars e)]. }
  split; [exact Hup |]. split; [exact Hup |].
  split; [|split].
  - apply (stem_url_resolves task_id "vocals.wav" Hu); [reflexivity |].
    intros a Ha. cbn in Ha. repeat destruct Ha as [<-|Ha]; try discriminate.
    contradiction.
  - apply (stem_url_resolves task_id "instrumental.wav" Hu); [reflexivity |].
    intros a Ha. cbn in Ha. repeat destruct Ha as [<-|Ha]; try discriminate.
    contradiction.
  - unfold analyze_audio. rewrite Hup.
    destruct (exists_ env _); reflexivity.
Qed.

Lemma stored_paths_resolve_witness :
  resolve "/uploads/3f2a-0b.mp3" = Under UPLOAD_DIR ["3f2a-0b.mp3"]
  /\ resolve "/outputs/separated/3f2a-0b/vocals.wav"
     = Under OUTPUT_DIR ["separated"; "3f2a-0b"; "vocals.wav"].
Proof.
  assert (Hu : uuid_text "3f2a-0b").
  { intros c Hc. cbn in Hc. repeat destruct Hc as [<-|Hc]; try reflexivity.
    contradiction. }
  destruct (stored_paths_resolve demo_pf
              (ServiceEnv unit (fun _ => true) (fun _ => EmptyString) (fun _ => inl tt))
              "3f2a-0b" "song.mp3" (true, true) Hu) as (H1 & _ & H3 & _).
  split; [exact H1 | exact H3].
Defined.

Lemma pick_fold (files : list string) (acc : option string * option string) :
  fold_left pick files acc
  = (match last (filter (fun x => Is_true (contains "Vocals" x)) files) with
     | Some x => Some x
     | None => fst acc
     end,
     match last (filter (fun x => Is_true (negb (contains "Vocals" x)
                                           && contains "Instrumental" x)) files) with
     | Some x => Some x
     | None => snd acc
     end).
Proof.
  revert acc. induction files as [|x files IH]; intros acc; [now destruct acc |].
  cbn [fold_left]. rewrite IH. unfold pick.
  destruct (contains "Vocals" x) eqn:Ev.
  - rewrite filter_cons_True by (now rewrite Ev).
    rewrite (filter_cons_False _ x) by (now rewrite Ev).
    rewrite last_cons. cbn [fst snd].
    f_equal; try reflexivity;
      repeat match goal with |- context [last ?l] => destruct (last l) end;
      reflexivity.
  - rewrite filter_cons_False by (now rewrite Ev).
    destruct (contains "Instrumental" x) eqn:Ei.
    + rewrite (filter_cons_True _ x) by (now rewrite Ev, Ei).
      rewrite last_cons. cbn [fst snd].
      f_equal; try reflexivity;
      repeat match goal with |- context [last ?l] => destruct (last l) end;
      reflexivity.
    + rewrite (filter_cons_False _ x) by (now rewrite Ev, Ei). reflexivity.
Qed.

(** X8.  Of the files that the separator reports, the vocal stem is the
    last one whose name contains [Vocals], and the instrumental stem the
    last one whose name contains [Instrumental] but not [Vocals]; so both
    come from the reported files and, when both are found, they are two
    different files. *)
Theorem stems_identified (output_files : list string) :
  identify_stems output_files
  = (last (filter (fun x => Is_true (contains "Vocals" x)) output_files),
     last (filter (fun x => Is_true (negb (contains "Vocals" x)
                                     && contains "Instrumental" x)) output_files))
  /\ forall v i, identify_stems output_files = (Some v, Some i) ->
       v ∈ output_files /\ i ∈ output_files /\ v <> i.
Proof.
  assert (E := pick_fold output_files (None, None)). cbn [fst snd] in E.
  assert (E' : identify_stems output_files
               = (last (filter (fun x => Is_true (contains "Vocals" x)) output_files),
                  last (filter (fun x => Is_true (negb (contains "Vocals" x)
                                                  && contains "Instrumental" x))
                               output_files))).
  { unfold identify_stems. rewrite E.
    f_equal; repeat match goal with |- context [last ?l] => destruct (last l) end;
      reflexivity. }
  split; [exact E' |]. intros v i. rewrite E'. intros [= Hv Hi].
  apply last_Some_elem_of, list_elem_of_filter in Hv as [Hv Hv'].
  apply last_Some_elem_of, list_elem_of_filter in Hi as [Hi Hi'].
  repeat split; try assumption. intros ->.
  destruct (contains "Vocals" i); [exact Hi | exact Hv].
Qed.

Lemma stems_identified_witness :
  identify_stems ["song_(Vocals).wav"; "song_(Instrumental).wav"; "song_(Vocals)_2.wav"]
  = (Some "song_(Vocals)_2.wav", Some "song_(Instrumental).wav")
  /\ "song_(Vocals)_2.wav" <> "song_(Instrumental).wav".
Proof.
  split; [reflexivity |].
  exact (proj2 (proj2 (proj2 (stems_identified
           ["song_(Vocals).wav"; "song_(Instrumental).wav"; "song_(Vocals)_2.wav"])
           "song_(Vocals)_2.wav" "song_(Instrumental).wav" eq_refl))).
Defined.

End PathFacts.

(** ** Generation jobs: polling, vocal style and logs *)

Module JobFacts.

Import PyStr Notions StrFacts Yue.





Lemma vocal_prefix_other (o : options) (genre_txt : string) :
  vocal_marker (get (vocal_type o) "female") = None ->
  vocal_prefix o genre_txt = genre_txt.
Proof.
  unfold vocal_marker, vocal_prefix.
  destruct (String.eqb _ "none"); [discriminate |].
  destruct (String.eqb _ "male"); [discriminate |].
  destruct (String.eqb _ "female"); [discriminate | reflexivity].
Qed.

(** X10.  The vocal prefix is added once: the text that
    [start_generation_job] writes to the genre file, submitted again with
    the same options, is written unchanged. *)
Theorem vocal_prefix_once (o : options) (genre_txt : string) :
  vocal_prefix o (vocal_prefix o genre_txt) = vocal_prefix o genre_txt.
Proof.
  destruct (vocal_marker (get (vocal_type o) "female")) as [marker|] eqn:Hm.
  - rewrite (VocalFacts.vocal_prefix_cases o genre_txt marker Hm).
    destruct (contains marker (lower genre_txt)) eqn:Hc.
    + rewrite (VocalFacts.vocal_prefix_cases o genre_txt marker Hm). now rewrite Hc.
    + rewrite (VocalFacts.vocal_prefix_cases o _ marker Hm).
      assert (Hin : contains marker (lower (marker +:+ ", " +:+ genre_txt)) = true).
      { apply contains_spec. rewrite <- append_assoc, lower_app.
        rewrite (VocalFacts.marker_lower _ _ Hm), append_assoc.
        exists EmptyString, (", " +:+ lower genre_txt). now rewrite app_nil_l. }
      now rewrite Hin.
  - now rewrite !(vocal_prefix_other o _ Hm).
Qed.

End JobFacts.

(** ** The logs of a generation run *)

Module LogFacts.

Import PyStr Notions StrFacts Yue RunFacts.

Lemma linked_app (j j1 j2 : job) (t1 t2 : list (job * job)) :
  linked j t1 j1 -> linked j1 t2 j2 -> linked j (t1 ++ t2) j2.
Proof.
  revert j. induction t1 as [|ab t1 IH]; intros j; cbn [linked app].
  - now intros ->.
  - intros [E H1] H2. split; [exact E |]. now apply IH.
Qed.

Section Chains.

Context {A B : Type}.

Lemma chained_ret (a : A) : chained (ret a).
Proof. intros w. reflexivity. Qed.

Lemma chained_lift (r : res A) : chained (lift r).
Proof. intros w. reflexivity. Qed.

Lemma chained_bind (m : M A) (k : A -> M B) :
  chained m -> (forall a, chained (k a)) -> chained (bind m k).
Proof.
  intros Hm Hk w. specialize (Hm w). unfold bind.
  destruct (m w) as [[[a|e] w1] t1]; cbn in Hm |- *; [|exact Hm].
  specialize (Hk a w1). destruct (k a w1) as [[r w2] t2]; cbn in Hk |- *.
  eapply linked_app; eassumption.
Qed.

Lemma chained_try (body : M A) (handler : exn -> M A) :
  chained body -> (forall e, chained (handler e)) -> chained (try_except body handler).
Proof.
  intros Hb Hh w. specialize (Hb w). unfold try_except.
  destruct (body w) as [[[a|e] w1] t1]; cbn in Hb |- *; [exact Hb |].
  specialize (Hh e w1). destruct (handler e w1) as [[r w2] t2]; cbn in Hh |- *.
  eapply linked_app; eassumption.
Qed.

End Chains.

Lemma chained_for_each {A} (body : A -> M unit) (l : list A) :
  (forall x, chained (body x)) -> chained (for_each body l).
Proof.
  intros H. induction l as [|x l IH]; cbn [for_each].
  - intros w. reflexivity.
  - apply chained_bind; [apply H | intros _; exact IH].
Qed.

Lemma chained_store (f : job -> job) : chained (store f).
Proof. intros w. cbn. auto. Qed.

Lemma chained_wait (env : run_env) : chained (process_wait env).
Proof. intros w. reflexivity. Qed.

Lemma chained_rename (pf : platform) (o : options) : chained (rename_files pf o).
Proof. intros w. reflexivity. Qed.

Ltac chain_tac :=
  repeat first
    [ apply chained_store | apply chained_lift | apply chained_ret
    | apply chained_wait | apply chained_rename
    | apply chained_for_each; intros ?
    | apply chained_bind; [|intros ?]
    | match goal with
      | |- chained (match ?x with _ => _ end) => destruct x
      end ].

Lemma chained_handle_line (raw : string) : chained (handle_line raw).
Proof. unfold handle_line. cbv zeta. chain_tac. Qed.

Lemma chained_run (pf : platform) (env : run_env)
  (job_dir genre_file lyrics_file : string) (o : options) :
  chained (_run_yue_process pf env job_dir genre_file lyrics_file o).
Proof.
  unfold _run_yue_process. apply chained_bind; [apply chained_store | intros _].
  apply chained_try.
  - unfold run_body. cbv zeta.
    repeat first
      [ apply chained_store | apply chained_lift | apply chained_wait
      | apply chained_rename
      | apply chained_for_each; intros ?; apply chained_handle_line
      | apply chained_bind; [|intros ?]
      | match goal with
        | |- chained (if ?x then _ else _) => destruct x
        end ].
  - intros e. unfold run_handler. chain_tac.
Qed.

Lemma extends_refl (j : job) : extends j j.
Proof. exists []. now rewrite app_nil_r. Qed.

Lemma extends_trans (a b c : job) : extends a b -> extends b c -> extends a c.
Proof. intros [l1 E1] [l2 E2]. exists (l1 ++ l2). now rewrite E2, E1, <- app_assoc. Qed.

(** Along linked stores that only add to the logs, the logs of an earlier
    record begin the logs of every later one. *)
Lemma linked_extends (tr : list (job * job)) :
  forall j j', linked j tr j' ->
  Forall (fun ab => extends (fst ab) (snd ab)) tr ->
  extends j j'
  /\ forall i k a b, (i <= k)%nat -> tr !! i = Some a -> tr !! k = Some b ->
       extends j (fst a) /\ extends (snd a) (snd b) /\ extends (snd b) j'.
Proof.
  induction tr as [|ab tr IH]; intros j j' Hl Hf; cbn [linked] in Hl.
  - subst j'. split; [apply extends_refl |]. intros i k a b _ H. discriminate H.
  - destruct Hl as [E Hl]. apply Forall_cons in Hf as [Hab Hf].
    destruct (IH _ _ Hl Hf) as [Hend Hall]. rewrite E in Hab.
    split; [eapply extends_trans; eassumption |].
    intros i k a b Hik Hi Hk. destruct i as [|i], k as [|k]; cbn in Hi, Hk.
    + injection Hi as <-. injection Hk as <-. rewrite E.
      repeat split; [apply extends_refl | apply extends_refl | exact Hend].
    + injection Hi as <-. rewrite E.
      destruct (Hall k k b b (le_n _) Hk Hk) as (H1 & _ & H3).
      repeat split; [apply extends_refl | | exact H3].
      eapply extends_trans; [exact H1 |].
      exact (Forall_lookup_1 _ _ _ _ Hf Hk).
    + lia.
    + destruct (Hall i k a b ltac:(lia) Hi Hk) as (H1 & H2 & H3).
      repeat split; [|exact H2 | exact H3].
      eapply extends_trans; [exact Hab | exact H1].
Qed.

(** X11.  The logs of a generation job only grow.  Every store of the
    runner starts from the record that its store before left (the polls
    write [output_files] only), and of any two records that the run
    stores, the logs of the earlier one are the beginning of the logs of
    the later one and of the final logs; so a poller never sees a log line
    disappear or change. *)
Theorem logs_only_grow (pf : platform) (env : run_env)
  (job_dir genre_file lyrics_file : string) (o : options) (job_id : string) (now : Z)
  (i k : nat) (a b : job * job) :
  let tr := run_trace pf env job_dir genre_file lyrics_file o job_id now in
  (i <= k)%nat -> tr !! i = Some a -> tr !! k = Some b ->
  linked (new_job job_id now) tr
         (w_job (snd (run_final pf env job_dir genre_file lyrics_file o job_id now)))
  /\ extends (snd a) (snd b)
  /\ extends (snd b)
       (w_job (snd (run_final pf env job_dir genre_file lyrics_file o job_id now))).
Proof.
  intros tr Hik Hi Hk.
  pose proof (chained_run pf env job_dir genre_file lyrics_file o
                (World (new_job job_id now) [])) as Hl.
  cbn [w_job] in Hl. split; [exact Hl |].
  assert (Hf : Forall (fun ab => extends (fst ab) (snd ab)) tr).
  { apply Forall_forall. intros [x y] Hin. cbn [fst snd].
    assert (Hs : yue_step x y).
    { apply (run_trace_steps pf env job_dir genre_file lyrics_file o job_id now).
      first [exact Hin | now apply list_elem_of_In]. }
    destruct Hs as (_ & _ & _ & _ & He). exact He. }
  destruct (linked_extends tr _ _ Hl Hf) as [_ Hall].
  destruct (Hall i k a b Hik Hi Hk) as (_ & H2 & H3). now split.
Qed.

Lemma logs_only_grow_witness :
  exists a b,
    run_trace demo_yue_pf demo_yue_env "/srv/outputs/j1" "genre.txt" "lyrics.txt"
              no_options "j1" 0 !! 1%nat = Some a
    /\ run_trace demo_yue_pf demo_yue_env "/srv/outputs/j1" "genre.txt" "lyrics.txt"
                 no_options "j1" 0 !! 4%nat = Some b
    /\ extends (snd a) (snd b).
Proof.
  destruct (run_trace demo_yue_pf demo_yue_env "/srv/outputs/j1" "genre.txt"
              "lyrics.txt" no_options "j1" 0 !! 1%nat) as [a|] eqn:Ha;
    [|vm_compute in Ha; discriminate Ha].
  destruct (run_trace demo_yue_pf demo_yue_env "/srv/outputs/j1" "genre.txt"
              "lyrics.txt" no_options "j1" 0 !! 4%nat) as [b|] eqn:Hb;
    [|vm_compute in Hb; discriminate Hb].
  exists a, b. split; [reflexivity |]. split; [reflexivity |].
  assert (Hik : (1 <= 4)%nat) by lia.
  destruct (logs_only_grow demo_yue_pf demo_yue_env "/srv/outputs/j1" "genre.txt"
              "lyrics.txt" no_options "j1" 0 1 4 a b Hik Ha Hb) as (_ & H & _).
  exact H.
Defined.













End LogFacts.

(** ** Ranges, slices and sorting *)

Module ListFacts.

Import Notions PyList.

Lemma range_lookup (stop step : Z) (l : list Z) :
  0 < step -> range stop step = Ok l ->
  forall (i : nat) (v : Z),
    l !! i = Some v <-> v = Z.of_nat i * step /\ Z.of_nat i * step < stop.
Proof.
  intros Hs. unfold range, range_len.
  destruct (Z.eqb_spec step 0) as [|_]; [lia |].
  destruct (Z.ltb_spec 0 step) as [_|]; [|lia].
  intros [= <-] i v.
  change (map ?f ?l) with (f <$> l). rewrite list_lookup_fmap.
  pose proof (Z.div_mod (stop + step - 1) step ltac:(lia)) as Hd.
  pose proof (Z.mod_pos_bound (stop + step - 1) step Hs) as Hm.
  destruct (seq 0 _ !! i) as [k|] eqn:E; cbn.
  - apply lookup_seq in E as [-> Hlt]. cbn [Nat.add]. split.
    + intros [= <-]. split; [reflexivity | nia].
    + now intros [-> _].
  - split; [discriminate |]. intros [_ Hlt]. exfalso.
    assert (Hi : (i < Z.to_nat ((stop + step - 1) / step))%nat) by nia.
    pose proof (proj2 (lookup_seq 0 _ i i) (conj eq_refl Hi)) as E'.
    rewrite E in E'. discriminate.
Qed.

Lemma insert_perm {A} (key : A -> Z) (x : A) (l : list A) :
  Permutation (insert_desc key x l) (x :: l).
Proof.
  induction l as [|y r IH]; cbn [insert_desc]; [reflexivity |].
  destruct (key x <? key y); [|reflexivity].
  transitivity (y :: x :: r); [now apply perm_skip | apply perm_swap].
Qed.

Lemma sort_perm {A} (key : A -> Z) (l : list A) : Permutation (sort_desc key l) l.
Proof.
  induction l as [|x l IH]; cbn [sort_desc fold_right]; [reflexivity |].
  transitivity (x :: sort_desc key l); [apply insert_perm | now apply perm_skip].
Qed.

Lemma insert_descending {A} (key : A -> Z) (x : A) (l : list A) :
  descending key l -> descending key (insert_desc key x l).
Proof.
  unfold descending. induction l as [|y r IH]; intros H; cbn [insert_desc].
  - repeat constructor.
  - inversion H as [|? ? Hr Hy]; subst.
    destruct (Z.ltb_spec (key x) (key y)) as [Hlt|Hge].
    + constructor; [now apply IH |].
      apply (Permutation_Forall (Permutation_sym (insert_perm key x r))).
      constructor; [lia | exact Hy].
    + constructor; [exact H |]. constructor; [lia |].
      apply List.Forall_forall. intros z Hz.
      apply (proj1 (List.Forall_forall _ _) Hy) in Hz. lia.
Qed.

Lemma sort_descending {A} (key : A -> Z) (l : list A) : descending key (sort_desc key l).
Proof.
  induction l as [|x l IH]; cbn [sort_desc fold_right]; [constructor |].
  now apply insert_descending.
Qed.

Lemma descending_lookup {A} (key : A -> Z) (l : list A) :
  descending key l ->
  forall (i j : nat) (a b : A),
    (i <= j)%nat -> l !! i = Some a -> l !! j = Some b -> key b <= key a.
Proof.
  unfold descending. induction l as [|x l IH]; intros H i j a b Hij Hi Hj;
    [discriminate |].
  inversion H as [|? ? Hl Hx]; subst.
  destruct i as [|i], j as [|j]; cbn in Hi, Hj.
  - injection Hi as <-. injection Hj as <-. lia.
  - injection Hi as <-. apply list_elem_of_lookup_2, list_elem_of_In in Hj.
    exact (proj1 (List.Forall_forall _ _) Hx _ Hj).
  - lia.
  - apply (IH Hl i j); [lia | assumption | assumption].
Qed.

(** A slice [l[:k]] is the first items of [l]. *)
Lemma prefix_take {A} (k : Z) (l : list A) :
  exists n, prefix k l = take n l
            /\ (0 <= k -> n = Z.to_nat k)
            /\ (k < 0 -> n = (length l - Z.to_nat (- k))%nat).
Proof.
  unfold prefix. destruct (Z.leb_spec 0 k).
  - exists (Z.to_nat k). repeat split; lia.
  - exists (length l - Z.to_nat (- k))%nat. repeat split; lia.
Qed.

(** The first items of a descending list are the best ones. *)
Lemma take_best {A} (key : A -> Z) (l : list A) (n : nat) (x y : A) :
  descending key l -> x ∈ take n l -> y ∈ drop n l -> key y <= key x.
Proof.
  intros H Hx Hy.
  apply list_elem_of_lookup in Hx as [i Hi]. apply list_elem_of_lookup in Hy as [j Hj].
  apply lookup_take_Some in Hi as [Hi Hin]. rewrite lookup_drop in Hj.
  apply (descending_lookup key l H i (n + j)); [lia | assumption | assumption].
Qed.

End ListFacts.

(** ** The CLAP model and the search *)

Module ClapFacts.

Import Notions Clap.

Section Cache.

Context {model : Type}.

Lemma calls_cons (a : attempt model) (rest : list (attempt model)) (g : globals model) :
  calls (a :: rest) g
  = (fst (get_clap_model a g) :: fst (calls rest (snd (get_clap_model a g))),
     snd (calls rest (snd (get_clap_model a g)))).
Proof.
  cbn [calls]. destruct (get_clap_model a g) as [r g1]. cbn [fst snd].
  now destruct (calls rest g1).
Qed.

(** Once the global holds a model, every call answers it and changes
    nothing. *)
Lemma settled (m : model) (g : globals model) (after : list (attempt model)) :
  _clap_model g = Some m -> calls after g = (repeat (Some m) (length after), g).
Proof.
  intros H. induction after as [|a r IH]; [reflexivity |].
  rewrite calls_cons. unfold get_clap_model. rewrite H. cbn [fst snd].
  now rewrite IH.
Qed.

(** The flag is set only together with the model. *)
Lemma flag_with_model (before : list (attempt model)) (g : globals model) :
  (_model_loading g = true -> _clap_model g <> None) ->
  _model_loading (snd (calls before g)) = true ->
  _clap_model (snd (calls before g)) <> None.
Proof.
  revert g. induction before as [|a r IH]; intros g Hg; [exact Hg |].
  rewrite calls_cons. cbn [snd]. apply IH.
  unfold get_clap_model. destruct (_clap_model g) as [m|] eqn:Em.
  - cbn [snd]. now rewrite Em.
  - destruct (_model_loading g) eqn:El; [now (exfalso; apply Hg) |].
    destruct a; cbn; congruence.
Qed.

(** X13.  [get_clap_model] builds the model once.  In any sequence of
    calls after the import of the module, a call that answers a model
    leaves it in the global, and every later call answers the same model
    without another attempt to load.  A call answers nothing only when its
    own attempt fails: when the import or the constructor raises, the
    globals are as after the import and the next call tries again; when
    the constructor succeeds and [load_ckpt] raises, the model built is
    kept, and every later call answers it although its checkpoint was not
    loaded. *)
Theorem model_cached (before after : list (attempt model)) (a : attempt model) :
  let g := snd (calls before imported) in
  match get_clap_model a g with
  | (Some m, g1) =>
      _clap_model g1 = Some m
      /\ calls after g1 = (repeat (Some m) (length after), g1)
  | (None, g1) =>
      _clap_model g = None
      /\ match a with
         | NotBuilt _ => g1 = imported
         | NotLoaded m _ =>
             _clap_model g1 = Some m
             /\ calls after g1 = (repeat (Some m) (length after), g1)
         | Loaded _ => False
         end
  end.
Proof.
  intros g.
  assert (Hflag : _model_loading g = true -> _clap_model g <> None).
  { apply flag_with_model. discriminate. }
  unfold get_clap_model. destruct (_clap_model g) as [m|] eqn:Em.
  - split; [exact Em | now apply settled].
  - destruct (_model_loading g); [now destruct Hflag |].
    destruct a as [e|m e|m].
    + now split.
    + split; [reflexivity |]. split; [reflexivity | now apply settled].
    + split; [reflexivity | now apply settled].
Qed.

End Cache.

Lemma segments_lookup (n w h : Z) (segs : list (Z * Z)) :
  0 < h -> segments_of n w h = Ok segs ->
  forall (i : nat) (s e : Z),
    segs !! i = Some (s, e) <-> s = Z.of_nat i * h /\ e = s + w /\ e < n.
Proof.
  intros Hh. unfold segments_of.
  destruct (PyList.range (n - w) h) as [starts|] eqn:Hr; [|discriminate].
  cbn [res_bind]. intros [= <-] i s e.
  change (map ?f ?l) with (f <$> l). rewrite list_lookup_fmap.
  pose proof (ListFacts.range_lookup _ _ _ Hh Hr i) as Hl.
  destruct (starts !! i) as [v|]; cbn.
  - destruct (proj1 (Hl v) eq_refl) as [-> Hlt]. split.
    + intros [= <- <-]. repeat split. lia.
    + intros (-> & -> & _). reflexivity.
  - split; [discriminate |]. intros (-> & -> & Hlt). exfalso.
    assert (H : (None : option Z) = Some (Z.of_nat i * h)); [|discriminate H].
    apply Hl. split; [reflexivity | lia].
Qed.

(** X14.  The segments that a search scores.  With a hop of zero samples
    the search fails on the range.  With a positive hop the segments are
    the windows of [window_samples] samples that start at the multiples
    of the hop and end before the last sample of the audio, in that
    order: every segment lies inside the audio, and the window that would
    end exactly with the audio is not among them.  An audio that is not
    longer than one window therefore has no segment, and the search
    answers at once with success and no results. *)
Theorem segments_inside {model} (m : model) (env : search_env) (n w h top_k : Z) :
  match segments_of n w h with
  | Raise e =>
      h = 0
      /\ (load env = Ok n ->
          search_by_text (Some m) env w h top_k = Unsuccessful (exn_str e))
  | Ok segs =>
      h <> 0
      /\ (0 < h ->
          (forall (i : nat) (s e : Z),
             segs !! i = Some (s, e) <-> s = Z.of_nat i * h /\ e = s + w /\ e < n)
          /\ (n <= w -> segs = []
                        /\ (load env = Ok n ->
                            search_by_text (Some m) env w h top_k
                            = Successful [] false)))
  end.
Proof.
  destruct (segments_of n w h) as [segs|e] eqn:Hs.
  - split.
    { intros ->. unfold segments_of, PyList.range in Hs. discriminate Hs. }
    intros Hh. pose proof (segments_lookup n w h segs Hh Hs) as Hl.
    split; [exact Hl |]. intros Hn.
    assert (E : segs = []).
    { destruct segs as [|[s e] r]; [reflexivity |]. exfalso.
      destruct (proj1 (Hl 0%nat s e) eq_refl) as (-> & -> & Hlt). lia. }
    split; [exact E |]. intros Hload. unfold search_by_text.
    rewrite Hload. cbn [res_bind]. rewrite Hs, E. reflexivity.
  - unfold segments_of, PyList.range in Hs.
    destruct (Z.eqb_spec h 0) as [->|]; [|discriminate Hs].
    split; [reflexivity |]. intros Hload. unfold search_by_text.
    rewrite Hload. cbn [res_bind]. unfold segments_of, PyList.range.
    cbn [Z.eqb res_bind]. injection Hs as <-. reflexivity.
Qed.

Lemma segments_inside_witness :
  exists segs,
    segments_of 480000 240000 120000 = Ok segs
    /\ segs = [(0, 240000); (120000, 360000)]
    /\ forall (i : nat) (s e : Z), segs !! i = Some (s, e) -> e < 480000.
Proof.
  pose proof (segments_inside tt demo_search_env 480000 240000 120000 5) as H.
  destruct (segments_of 480000 240000 120000) as [segs|] eqn:E;
    [|vm_compute in E; discriminate E].
  exists segs. split; [reflexivity |]. split.
  - vm_compute in E. now injection E as <-.
  - intros i s e Hi. destruct H as [_ H]. destruct (H eq_refl) as [Hl _].
    now apply Hl in Hi.
Defined.

Lemma score_all_spec (env : search_env) (segs : list (Z * Z)) (all : list scored) :
  score_all env segs = Ok all ->
  length all = length segs
  /\ forall x, x ∈ all ->
       (start x, end_ x) ∈ segs /\ similarity env (start x) (end_ x) = Ok (score x).
Proof.
  revert all. induction segs as [|[s e] r IH]; intros all; cbn [score_all].
  - intros [= <-]. split; [reflexivity |]. intros x Hx. now apply elem_of_nil in Hx.
  - destruct (similarity env s e) as [v|] eqn:Hv; [|discriminate]. cbn [res_bind].
    destruct (score_all env r) as [rest|]; [|discriminate]. cbn [res_bind].
    intros [= <-]. destruct (IH rest eq_refl) as [Hlen Hin]. split.
    + cbn. now rewrite Hlen.
    + intros x Hx. apply elem_of_cons in Hx as [->|Hx].
      * cbn. split; [now left | exact Hv].
      * destruct (Hin x Hx). split; [now right | assumption].
Qed.

Lemma hits_lookup (top : list scored) (i : nat) :
  map (fun ir : Z * scored =>
         Hit (snd ir) (fst ir) (_score_to_label (score (snd ir))))
      (PyList.ranked top) !! i
  = (fun x => Hit x (Z.of_nat i + 1) (_score_to_label (score x))) <$> top !! i.
Proof.
  change (map ?f ?l) with (f <$> l). unfold PyList.ranked.
  rewrite list_lookup_fmap, list_lookup_imap. now destruct (top !! i).
Qed.

(** X15.  What a successful search answers.  The results are scored
    segments of the audio, each with the similarity that the model gave
    it; they come best first, the result in place [i] (counted from 0) has
    rank [i + 1] and the label of its own score, and no segment that was
    left out has a higher score than a result.  For a [top_k] that is not
    negative there are [top_k] results, or as many as there are segments
    when those are fewer; a negative [top_k] leaves out that many of the
    worst segments instead. *)
Theorem search_results {model} (m : model) (env : search_env)
  (w h top_k : Z) (results : list hit) (d : bool) :
  search_by_text (Some m) env w h top_k = Successful results d ->
  exists n segs all rest,
    load env = Ok n /\ segments_of n w h = Ok segs /\ score_all env segs = Ok all
    /\ Permutation (map entry results ++ rest) all
    /\ (forall x r, x ∈ rest -> r ∈ results -> score x <= score (entry r))
    /\ (forall (i j : nat) ri rj,
          (i <= j)%nat -> results !! i = Some ri -> results !! j = Some rj ->
          score (entry rj) <= score (entry ri))
    /\ (forall (i : nat) r,
          results !! i = Some r ->
          rank r = Z.of_nat i + 1
          /\ label r = _score_to_label (score (entry r))
          /\ (start (entry r), end_ (entry r)) ∈ segs
          /\ similarity env (start (entry r)) (end_ (entry r)) = Ok (score (entry r)))
    /\ (0 <= top_k -> length results = Nat.min (Z.to_nat top_k) (length segs))
    /\ (top_k < 0 -> length results = (length segs - Z.to_nat (- top_k))%nat)
    /\ (d = false <-> segs = []).
Proof.
  unfold search_by_text.
  destruct (load env) as [n|] eqn:Hload; [|discriminate]. cbn [res_bind].
  destruct (segments_of n w h) as [segs|] eqn:Hsegs; [|discriminate]. cbn [res_bind].
  destruct segs as [|seg segs'] eqn:Esegs.
  { intros [= <- <-]. exists n, [], [], [].
    repeat split; try reflexivity; try discriminate; try assumption.
    - intros x r Hx. now apply elem_of_nil in Hx.
    - intros _. cbn. lia. }
  assert (Hne : segs <> []) by (rewrite Esegs; discriminate).
  rewrite <- Esegs in *. clear Esegs.
  destruct (text_embedding env); [|discriminate]. cbn [res_bind].
  destruct (score_all env segs) as [all|] eqn:Hall; [|discriminate]. cbn [res_bind].
  intros [= <- <-].
  destruct (score_all_spec env segs all Hall) as [Hlen Hin].
  pose proof (ListFacts.sort_perm score all) as Hperm.
  pose proof (ListFacts.sort_descending score all) as Hdesc.
  destruct (ListFacts.prefix_take top_k (PyList.sort_desc score all))
    as (k & Ek & Hk1 & Hk2).
  rewrite Ek. set (sorted := PyList.sort_desc score all) in *.
  assert (Hentry : map entry
                     (map (fun ir : Z * scored =>
                             Hit (snd ir) (fst ir) (_score_to_label (score (snd ir))))
                          (PyList.ranked (take k sorted)))
                   = take k sorted).
  { apply list_eq. intros i. change (map entry ?l) with (entry <$> l).
    rewrite list_lookup_fmap, hits_lookup. now destruct (take k sorted !! i). }
  assert (Hres : forall (i : nat) r,
             map (fun ir : Z * scored =>
                    Hit (snd ir) (fst ir) (_score_to_label (score (snd ir))))
                 (PyList.ranked (take k sorted)) !! i = Some r ->
             take k sorted !! i = Some (entry r)
             /\ rank r = Z.of_nat i + 1
             /\ label r = _score_to_label (score (entry r))).
  { intros i r. rewrite hits_lookup.
    destruct (take k sorted !! i) as [x|]; [|discriminate].
    intros [= <-]. now repeat split. }
  assert (Hlens : length sorted = length segs).
  { rewrite <- Hlen. now apply Permutation_length. }
  exists n, segs, all, (drop k sorted).
  split; [first [reflexivity | assumption] |].
  split; [first [reflexivity | assumption] |].
  split; [first [reflexivity | assumption] |].
  split; [rewrite Hentry, take_drop; exact Hperm |].
  split.
  { intros x r Hx Hr. apply list_elem_of_lookup in Hr as [i Hi].
    destruct (Hres i r Hi) as (Ht & _).
    apply (ListFacts.take_best score sorted k (entry r) x Hdesc); [|exact Hx].
    now apply list_elem_of_lookup_2 in Ht. }
  split.
  { intros i j ri rj Hij Hi Hj.
    destruct (Hres i ri Hi) as (Hti & _). destruct (Hres j rj Hj) as (Htj & _).
    apply lookup_take_Some in Hti as [Hti _]. apply lookup_take_Some in Htj as [Htj _].
    exact (ListFacts.descending_lookup score sorted Hdesc i j _ _ Hij Hti Htj). }
  split.
  { intros i r Hi. destruct (Hres i r Hi) as (Ht & Hrank & Hlab).
    split; [exact Hrank |]. split; [exact Hlab |].
    apply lookup_take_Some in Ht as [Ht _]. apply list_elem_of_lookup_2 in Ht.
    apply Hin. apply list_elem_of_In. apply (Permutation_in _ Hperm).
    now apply list_elem_of_In. }
  assert (Hlr : length (map (fun ir : Z * scored =>
                               Hit (snd ir) (fst ir)
                                   (_score_to_label (score (snd ir))))
                            (PyList.ranked (take k sorted)))
                = Nat.min k (length segs)).
  { rewrite length_map. unfold PyList.ranked. rewrite length_imap, length_take.
    now rewrite Hlens. }
  split; [intros Hk; rewrite Hlr, (Hk1 Hk); reflexivity |].
  split; [intros Hk; rewrite Hlr, (Hk2 Hk), Hlens; lia |].
  split; [discriminate |]. intros E. contradiction.
Qed.

Lemma search_results_witness :
  exists results,
    search_by_text (Some tt) demo_search_env 240000 120000 1 = Successful results true
    /\ length results = 1%nat
    /\ forall r, results !! 0%nat = Some r -> rank r = 1.
Proof.
  destruct (search_by_text (Some tt) demo_search_env 240000 120000 1)
    as [|results d] eqn:E; [vm_compute in E; discriminate E |].
  assert (Ed : d = true) by (vm_compute in E; now injection E as _ <-).
  subst d. exists results. split; [reflexivity |].
  destruct (search_results tt demo_search_env 240000 120000 1 results true E)
    as (n & segs & all & rest & Hn & Hs & _ & _ & _ & _ & Hr & Hk & _).
  split.
  - rewrite (Hk ltac:(lia)). vm_compute in Hn. injection Hn as <-.
    vm_compute in Hs. injection Hs as <-. reflexivity.
  - intros r Hr0. now destruct (Hr 0%nat r Hr0) as (-> & _).
Defined.

End ClapFacts.

(** ** Peak segments *)

Module PeakFacts.

Import Notions Analysis.

Lemma snoc_old {A} (pre : list A) (a : A) (k : nat) :
  (k < length pre)%nat -> (pre ++ [a]) !! k = pre !! k.
Proof. intros H. now apply lookup_app_l. Qed.

Lemma snoc_new {A} (pre : list A) (a : A) : (pre ++ [a]) !! length pre = Some a.
Proof. now apply list_lookup_middle. Qed.

Lemma snoc_length {A} (pre : list A) (a : A) : length (pre ++ [a]) = S (length pre).
Proof. rewrite length_app. cbn. lia. Qed.

Lemma closed_old (env : peaks_env) (pre : list bool) (a : bool) (r : region) :
  closed_peak env pre r -> closed_peak env (pre ++ [a]) r.
Proof.
  intros (H1 & H2 & H3 & H4 & H5 & H6).
  pose proof (lookup_lt_Some _ _ _ H4) as Hu.
  repeat split; try assumption.
  - intros k Hk. rewrite snoc_old by lia. now apply H2.
  - destruct H3 as [H3|H3]; [now left | right]. rewrite snoc_old by lia. exact H3.
  - rewrite snoc_old by lia. exact H4.
Qed.

Lemma closed_inv (env : peaks_env) (pre : list bool) (a : bool) (r : region) :
  closed_peak env (pre ++ [a]) r ->
  closed_peak env pre r \/ (upto r = length pre /\ a = false).
Proof.
  intros (H1 & H2 & H3 & H4 & H5 & H6).
  pose proof (lookup_lt_Some _ _ _ H4) as Hu. rewrite snoc_length in Hu.
  destruct (decide (upto r = length pre)) as [E|Hne].
  - right. split; [exact E |]. rewrite E, snoc_new in H4. congruence.
  - left. repeat split; try assumption.
    + intros k Hk. rewrite <- (snoc_old pre a) by lia. now apply H2.
    + destruct H3 as [H3|H3]; [now left | right].
      rewrite <- (snoc_old pre a) by lia. exact H3.
    + rewrite <- (snoc_old pre a) by lia. exact H4.
Qed.

(** A run that reaches the frames read so far starts where the loop says. *)
Lemma run_start_unique (pre : list bool) (s f : nat) :
  (s < length pre)%nat ->
  (forall k, (s <= k < length pre)%nat -> pre !! k = Some true) ->
  (s = 0%nat \/ pre !! (s - 1)%nat = Some false) ->
  (f < length pre)%nat ->
  (forall k, (f <= k < length pre)%nat -> pre !! k = Some true) ->
  (f = 0%nat \/ pre !! (f - 1)%nat = Some false) ->
  f = s.
Proof.
  intros Hs Hs1 Hs2 Hf Hf1 Hf2.
  destruct (Nat.lt_trichotomy f s) as [Hlt|[E|Hgt]]; [exfalso | exact E | exfalso].
  - destruct Hs2 as [->|Hs2]; [lia |].
    rewrite (Hf1 (s - 1)%nat) in Hs2 by lia. discriminate.
  - destruct Hf2 as [->|Hf2]; [lia |].
    rewrite (Hs1 (f - 1)%nat) in Hf2 by lia. discriminate.
Qed.

Lemma apart_snoc (l : list region) (x : region) :
  apart l -> (forall r, r ∈ l -> (upto r < first x)%nat) -> apart (l ++ [x]).
Proof.
  unfold apart. induction l as [|y l IH]; intros Hl Hx; cbn [app].
  - repeat constructor.
  - inversion Hl as [|? ? Hl' Hy]; subst. constructor.
    + apply IH; [exact Hl' |]. intros r Hr. apply Hx. now right.
    + apply Forall_app. split; [exact Hy |]. constructor; [|constructor].
      apply Hx. now left.
Qed.

Lemma scan_inv_step (env : peaks_env) (pre : list bool) (a b : bool) (s : nat)
  (sg : list region) :
  scan_inv env pre b s sg ->
  scan_inv env (pre ++ [a])
    (if a && negb b then true else if negb a && b then false else b)
    (if a && negb b then length pre else s)
    (if a && negb b then sg
     else if negb a && b then close env s (length pre) (length pre) sg else sg).
Proof.
  intros (H1 & H2 & H3 & H4). pose proof (snoc_length pre a) as Hlen.
  destruct a, b; cbn [andb negb].
  - (* above, inside a region *)
    destruct H1 as (Hs & Hs1 & Hs2). split; [|split; [|split]].
    + split; [lia |]. split.
      * intros k Hk. destruct (decide (k = length pre)) as [->|Hne];
          [apply snoc_new | rewrite snoc_old by lia; apply Hs1; lia].
      * destruct Hs2 as [Hs2|Hs2]; [now left | right].
        rewrite snoc_old by lia. exact Hs2.
    + intros r. rewrite H2. split; [apply closed_old |].
      intros H. destruct (closed_inv _ _ _ _ H) as [H'|[_ H']];
        [exact H' | discriminate].
    + exact H3.
    + intros r Hr. destruct (H4 r Hr) as [Ha Hb]. split; [lia | exact Hb].
  - (* above, a region begins *)
    split; [|split; [|split]].
    + split; [lia |]. split.
      * intros k Hk. assert (k = length pre) as -> by lia. apply snoc_new.
      * destruct H1 as [->|H1]; [now left | right].
        pose proof (lookup_lt_Some _ _ _ H1). rewrite snoc_old by lia. exact H1.
    + intros r. rewrite H2. split; [apply closed_old |].
      intros H. destruct (closed_inv _ _ _ _ H) as [H'|[_ H']];
        [exact H' | discriminate].
    + exact H3.
    + intros r Hr. destruct (H4 r Hr) as [Ha _]. split; lia.
  - (* below, the region ends *)
    destruct H1 as (Hs & Hs1 & Hs2).
    assert (Hnew : closed_peak env (pre ++ [false])
                     (Region s (length pre) (length pre))
                   <-> long_enough env s (length pre) = true).
    { split; [now intros (_ & _ & _ & _ & _ & H) |]. intros HL.
      repeat split; cbn [first upto end_at]; try assumption.
      - intros k Hk. rewrite snoc_old by lia. now apply Hs1.
      - destruct Hs2 as [Hs2|Hs2]; [now left | right].
        rewrite snoc_old by lia. exact Hs2.
      - apply snoc_new. }
    assert (Hshape : forall r, closed_peak env (pre ++ [false]) r ->
                               upto r = length pre ->
                               r = Region s (length pre) (length pre)).
    { intros [f e u] (G1 & G2 & G3 & G4 & G5 & G6) E. cbn [first upto end_at] in *.
      subst u e. f_equal.
      apply (run_start_unique pre s f); try assumption.
      - intros k Hk. rewrite <- (snoc_old pre false) by lia. now apply G2.
      - destruct G3 as [G3|G3]; [now left | right].
        rewrite <- (snoc_old pre false) by lia. exact G3. }
    split; [|split; [|split]].
    + right. rewrite Hlen. replace (S (length pre) - 1)%nat with (length pre) by lia.
      apply snoc_new.
    + intros r. unfold close. destruct (long_enough env s (length pre)) eqn:HL.
      * rewrite elem_of_app, list_elem_of_singleton, H2. split.
        -- intros [H| ->]; [now apply closed_old | now apply Hnew].
        -- intros H. destruct (closed_inv _ _ _ _ H) as [H'|[E _]];
             [now left | right; now apply Hshape].
      * rewrite H2. split; [apply closed_old |].
        intros H. destruct (closed_inv _ _ _ _ H) as [H'|[E _]]; [exact H' |].
        rewrite (Hshape r H E) in H. apply Hnew in H. congruence.
    + unfold close. destruct (long_enough env s (length pre)); [|exact H3].
      apply apart_snoc; [exact H3 |]. intros r Hr. cbn [first].
      now apply H4.
    + intros r. unfold close. destruct (long_enough env s (length pre)).
      * rewrite elem_of_app, list_elem_of_singleton. intros [Hr| ->].
        -- destruct (H4 r Hr). split; [lia | discriminate].
        -- cbn [upto]. split; [lia | discriminate].
      * intros Hr. destruct (H4 r Hr). split; [lia | discriminate].
  - (* below, outside a region *)
    split; [|split; [|split]].
    + right. rewrite Hlen. replace (S (length pre) - 1)%nat with (length pre) by lia.
      apply snoc_new.
    + intros r. rewrite H2. split; [apply closed_old |].
      intros H. destruct (closed_inv _ _ _ _ H) as [H'|[E _]]; [exact H' |].
      exfalso. destruct H as (G1 & G2 & _).
      specialize (G2 (length pre - 1)%nat ltac:(lia)).
      destruct H1 as [->|H1]; [cbn in *; lia |].
      pose proof (lookup_lt_Some _ _ _ H1).
      rewrite snoc_old in G2 by lia. congruence.
    + exact H3.
    + intros r Hr. destruct (H4 r Hr). split; [lia | discriminate].
Qed.

Lemma scan_inv_all (env : peaks_env) (rest : list bool) :
  forall (pre : list bool) (b : bool) (s : nat) (sg : list region),
    scan_inv env pre b s sg ->
    scan_inv env (pre ++ rest)
      (fst (fst (scan env (length pre) rest b s sg)))
      (snd (fst (scan env (length pre) rest b s sg)))
      (snd (scan env (length pre) rest b s sg)).
Proof.
  induction rest as [|a rest IH]; intros pre b s sg H; cbn [scan].
  - now rewrite app_nil_r.
  - pose proof (scan_inv_step env pre a b s sg H) as Hstep.
    replace (pre ++ a :: rest) with ((pre ++ [a]) ++ rest)
      by (now rewrite <- app_assoc).
    rewrite <- (snoc_length pre a).
    destruct (a && negb b); [now apply IH |].
    destruct (negb a && b); now apply IH.
Qed.

Lemma scan_inv_start (env : peaks_env) : scan_inv env [] false 0 [].
Proof.
  split; [now left |]. split; [|split].
  - intros r. split; [intros H; now apply elem_of_nil in H |].
    intros (_ & _ & _ & H & _). discriminate H.
  - constructor.
  - intros r H. now apply elem_of_nil in H.
Qed.

Lemma closed_peak_spec (env : peaks_env) (above : list bool) (r : region) :
  closed_peak env above r <-> peak env above r /\ (upto r < length above)%nat.
Proof.
  unfold closed_peak, peak, run_above, end_frame. split.
  - intros (H1 & H2 & H3 & H4 & H5 & H6).
    pose proof (lookup_lt_Some _ _ _ H4) as Hu.
    destruct (Nat.eqb_spec (upto r) (length above)) as [E|_]; [lia |].
    repeat split; try assumption; try lia. now right.
  - intros (((Hr & H2 & H3 & H4) & H5 & H6) & Hu).
    destruct (Nat.eqb_spec (upto r) (length above)) as [E|_]; [lia |].
    repeat split; try assumption; try lia.
    destruct H4 as [H4|H4]; [lia | exact H4].
Qed.

(** X16.  The regions that the loop over the frames finds are the runs of
    frames at or above the threshold that cannot be made longer and that
    last long enough, each with the end time the code reads for it: the
    time of the first frame below the threshold after the run, or the time
    of the last frame when the run reaches the end.  None is missed, and
    they come in the order of time, with at least one frame below the
    threshold between two of them. *)
Theorem regions_are_peaks (env : peaks_env) (above : list bool) :
  (forall r, r ∈ regions env above <-> peak env above r)
  /\ apart (regions env above).
Proof.
  pose proof (scan_inv_all env above [] false 0%nat [] (scan_inv_start env)) as H.
  cbn [app length] in H. unfold regions.
  destruct (scan env 0 above false 0 []) as [[b s] sg]. cbn [fst snd] in H.
  destruct H as (H1 & H2 & H3 & H4).
  destruct b.
  - destruct H1 as (Hs & Hs1 & Hs2).
    assert (Hlast : forall r, peak env above r -> upto r = length above ->
                      r = Region s (length above - 1) (length above)
                      /\ long_enough env s (length above - 1) = true).
    { intros [f e u] ((Hr & G2 & G3 & G4) & G5 & G6) E.
      cbn [first upto end_at] in *. subst u. unfold end_frame in G5.
      rewrite Nat.eqb_refl in G5. subst e.
      assert (f = s) as -> by (apply (run_start_unique above s f); auto; lia).
      now split. }
    assert (Hnew : long_enough env s (length above - 1) = true ->
                   peak env above (Region s (length above - 1) (length above))).
    { intros HL. unfold peak, run_above, end_frame. cbn [first upto end_at].
      rewrite Nat.eqb_refl. repeat split; try assumption; try lia. }
    unfold close. destruct (long_enough env s (length above - 1)) eqn:HL; split.
    + intros r. rewrite elem_of_app, list_elem_of_singleton, H2, closed_peak_spec.
      split.
      * intros [[H _]| ->]; [exact H | now apply Hnew].
      * intros H. destruct (decide (upto r = length above)) as [E|Hne].
        -- right. now destruct (Hlast r H E).
        -- left. split; [exact H |]. destruct H as ((Hr & _) & _). lia.
    + apply apart_snoc; [exact H3 |]. intros r Hr. cbn [first]. now apply H4.
    + intros r. rewrite H2, closed_peak_spec. split; [now intros [H _] |].
      intros H. split; [exact H |].
      destruct (decide (upto r = length above)) as [E|Hne].
      * destruct (Hlast r H E) as [_ HL']. congruence.
      * destruct H as ((Hr & _) & _). lia.
    + exact H3.
  - split; [|exact H3].
    intros r. rewrite H2, closed_peak_spec. split; [now intros [H _] |].
    intros H. split; [exact H |].
    destruct (decide (upto r = length above)) as [E|Hne].
    + exfalso. destruct H as ((Hr & G2 & _) & _).
      specialize (G2 (length above - 1)%nat ltac:(lia)).
      destruct H1 as [->|H1]; [cbn in *; lia | congruence].
    + destruct H as ((Hr & _) & _). lia.
Qed.

(** X17.  What [_detect_peak_segments] returns.  Every segment returned is
    one of the regions found; the segments come with the highest mean
    intensity first; when [max_segments] is not negative there are at
    most that many, no region that was left out has a higher intensity
    than a segment returned, and when the regions are not more than
    [max_segments] all of them are returned.  When the array operations
    raise, no segment is returned. *)
Theorem peak_segments (env : peaks_env) (max_segments : Z) :
  let key := fun r => intensity env (first r) (upto r) in
  let found := _detect_peak_segments env max_segments in
  match above_threshold env with
  | Raise _ => found = []
  | Ok above =>
      (forall r, r ∈ found -> r ∈ regions env above)
      /\ descending key found
      /\ (0 <= max_segments ->
          (length found <= Z.to_nat max_segments)%nat
          /\ (forall r x, r ∈ regions env above -> r ∉ found -> x ∈ found ->
                key r <= key x)
          /\ ((length (regions env above) <= Z.to_nat max_segments)%nat ->
              forall r, r ∈ regions env above -> r ∈ found))
  end.
Proof.
  intros key found. unfold found, _detect_peak_segments.
  destruct (above_threshold env) as [above|e]; [|reflexivity].
  pose proof (ListFacts.sort_perm key (regions env above)) as Hperm.
  pose proof (ListFacts.sort_descending key (regions env above)) as Hdesc.
  fold key. set (sorted := PyList.sort_desc key (regions env above)) in *.
  destruct (ListFacts.prefix_take max_segments sorted) as (k & Ek & Hk & _).
  rewrite Ek.
  assert (Hin : forall r, r ∈ sorted <-> r ∈ regions env above).
  { intros r. rewrite !list_elem_of_In. split.
    - apply Permutation_in. exact Hperm.
    - apply Permutation_in. now apply Permutation_sym. }
  split; [|split].
  - intros r Hr. apply Hin. apply list_elem_of_lookup in Hr as [i Hi].
    apply lookup_take_Some in Hi as [Hi _]. now apply list_elem_of_lookup_2 in Hi.
  - unfold descending in *. rewrite <- (take_drop k sorted) in Hdesc.
    clear -Hdesc. induction (take k sorted) as [|x l IH]; [constructor |].
    cbn [app] in Hdesc. inversion Hdesc as [|? ? Hl Hx]; subst.
    constructor; [now apply IH |]. apply Forall_app in Hx. tauto.
  - intros Hmax. rewrite (Hk Hmax). split; [|split].
    + rewrite length_take. lia.
    + intros r x Hr Hnot Hx. apply Hin in Hr.
      rewrite <- (take_drop (Z.to_nat max_segments) sorted) in Hr.
      apply elem_of_app in Hr as [Hr|Hr]; [contradiction |].
      now apply (ListFacts.take_best key sorted (Z.to_nat max_segments) x r Hdesc).
    + intros Hfew r Hr. rewrite take_ge; [now apply Hin |].
      rewrite (Permutation_length Hperm). exact Hfew.
Qed.

Lemma peak_segments_witness :
  _detect_peak_segments demo_peaks 1 = [Region 5 6 7]
  /\ Region 5 6 7 ∈ regions demo_peaks [false; true; true; true; false; true; true]
  /\ (length (_detect_peak_segments demo_peaks 1) <= 1)%nat.
Proof.
  pose proof (peak_segments demo_peaks 1) as H. cbn zeta in H.
  change (above_threshold demo_peaks)
    with (Ok (A := list bool) [false; true; true; true; false; true; true]) in H.
  destruct H as (H1 & _ & H3).
  split; [reflexivity |]. split.
  - apply H1. vm_compute. now left.
  - destruct (H3 ltac:(lia)) as [Hlen _]. exact Hlen.
Defined.

End PeakFacts.

(** ** Key detection *)

Module KeyFacts.

Import Notions Analysis.

Section Order.

Context {V : Type}.
Variable gt : V -> V -> bool.
Hypothesis Hgt : strict_order gt.

Lemma not_above (a b c : V) : gt a b = false -> gt c b = true -> gt a c = false.
Proof.
  destruct Hgt as (_ & Htrans & _). intros Hab Hcb.
  destruct (gt a c) eqn:E; [|reflexivity].
  rewrite (Htrans a c b E Hcb) in Hab. discriminate.
Qed.

Lemma above_rest (a b c : V) : gt a b = true -> gt c b = false -> gt a c = true.
Proof.
  destruct Hgt as (_ & _ & Hco). intros Hab Hcb.
  destruct (Hco a b c Hab) as [H|H]; [exact H | congruence].
Qed.

Lemma best_step (start : V * string) (pre : list (V * string)) (st c : V * string) :
  best_so_far gt start pre st ->
  best_so_far gt start (pre ++ [c]) (better gt st c).
Proof.
  destruct Hgt as (Hirr & Htrans & Hco).
  unfold better. intros [[-> Hnone]|(i & Hi & Hst & Hmax & Hfirst)].
  - destruct (gt (fst c) (fst start)) eqn:Hc.
    + right. exists (length pre). split; [now apply list_lookup_middle |].
      split; [exact Hc |]. split.
      * intros c' Hc'. apply elem_of_app in Hc' as [Hc'|Hc'].
        -- apply (not_above _ (fst start)); [now apply Hnone | exact Hc].
        -- apply list_elem_of_singleton in Hc'. subst c'. apply Hirr.
      * intros j c' Hj Hc'. rewrite lookup_app_l in Hc' by exact Hj.
        apply (above_rest _ (fst start)); [exact Hc |].
        apply Hnone. now apply list_elem_of_lookup_2 in Hc'.
    + left. split; [reflexivity |]. intros c' Hc'.
      apply elem_of_app in Hc' as [Hc'|Hc']; [now apply Hnone |].
      apply list_elem_of_singleton in Hc'. now subst c'.
  - destruct (gt (fst c) (fst st)) eqn:Hc.
    + right. exists (length pre). split; [now apply list_lookup_middle |].
      split; [exact (Htrans _ _ _ Hc Hst) |]. split.
      * intros c' Hc'. apply elem_of_app in Hc' as [Hc'|Hc'].
        -- apply (not_above _ (fst st)); [now apply Hmax | exact Hc].
        -- apply list_elem_of_singleton in Hc'. subst c'. apply Hirr.
      * intros j c' Hj Hc'. rewrite lookup_app_l in Hc' by exact Hj.
        apply (above_rest _ (fst st)); [exact Hc |].
        apply Hmax. now apply list_elem_of_lookup_2 in Hc'.
    + right. exists i. pose proof (lookup_lt_Some _ _ _ Hi) as Hlt.
      split; [rewrite lookup_app_l by exact Hlt; exact Hi |].
      split; [exact Hst |]. split.
      * intros c' Hc'. apply elem_of_app in Hc' as [Hc'|Hc']; [now apply Hmax |].
        apply list_elem_of_singleton in Hc'. now subst c'.
      * intros j c' Hj Hc'. rewrite lookup_app_l in Hc' by lia.
        now apply (Hfirst j).
Qed.

Lemma best_fold (start : V * string) (l : list (V * string)) :
  forall pre st,
    best_so_far gt start pre st ->
    best_so_far gt start (pre ++ l) (fold_left (better gt) l st).
Proof.
  induction l as [|c l IH]; intros pre st H; cbn [fold_left].
  - now rewrite app_nil_r.
  - replace (pre ++ c :: l) with ((pre ++ [c]) ++ l) by (now rewrite <- app_assoc).
    apply IH. now apply best_step.
Qed.

End Order.

Lemma rounds_fold {V} (gt : V -> V -> bool) (rounds : list (string * (V * V))) :
  forall st,
    fold_left (key_round gt) rounds st
    = fold_left (better gt)
        (flat_map (fun round : string * (V * V) =>
                     [(fst (snd round), fst round +:+ " major");
                      (snd (snd round), fst round +:+ " minor")]) rounds) st.
Proof.
  induction rounds as [|[name [ma mi]] rounds IH]; intros st; [reflexivity |].
  cbn [fold_left flat_map app fst snd]. rewrite IH. f_equal.
Qed.

(** X18.  The key that [_detect_key] names.  When the correlations are
    numbers, the loop over the twelve rotations ends with the first of the
    24 candidates -- C major, C minor, C# major, and so on -- whose
    correlation no other candidate exceeds, provided that correlation is
    above -1; when no candidate is above -1 the answer is the start value
    "C major".  When an array operation raises, the answer is
    "Unknown". *)
Theorem detect_key_best {V} (gt : V -> V -> bool) (minus_one : V)
  (corr : res (list (V * V))) :
  strict_order gt ->
  match corr with
  | Raise _ => _detect_key gt minus_one corr = "Unknown"
  | Ok cs =>
      (_detect_key gt minus_one corr = "C major"
       /\ forall c, c ∈ candidates cs -> gt (fst c) minus_one = false)
      \/ (exists (i : nat) v,
            candidates cs !! i = Some (v, _detect_key gt minus_one corr)
            /\ gt v minus_one = true
            /\ (forall c, c ∈ candidates cs -> gt (fst c) v = false)
            /\ (forall (j : nat) c, (j < i)%nat -> candidates cs !! j = Some c ->
                  gt v (fst c) = true))
  end.
Proof.
  intros Hgt. destruct corr as [cs|e]; [|reflexivity].
  unfold _detect_key. rewrite rounds_fold. fold (candidates cs).
  assert (H0 : best_so_far gt (minus_one, "C major") [] (minus_one, "C major")).
  { left. split; [reflexivity |]. intros c Hc. now apply elem_of_nil in Hc. }
  pose proof (best_fold gt Hgt _ (candidates cs) [] _ H0) as H. cbn [app] in H.
  destruct H as [[E Hnone]|(i & Hi & Hst & Hmax & Hfirst)].
  - left. rewrite E. split; [reflexivity | exact Hnone].
  - right. exists i, (fst (fold_left (better gt) (candidates cs) (minus_one, "C major"))).
    split; [|now repeat split].
    rewrite Hi. now destruct (fold_left _ _ _).
Qed.

Lemma detect_key_best_witness :
  (_detect_key Z.gtb (-1) (Ok [(0, 3); (3, 1)]) = "C major"
   /\ forall c, c ∈ candidates [(0, 3); (3, 1)] -> (fst c >? -1) = false)
  \/ (exists (i : nat) v,
        candidates [(0, 3); (3, 1)] !! i
        = Some (v, _detect_key Z.gtb (-1) (Ok [(0, 3); (3, 1)]))
        /\ (v >? -1) = true
        /\ (forall c, c ∈ candidates [(0, 3); (3, 1)] -> (fst c >? v) = false)
        /\ (forall (j : nat) c, (j < i)%nat ->
              candidates [(0, 3); (3, 1)] !! j = Some c -> (v >? fst c) = true)).
Proof.
  apply (detect_key_best Z.gtb (-1) (Ok [(0, 3); (3, 1)])).
  repeat split.
  - intros a. rewrite Z.gtb_ltb. apply Z.ltb_irrefl.
  - intros a b c. rewrite !Z.gtb_ltb, !Z.ltb_lt. lia.
  - intros a b c. rewrite !Z.gtb_ltb, !Z.ltb_lt. lia.
Defined.

End KeyFacts.
